(** * OCLStream: the OpenCL engine of BabelStream

    A shallow embedding of [OCLStream.cpp]: the process-wide device cache,
    the engine constructor with its capacity validation, the five kernels of
    the embedded OpenCL C source and the host operations that launch them.

    Conventions of the embedding.
    - [size_t] and [cl_ulong] are 64-bit unsigned integers, [unsigned int] is
      32-bit unsigned and [int] is 32-bit signed; all are carried as [Z] with
      the wrap-around of each operation written out.
    - Exceptions, console output and the calls made to the OpenCL runtime are
      threaded through a state-and-exception monad over a [world].
    - [WGSIZE] comes from [OCLStream.h], which is not part of the embedded
      file; it is a parameter of every definition that uses it.
    - The OpenCL runtime is an environment: what it answers to a build, to the
      creation of a kernel and to the creation of a buffer is read from the
      [Device] record. The wrapper is [cl2.hpp] (the constructor calls
      [getBuildInfo] without a device and uses [cl::KernelFunctor] as a
      template, which only that header offers): it turns every status
      different from [CL_SUCCESS] into a [cl::Error], and a failed
      [Program::build] into a [cl::BuildError], the subclass of [cl::Error]
      that carries the build log. *)

From Stdlib Require Import ZArith QArith Qabs Lia String List.
From Stdlib Require Import SpecFloat.
From Equations Require Import Equations.
From stdpp Require Import base list.

Local Open Scope string_scope.
Local Open Scope list_scope.
Local Open Scope Z_scope.

(** ** Machine integers *)

Module Mach.

Definition SIZE_MAX1 : Z := 2 ^ 64.
Definition UINT_MAX1 : Z := 2 ^ 32.
Definition INT_MIN : Z := - 2 ^ 31.
Definition INT_MAX : Z := 2 ^ 31 - 1.

(** Conversion of an integer value to [size_t] (also [cl_ulong]). *)
Definition to_size_t (x : Z) : Z := x mod SIZE_MAX1.

(** Product of two [size_t] values. *)
Definition size_t_mul (x y : Z) : Z := (x * y) mod SIZE_MAX1.

(** Conversion of a [size_t] to [int] (two's complement, 32 bits). *)
Definition to_int (x : Z) : Z := (x + 2 ^ 31) mod UINT_MAX1 - 2 ^ 31.

Definition is_int (x : Z) : Prop := INT_MIN <= x <= INT_MAX.
Definition is_unsigned (x : Z) : Prop := 0 <= x < UINT_MAX1.
Definition is_ulong (x : Z) : Prop := 0 <= x < SIZE_MAX1.

End Mach.

(** ** OpenCL status codes used by the file *)

Definition CL_SUCCESS : Z := 0.
Definition CL_BUILD_PROGRAM_FAILURE : Z := -11.
Definition CL_INVALID_VALUE : Z := -30.
Definition CL_INVALID_WORK_GROUP_SIZE : Z := -54.

Definition CL_MEM_READ_WRITE : Z := 1.
Definition CL_MEM_WRITE_ONLY : Z := 2.

(** ** Devices *)

(** A [cl::Device]: the attributes the code queries with [getInfo], and the
    answers of the device's OpenCL runtime to the calls the constructor
    makes with arguments of its own choosing. *)
Record Device : Type := mkDevice {
  CL_DEVICE_NAME : string;
  CL_DRIVER_VERSION : string;
  CL_DEVICE_GLOBAL_MEM_SIZE : Z;      (* cl_ulong *)
  CL_DEVICE_MAX_MEM_ALLOC_SIZE : Z;   (* cl_ulong *)
  CL_DEVICE_DOUBLE_FP_CONFIG : Z;     (* cl_device_fp_config bit field *)
  (* status of clBuildProgram for the given options *)
  clBuildProgram : string -> Z;
  (* the build log left by that build *)
  CL_PROGRAM_BUILD_LOG : string -> string;
  (* status of clCreateKernel; the flag tells whether the program has a
     successfully built executable *)
  clCreateKernel : bool -> string -> Z;
  (* status of clCreateBuffer for the given flags and size in bytes *)
  clCreateBuffer : Z -> Z -> Z
}.

(** ** Exceptions, output and the world *)

Inductive exn : Type :=
| runtime_error (what : string)     (* std::runtime_error *)
| cl_Error (err : Z)                (* cl::Error, with its err() *)
| cl_BuildError (err : Z) (log : string)
                                    (* cl::BuildError, a cl::Error that
                                       also holds the build log *)
| undefined_behaviour.              (* out-of-range operator[] *)

(** What is streamed to [std::cout] or [std::cerr]. *)
Inductive token : Type :=
| tok_str (s : string)
| tok_int (i : Z)
| tok_endl.

Inductive event : Type :=
| ev_cout (ts : list token)
| ev_cerr (ts : list token)
| ev_platform_get
| ev_get_double_fp_config
| ev_build (options : string)
| ev_create_kernel (name : string)
| ev_create_buffer (flags bytes : Z).

(** The two globals of the file ([cached], [devices]), the platforms the
    OpenCL installation offers, and the chronological trace of effects. *)
Record world : Type := mkWorld {
  platforms : list (list Device);
  cached : bool;
  devices : list Device;
  trace : list event
}.

Inductive outcome (A : Type) : Type :=
| Ok (a : A)
| Throw (e : exn).
Arguments Ok {A} a.
Arguments Throw {A} e.

Definition M (A : Type) : Type := world -> outcome A * world.

#[global] Instance M_ret : MRet M := fun A a w => (Ok a, w).
#[global] Instance M_bind : MBind M := fun A B f m w =>
  match m w with
  | (Ok a, w') => f a w'
  | (Throw e, w') => (Throw e, w')
  end.

Definition throw {A} (e : exn) : M A := fun w => (Throw e, w).

Definition emit (e : event) : M unit := fun w =>
  (Ok tt, mkWorld (platforms w) (cached w) (devices w) (trace w ++ [e])).

Definition get_cached : M bool := fun w => (Ok (cached w), w).
Definition get_devices : M (list Device) := fun w => (Ok (devices w), w).
Definition get_platforms : M (list (list Device)) := fun w => (Ok (platforms w), w).
Definition set_cached (b : bool) : M unit := fun w =>
  (Ok tt, mkWorld (platforms w) b (devices w) (trace w)).
Definition set_devices (ds : list Device) : M unit := fun w =>
  (Ok tt, mkWorld (platforms w) (cached w) ds (trace w)).

(** [try { m } catch (cl::Error& err) { h err }]: a [cl::Error] is caught,
    and so is a [cl::BuildError], which derives from it. The handler holds
    the exception through a reference to [cl::Error]: it reads [err.err()],
    and a [throw err;] of its own throws a copy of static type [cl::Error],
    without the build log. *)
Definition try_catch_cl {A} (m : M A) (h : Z -> M A) : M A := fun w =>
  match m w with
  | (Throw (cl_Error err), w') => h err w'
  | (Throw (cl_BuildError err _), w') => h err w'
  | r => r
  end.

(** [detail::errHandler] of [cl2.hpp]. *)
Definition errHandler (status : Z) : M unit :=
  if status =? CL_SUCCESS then mret tt else throw (cl_Error status).

(** [detail::buildErrHandler] of [cl2.hpp]: a failed build throws a
    [cl::BuildError] made of the status and the build logs of the program. *)
Definition buildErrHandler (status : Z) (log : string) : M unit :=
  if status =? CL_SUCCESS then mret tt else throw (cl_BuildError status log).

(** [v[i]] on a [std::vector], [i] already converted to [size_t]. *)
Definition vector_at {A} (v : list A) (i : Z) : M A :=
  match v !! Z.to_nat i with
  | Some x => mret x
  | None => throw undefined_behaviour
  end.

(** ** The device cache *)

(** [getDeviceList]: appends the devices of every platform, in order, to
    [devices] and sets [cached]. *)
Fixpoint getDeviceList_loop (ps : list (list Device)) : M unit :=
  match ps with
  | [] => mret tt
  | plat_devices :: ps' =>
      ds ← get_devices;
      set_devices (ds ++ plat_devices);;
      getDeviceList_loop ps'
  end.

Definition getDeviceList : M unit :=
  emit ev_platform_get;;
  ps ← get_platforms;
  getDeviceList_loop ps;;
  set_cached true.

Definition getDeviceName (device : Z) : M string :=
  c ← get_cached;
  (if negb c then getDeviceList else mret tt);;
  ds ← get_devices;
  if Mach.to_size_t device <? Z.of_nat (length ds) then
    d ← vector_at ds (Mach.to_size_t device);
    mret (CL_DEVICE_NAME d)
  else
    throw (runtime_error "Error asking for name for non-existant device").

Definition getDeviceDriver (device : Z) : M string :=
  c ← get_cached;
  (if negb c then getDeviceList else mret tt);;
  ds ← get_devices;
  if Mach.to_size_t device <? Z.of_nat (length ds) then
    d ← vector_at ds (Mach.to_size_t device);
    mret (CL_DRIVER_VERSION d)
  else
    throw (runtime_error "Error asking for driver for non-existant device").

(** The printing loop of [listDevices], [n] iterations from index [i]. *)
Fixpoint listDevices_loop (n : nat) (i : Z) : M unit :=
  match n with
  | O => mret tt
  | S n' =>
      name ← getDeviceName i;
      emit (ev_cout [tok_int i; tok_str ": "; tok_str name; tok_endl]);;
      listDevices_loop n' (i + 1)
  end.

Definition listDevices : M unit :=
  getDeviceList;;
  ds ← get_devices;
  if Z.of_nat (length ds) =? 0 then
    emit (ev_cerr [tok_str "No devices found."; tok_endl])
  else
    emit (ev_cout [tok_endl]);;
    emit (ev_cout [tok_str "Devices:"; tok_endl]);;
    listDevices_loop (length ds) 0;;
    emit (ev_cout [tok_endl]).

(** ** Element types *)

(** The template parameter [T] of [OCLStream<T>] and the macro [TYPE] of the
    kernel source: its size in bytes, the value of the literal [0.0], its
    addition and multiplication, and the kernel constant [scalar]. *)
Class Elem (T : Type) : Type := mkElem {
  sizeof : Z;
  T_zero : T;
  T_add : T -> T -> T;
  T_mul : T -> T -> T;
  scalar : T
}.

Definition sizeof_double : Z := 8.
Definition sizeof_float : Z := 4.

(** ** The engine *)

Section Engine.

Context {T : Type} {ElemT : Elem T}.

(** [WGSIZE] of [OCLStream.h]. *)
Variable WGSIZE : Z.

(** Contents of freshly created device memory: buffer number and index to
    value. Nothing in the code initialises a [cl::Buffer] or the local
    memory of a work-group. *)
Variable indeterminate : nat -> nat -> T.

Record OCLStream : Type := mkOCLStream {
  array_size : Z;
  device : Device;
  d_a : list T;
  d_b : list T;
  d_c : list T;
  d_sum : list T;
  sums : list T
}.

(** [program.build(options)]: [clBuildProgram], then [buildErrHandler] on
    its status and on [getBuildInfo<CL_PROGRAM_BUILD_LOG>()]; the context
    holds the one device, so the logs are the log of that device. *)
Definition Program_build (dev : Device) (options : string) : M unit :=
  emit (ev_build options);;
  buildErrHandler (clBuildProgram dev options) (CL_PROGRAM_BUILD_LOG dev options).

(** [new cl::KernelFunctor<...>(program, name)]. *)
Definition KernelFunctor (dev : Device) (built : bool) (name : string) : M unit :=
  emit (ev_create_kernel name);;
  errHandler (clCreateKernel dev built name).

(** [cl::Buffer(context, flags, bytes)]: the buffer holds [bytes / sizeof(T)]
    elements of indeterminate value. *)
Definition cl_Buffer (dev : Device) (which : nat) (flags bytes : Z) : M (list T) :=
  emit (ev_create_buffer flags bytes);;
  errHandler (clCreateBuffer dev flags bytes);;
  mret (map (indeterminate which) (seq 0 (Z.to_nat (bytes / sizeof)))).

(** Lines 97-118 of the constructor, the creation and build of the program;
    the result tells whether the program was built. The handler's
    [throw err;] throws a [cl::Error] copied from the reference [err]: the
    build log of the caught [cl::BuildError] is not in it. *)
Definition build_program (dev : Device) : M bool :=
  if sizeof =? sizeof_double then
    emit ev_get_double_fp_config;;
    if CL_DEVICE_DOUBLE_FP_CONFIG dev =? 0 then
      throw (runtime_error
               "Device does not support double precision, please use --float")
    else
      try_catch_cl
        (Program_build dev "-DTYPE=double";; mret true)
        (fun err =>
           if err =? CL_BUILD_PROGRAM_FAILURE then
             emit (ev_cout [tok_str (CL_PROGRAM_BUILD_LOG dev "-DTYPE=double");
                            tok_endl]);;
             throw (cl_Error err)
           else mret false)
  else if sizeof =? sizeof_float then
    Program_build dev "-DTYPE=float";; mret true
  else mret false.

(** Lines 120-125 of the constructor, the five [cl::KernelFunctor] objects. *)
Definition create_kernels (dev : Device) (built : bool) : M unit :=
  KernelFunctor dev built "copy";;
  KernelFunctor dev built "mul";;
  KernelFunctor dev built "add";;
  KernelFunctor dev built "triad";;
  KernelFunctor dev built "stream_dot".

(** Lines 127-143 of the constructor: the capacity checks, the four buffers
    and the host vector of partial sums. *)
Definition check_and_allocate (dev : Device) (ARRAY_SIZE : Z) : M OCLStream :=
  let totalmem := CL_DEVICE_GLOBAL_MEM_SIZE dev in
  let maxbuffer := CL_DEVICE_MAX_MEM_ALLOC_SIZE dev in
  if maxbuffer <? Mach.size_t_mul sizeof ARRAY_SIZE then
    throw (runtime_error "Device cannot allocate a buffer big enough")
  else if totalmem <? Mach.size_t_mul (Mach.size_t_mul 3 sizeof) ARRAY_SIZE then
    throw (runtime_error "Device does not have enough memory for all 3 buffers")
  else
    a ← cl_Buffer dev 0 CL_MEM_READ_WRITE (Mach.size_t_mul sizeof ARRAY_SIZE);
    b ← cl_Buffer dev 1 CL_MEM_READ_WRITE (Mach.size_t_mul sizeof ARRAY_SIZE);
    c ← cl_Buffer dev 2 CL_MEM_READ_WRITE (Mach.size_t_mul sizeof ARRAY_SIZE);
    s ← cl_Buffer dev 3 CL_MEM_WRITE_ONLY
          (Mach.size_t_mul sizeof (ARRAY_SIZE / WGSIZE));
    mret (mkOCLStream ARRAY_SIZE dev a b c s
            (repeat T_zero (Z.to_nat (ARRAY_SIZE / WGSIZE)))).

(** [OCLStream<T>::OCLStream(ARRAY_SIZE, device_index)]: lines 82-95, then
    the three parts above. *)
Definition OCLStream_new (ARRAY_SIZE : Z) (device_index : Z) : M OCLStream :=
  c ← get_cached;
  (if negb c then getDeviceList else mret tt);;
  ds ← get_devices;
  if Mach.to_size_t device_index >=? Z.of_nat (length ds) then
    throw (runtime_error "Invalid device index")
  else
    dev ← vector_at ds (Mach.to_size_t device_index);
    name ← getDeviceName device_index;
    emit (ev_cout [tok_str "Using OpenCL device "; tok_str name; tok_endl]);;
    driver ← getDeviceDriver device_index;
    emit (ev_cout [tok_str "Driver: "; tok_str driver; tok_endl]);;
    built ← build_program dev;
    create_kernels dev built;;
    check_and_allocate dev ARRAY_SIZE.

(** *** Operations: state passing over the engine *)

Definition Op (A : Type) : Type := OCLStream -> outcome A * OCLStream.

#[global] Instance Op_ret : MRet Op := fun A a e => (Ok a, e).
#[global] Instance Op_bind : MBind Op := fun A B f m e =>
  match m e with
  | (Ok a, e') => f a e'
  | (Throw x, e') => (Throw x, e')
  end.

Definition op_throw {A} (x : exn) : Op A := fun e => (Throw x, e).
Definition get_engine : Op OCLStream := fun e => (Ok e, e).

Definition set_d_a (v : list T) : Op unit := fun e =>
  (Ok tt, mkOCLStream (array_size e) (device e) v (d_b e) (d_c e) (d_sum e) (sums e)).
Definition set_d_b (v : list T) : Op unit := fun e =>
  (Ok tt, mkOCLStream (array_size e) (device e) (d_a e) v (d_c e) (d_sum e) (sums e)).
Definition set_d_c (v : list T) : Op unit := fun e =>
  (Ok tt, mkOCLStream (array_size e) (device e) (d_a e) (d_b e) v (d_sum e) (sums e)).
Definition set_d_sum (v : list T) : Op unit := fun e =>
  (Ok tt, mkOCLStream (array_size e) (device e) (d_a e) (d_b e) (d_c e) v (sums e)).
Definition set_sums (v : list T) : Op unit := fun e =>
  (Ok tt, mkOCLStream (array_size e) (device e) (d_a e) (d_b e) (d_c e) (d_sum e) v).

(** *** The kernels

    A kernel is the function of one work-item: its global id, the buffers
    it reads, and the buffer it writes, which it returns. An access outside
    a buffer is undefined in OpenCL C; here the work-item then leaves the
    memory as it is. The launches of a constructed engine stay inside the
    buffers. *)

Definition copy_kernel (i : nat) (a c : list T) : list T :=
  match a !! i with
  | Some x => <[i := x]> c
  | None => c
  end.

Definition mul_kernel (i : nat) (b c : list T) : list T :=
  match c !! i with
  | Some x => <[i := T_mul scalar x]> b
  | None => b
  end.

Definition add_kernel (i : nat) (a b c : list T) : list T :=
  match a !! i, b !! i with
  | Some x, Some y => <[i := T_add x y]> c
  | _, _ => c
  end.

Definition triad_kernel (i : nat) (a b c : list T) : list T :=
  match b !! i, c !! i with
  | Some x, Some y => <[i := T_add x (T_mul scalar y)]> a
  | _, _ => a
  end.

(** An [n]-item one-dimensional range: the work-items [0 .. n-1], each
    applied to the memory it writes. *)
Definition NDRange {S : Type} (n : Z) (item : nat -> S -> S) (s : S) : S :=
  fold_left (fun s i => item i s) (seq 0 (Z.to_nat n)) s.

(** *** The dot kernel

    One work-group at a time; inside a work-group the lanes run in phases
    that the barriers separate: the loads, then one phase per offset. *)

(** [wg_sum[local_i] = a[i] * b[i]]. *)
Definition stream_dot_load (a b : list T) (i local_i : nat)
    (wg_sum : list T) : list T :=
  match a !! i, b !! i with
  | Some x, Some y => <[local_i := T_mul x y]> wg_sum
  | _, _ => wg_sum
  end.

(** [if (local_i < offset) wg_sum[local_i] += wg_sum[local_i+offset]]. *)
Definition stream_dot_step (offset : Z) (local_i : nat)
    (wg_sum : list T) : list T :=
  if Z.of_nat local_i <? offset then
    match wg_sum !! local_i, wg_sum !! (local_i + Z.to_nat offset)%nat with
    | Some x, Some y => <[local_i := T_add x y]> wg_sum
    | _, _ => wg_sum
    end
  else wg_sum.

(** The [for] loop of [stream_dot]. *)
Equations? stream_dot_loop (local_size offset : Z) (wg_sum : list T) : list T
  by wf (Z.to_nat offset) lt :=
  stream_dot_loop local_size offset wg_sum with Z_lt_dec 0 offset := {
    | left _ :=
        stream_dot_loop local_size (Z.quot offset 2)
          (NDRange local_size (stream_dot_step offset) wg_sum);
    | right _ := wg_sum }.
Proof.
  assert (Z.quot offset 2 < offset) by (apply Z.quot_lt; lia).
  assert (0 <= Z.quot offset 2) by (apply Z.quot_pos; lia).
  lia.
Qed.

(** The work-group [group_id]: its local memory is indeterminate at first;
    lane 0 stores the group's result. *)
Definition stream_dot_group (local_size : Z) (a b : list T) (group_id : nat)
    (sum : list T) : list T :=
  let wg0 := map (indeterminate 4) (seq 0 (Z.to_nat WGSIZE)) in
  let wg1 :=
    NDRange local_size
      (fun local_i =>
         stream_dot_load a b (group_id * Z.to_nat local_size + local_i) local_i)
      wg0 in
  let wg2 := stream_dot_loop local_size (Mach.to_int (local_size / 2)) wg1 in
  match wg2 !! 0%nat with
  | Some x => <[group_id := x]> sum
  | None => sum
  end.

(** The kernel over [global_size / local_size] work-groups. *)
Definition stream_dot_kernel (global_size local_size : Z) (a b sum : list T)
    : list T :=
  fold_left (fun s g => stream_dot_group local_size a b g s)
            (seq 0 (Z.to_nat (global_size / local_size))) sum.

(** *** Host operations *)

Definition copy : Op unit :=
  e ← get_engine;
  set_d_c (NDRange (array_size e) (fun i c => copy_kernel i (d_a e) c) (d_c e)).

Definition mul : Op unit :=
  e ← get_engine;
  set_d_b (NDRange (array_size e) (fun i b => mul_kernel i b (d_c e)) (d_b e)).

Definition add : Op unit :=
  e ← get_engine;
  set_d_c (NDRange (array_size e) (fun i c => add_kernel i (d_a e) (d_b e) c) (d_c e)).

Definition triad : Op unit :=
  e ← get_engine;
  set_d_a (NDRange (array_size e) (fun i a => triad_kernel i a (d_b e) (d_c e)) (d_a e)).

(** [cl::copy(queue, first, last, buffer)]: the host range overwrites the
    front of the buffer; a range longer than the buffer is refused. *)
Definition copy_to_device (host buffer : list T) : Op (list T) :=
  if (length host <=? length buffer)%nat then
    mret (host ++ drop (length host) buffer)
  else op_throw (cl_Error CL_INVALID_VALUE).

(** [cl::copy(queue, buffer, first, last)]: the host range is filled from
    the front of the buffer. *)
Definition copy_to_host (buffer host : list T) : Op (list T) :=
  if (length host <=? length buffer)%nat then
    mret (take (length host) buffer)
  else op_throw (cl_Error CL_INVALID_VALUE).

(** [dot]: a launch whose global size is not a multiple of the work-group
    size is refused by the runtime ([CL_INVALID_WORK_GROUP_SIZE]); the kernel
    is defined for whole work-groups only. *)
Definition dot : Op T :=
  e ← get_engine;
  (if array_size e mod WGSIZE =? 0 then
     set_d_sum (stream_dot_kernel (array_size e) WGSIZE (d_a e) (d_b e) (d_sum e))
   else op_throw (cl_Error CL_INVALID_WORK_GROUP_SIZE));;
  e ← get_engine;
  s ← copy_to_host (d_sum e) (sums e);
  set_sums s;;
  mret (fold_left (fun sum val => T_add sum val) s T_zero).

Definition write_arrays (a b c : list T) : Op unit :=
  e ← get_engine;
  a' ← copy_to_device a (d_a e);
  set_d_a a';;
  b' ← copy_to_device b (d_b e);
  set_d_b b';;
  c' ← copy_to_device c (d_c e);
  set_d_c c'.

(** [read_arrays]: the three host vectors come back refilled. *)
Definition read_arrays (a b c : list T) : Op (list T * list T * list T) :=
  e ← get_engine;
  a' ← copy_to_host (d_a e) a;
  b' ← copy_to_host (d_b e) b;
  c' ← copy_to_host (d_c e) c;
  mret (a', b', c').

End Engine.

(** ** The destructor

    The [cl::KernelFunctor] objects that the constructor's [new] expressions
    created and that no [delete] has reclaimed, by kernel name. *)

(** [delete p] for the functor of kernel [name]. *)
Fixpoint delete_kernel (name : string) (live : list string) : list string :=
  match live with
  | [] => []
  | n :: live' =>
      if String.eqb n name then live' else n :: delete_kernel name live'
  end.

(** [OCLStream<T>::~OCLStream] (lines 146-153). *)
Definition OCLStream_delete (live : list string) : list string :=
  delete_kernel "triad"
    (delete_kernel "add" (delete_kernel "mul" (delete_kernel "copy" live))).

(** ** The two instantiations: [OCLStream<float>] and [OCLStream<double>]

    IEEE 754 binary32 and binary64 with round-to-nearest-even, on the
    Standard Library's executable specification of floating-point numbers. *)

Module IEEE.

Record double : Type := mk_double { double_val : spec_float }.
Record float : Type := mk_float { float_val : spec_float }.

Definition double_add (x y : double) : double :=
  mk_double (SFadd 53 1024 (double_val x) (double_val y)).
Definition double_mul (x y : double) : double :=
  mk_double (SFmul 53 1024 (double_val x) (double_val y)).
Definition float_add (x y : float) : float :=
  mk_float (SFadd 24 128 (float_val x) (float_val y)).
Definition float_mul (x y : float) : float :=
  mk_float (SFmul 24 128 (float_val x) (float_val y)).

(** The integer [m * 2^e] rounded to each format. *)
Definition double_of (m e : Z) : double := mk_double (binary_normalize 53 1024 m e false).
Definition float_of (m e : Z) : float := mk_float (binary_normalize 24 128 m e false).

(** The literal [0.3]: 0x3FD3333333333333 and 0x3E99999A. *)
Definition double_0_3 : double := mk_double (S754_finite false 5404319552844595 (-54)).
Definition float_0_3 : float := mk_float (S754_finite false 10066330 (-25)).

#[global] Instance Elem_double : Elem double :=
  mkElem double sizeof_double (mk_double (S754_zero false)) double_add double_mul double_0_3.

#[global] Instance Elem_float : Elem float :=
  mkElem float sizeof_float (mk_float (S754_zero false)) float_add float_mul float_0_3.

(** The real value of a finite number, as a rational in lowest terms. *)
Definition SF2Q (x : spec_float) : option Q :=
  match x with
  | S754_zero _ => Some 0%Q
  | S754_finite s m e =>
      let v := (inject_Z (Z.pos m) * Qpower 2 e)%Q in
      Some (Qred (if s then Qopp v else v))
  | _ => None
  end.

End IEEE.

(** Exact integer arithmetic in place of a floating-point type: the element
    type on which the reductions can be compared with a plain sum. *)
Module Exact.

#[global] Instance Elem_Z : Elem Z := mkElem Z 8 0 Z.add Z.mul 0.

End Exact.

(** ** Vocabulary of the statements *)

(** The error kinds of the specification, and the exceptions of the code
    that stand for them. *)
Inductive error_kind : Type :=
| InvalidDeviceIndex
| UnsupportedPrecision
| BuildFailure
| InsufficientMemory.

Definition msg_invalid_index := "Invalid device index".
Definition msg_invalid_name := "Error asking for name for non-existant device".
Definition msg_invalid_driver := "Error asking for driver for non-existant device".
Definition msg_no_double :=
  "Device does not support double precision, please use --float".
Definition msg_max_alloc := "Device cannot allocate a buffer big enough".
Definition msg_total_mem := "Device does not have enough memory for all 3 buffers".

Definition kind_of (e : exn) : option error_kind :=
  match e with
  | runtime_error what =>
      if (String.eqb what msg_invalid_index || String.eqb what msg_invalid_name
          || String.eqb what msg_invalid_driver)%bool then Some InvalidDeviceIndex
      else if String.eqb what msg_no_double then Some UnsupportedPrecision
      else if (String.eqb what msg_max_alloc || String.eqb what msg_total_mem)%bool
           then Some InsufficientMemory
      else None
  | cl_Error err =>
      if err =? CL_BUILD_PROGRAM_FAILURE then Some BuildFailure else None
  | cl_BuildError _ _ => Some BuildFailure
  | undefined_behaviour => None
  end.

(** The build log that an exception hands to the caller who catches it. *)
Definition carried_log (e : exn) : option string :=
  match e with
  | cl_BuildError _ log => Some log
  | _ => None
  end.

(** The world after one [getDeviceList]. *)
Definition enumerated (w : world) : world :=
  mkWorld (platforms w) true (devices w ++ concat (platforms w))
          (trace w ++ [ev_platform_get]).

(** The world once a guarded caller has consulted the cache
    ([if (!cached) getDeviceList();]). *)
Definition populated (w : world) : world :=
  if cached w then w else enumerated w.

(** The number of devices a guarded caller sees. *)
Definition device_count (w : world) : Z := Z.of_nat (length (devices (populated w))).

(** The events a computation added to the trace. *)
Definition emitted (w w' : world) : list event := drop (length (trace w)) (trace w').

(** [r] ends in the [std::runtime_error] with message [what], which stands
    for the error kind [k]. *)
Definition raises {A} (k : error_kind) (what : string) (r : outcome A * world) : Prop :=
  fst r = Throw (runtime_error what) /\ kind_of (runtime_error what) = Some k.

(** The index [i] designates the device [dev] of the populated cache. *)
Definition resolves (w : world) (i : Z) (dev : Device) : Prop :=
  0 <= i /\ device_count w < 2 ^ 63 /\ devices (populated w) !! Z.to_nat i = Some dev.

(** The element type is one of the two the file instantiates. *)
Definition float_or_double {T} {ElemT : Elem T} : Prop :=
  sizeof = sizeof_float \/ sizeof = sizeof_double.

(** The device supports the element type, compiles the kernels and creates
    them. *)
Definition program_ready {T} {ElemT : Elem T} (dev : Device) : Prop :=
  (sizeof = sizeof_double ->
     CL_DEVICE_DOUBLE_FP_CONFIG dev <> 0 /\
     clBuildProgram dev "-DTYPE=double" = CL_SUCCESS) /\
  (sizeof = sizeof_float -> clBuildProgram dev "-DTYPE=float" = CL_SUCCESS) /\
  (forall name, clCreateKernel dev true name = CL_SUCCESS).

(** One buffer of [n] elements exceeds the largest allocation of the device,
    or three of them exceed its global memory. *)
Definition exceeds_capacity {T} {ElemT : Elem T} (dev : Device) (n : Z) : Prop :=
  CL_DEVICE_MAX_MEM_ALLOC_SIZE dev < sizeof * n \/
  CL_DEVICE_GLOBAL_MEM_SIZE dev < 3 * sizeof * n.

(** What the constructor emits, on a ready device, before it validates the
    capacity. *)
Definition events_before_validation {T} {ElemT : Elem T} (dev : Device) : list event :=
  [ev_cout [tok_str "Using OpenCL device "; tok_str (CL_DEVICE_NAME dev); tok_endl];
   ev_cout [tok_str "Driver: "; tok_str (CL_DRIVER_VERSION dev); tok_endl]]
  ++ (if sizeof =? sizeof_double
      then [ev_get_double_fp_config; ev_build "-DTYPE=double"]
      else [ev_build "-DTYPE=float"])
  ++ [ev_create_kernel "copy"; ev_create_kernel "mul"; ev_create_kernel "add";
      ev_create_kernel "triad"; ev_create_kernel "stream_dot"].


(** Fresh device memory that holds NaN everywhere. *)
Definition stale_double : nat -> nat -> IEEE.double :=
  fun _ _ => IEEE.mk_double S754_nan.
Definition stale_float : nat -> nat -> IEEE.float :=
  fun _ _ => IEEE.mk_float S754_nan.

(** Sample devices and worlds: a runtime that grants every request, a buffer
    of zero bytes included ([gpu_conforming] below refuses that one). *)
Definition always_success {A} (_ : A) : Z := CL_SUCCESS.

Definition gpu : Device :=
  mkDevice "GPU" "OpenCL 1.2" (2 ^ 32) (2 ^ 30) 63
           always_success (fun _ => "") (fun _ => always_success)
           (fun _ => always_success).

Definition gpu_single_precision : Device :=
  mkDevice "GPU (single precision)" "OpenCL 1.1" (2 ^ 32) (2 ^ 30) 0
           always_success (fun _ => "") (fun _ => always_success)
           (fun _ => always_success).

Definition gpu_broken_compiler : Device :=
  mkDevice "GPU (broken compiler)" "OpenCL 1.2" (2 ^ 32) (2 ^ 30) 63
           (fun _ => CL_BUILD_PROGRAM_FAILURE)
           (fun _ => "error: use of undeclared identifier")
           (fun _ => always_success) (fun _ => always_success).





Definition fresh_world (ps : list (list Device)) : world := mkWorld ps false [] [].

(** The outcome of a name or driver lookup on a populated cache. *)
Definition lookup_info (info : Device -> string) (what : string)
    (ds : list Device) (i : Z) : outcome string :=
  if Mach.to_size_t i <? Z.of_nat (length ds) then
    match ds !! Z.to_nat (Mach.to_size_t i) with
    | Some d => Ok (info d)
    | None => Throw undefined_behaviour
    end
  else Throw (runtime_error what).

(** The world [w] after the events [t]. *)
Definition log (w : world) (t : list event) : world :=
  mkWorld (platforms w) (cached w) (devices w) (trace w ++ t).

(** The events of the guard [if (!cached) getDeviceList();]. *)
Definition guard_events (w : world) : list event :=
  if cached w then [] else [ev_platform_get].

(** The creation of the five kernels. *)
Definition kernel_events : list event :=
  [ev_create_kernel "copy"; ev_create_kernel "mul"; ev_create_kernel "add";
   ev_create_kernel "triad"; ev_create_kernel "stream_dot"].

(** The two lines the constructor prints about the device. *)
Definition banner (dev : Device) : list event :=
  [ev_cout [tok_str "Using OpenCL device "; tok_str (CL_DEVICE_NAME dev); tok_endl];
   ev_cout [tok_str "Driver: "; tok_str (CL_DRIVER_VERSION dev); tok_endl]].

(** Every event that [m] adds to the trace satisfies [P], and every
    exception that leaves [m] satisfies [Q]. *)
Definition behaves {A} (P : event -> Prop) (Q : exn -> Prop) (m : M A) : Prop :=
  forall w, exists t,
    trace (snd (m w)) = trace w ++ t /\ Forall P t /\
    forall e, fst (m w) = Throw e -> Q e.

(** The build options of the two element types. *)
Definition opt_double : string := "-DTYPE=double".
Definition opt_float : string := "-DTYPE=float".

(** Every value that [m] returns satisfies [R]. *)
Definition yields {A} (R : A -> Prop) (m : M A) : Prop :=
  forall w a w', m w = (Ok a, w') -> R a.

(** *** Engines *)

Section EngineVocabulary.

Context {T : Type} {ElemT : Elem T}.
Variable WGSIZE : Z.
Variable indeterminate : nat -> nat -> T.

(** The three arrays hold [array_size] elements each. *)
Definition arrays_ok (e : @OCLStream T) : Prop :=
  0 <= array_size e /\
  length (d_a e) = Z.to_nat (array_size e) /\
  length (d_b e) = Z.to_nat (array_size e) /\
  length (d_c e) = Z.to_nat (array_size e).

(** The sum buffer and the host vector of partial sums hold one element for
    each work-group. *)
Definition engine_ok (e : @OCLStream T) : Prop :=
  arrays_ok e /\
  length (d_sum e) = Z.to_nat (array_size e / WGSIZE) /\
  length (sums e) = Z.to_nat (array_size e / WGSIZE).

(** One call of an operation of the engine. *)
Inductive engine_step : @OCLStream T -> @OCLStream T -> Prop :=
| step_copy e : engine_step e (snd (copy e))
| step_mul e : engine_step e (snd (mul e))
| step_add e : engine_step e (snd (add e))
| step_triad e : engine_step e (snd (triad e))
| step_dot e : engine_step e (snd (dot WGSIZE indeterminate e))
| step_write e a b c : engine_step e (snd (write_arrays a b c e))
| step_read e a b c : engine_step e (snd (read_arrays a b c e)).

(** The engines a program can hold: what the constructor of
    [OCLStream<float>] or [OCLStream<double>] returned, after any number of
    operations. *)
Inductive constructed : @OCLStream T -> Prop :=
| constructed_new ARRAY_SIZE device_index w e w' :
    float_or_double -> 0 < WGSIZE -> Mach.is_unsigned ARRAY_SIZE ->
    OCLStream_new WGSIZE indeterminate ARRAY_SIZE device_index w = (Ok e, w') ->
    constructed e
| constructed_step e e' :
    constructed e -> engine_step e e' -> constructed e'.

(** A host vector with as many elements as the engine's arrays. *)
Definition fits (e : @OCLStream T) (v : list T) : Prop :=
  length v = Z.to_nat (array_size e).

End EngineVocabulary.

(** *** The reduction of [dot], as the specification words it *)

Section ReductionSpec.

Context {T : Type} {ElemT : Elem T}.

(** The products [a[i] * b[i]]. *)
Definition products (a b : list T) : list T := zip_with T_mul a b.

(** One halving step at [offset]: every lane below [offset] adds to its slot
    the value found [offset] slots further. *)
Definition halve (offset : nat) (wg_sum : list T) : list T :=
  zip_with T_add (take offset wg_sum) (drop offset wg_sum).

(** The tree sum of [2^k] values: [k] halving steps, the result is in
    slot 0. *)
Fixpoint tree_sum (k : nat) (xs : list T) : T :=
  match k with
  | O => match xs with x :: _ => x | [] => T_zero end
  | S k' => tree_sum k' (halve (2 ^ k') xs)
  end.

(** The values of work-group [g] when the groups have [w] lanes. *)
Definition group (w g : nat) (xs : list T) : list T := take w (drop (g * w) xs).

(** The partial sums: one tree sum for each group of [2^k] values. *)
Definition partial_sums (k : nat) (xs : list T) : list T :=
  map (fun g => tree_sum k (group (2 ^ k) g xs)) (seq 0 (length xs / 2 ^ k)).

(** The host sum: one accumulator, from [0.0], in ascending index order. *)
Definition linear_sum (xs : list T) : T := fold_left T_add xs T_zero.

(** The two-level reduction of the products of [a] and [b]. *)
Definition two_level (k : nat) (a b : list T) : T :=
  linear_sum (partial_sums k (products a b)).

(** The reference: the plain sum of the products. *)
Definition reference_sum (a b : list T) : T := linear_sum (products a b).

(** Addition without rounding. *)
Definition exact_addition : Prop :=
  (forall x y z, T_add x (T_add y z) = T_add (T_add x y) z) /\
  (forall x y, T_add x y = T_add y x) /\
  (forall x, T_add T_zero x = x).

End ReductionSpec.

(** *** Floating-point sums and sample engines *)

(** The real value of a finite [double]. *)
Definition real_of_double (x : IEEE.double) : option Q := IEEE.SF2Q (IEEE.double_val x).

(** The sum of the products of two vectors of finite [double]s, without
    rounding, in lowest terms. *)
Fixpoint exact_dot (a b : list IEEE.double) : option Q :=
  match a, b with
  | x :: a', y :: b' =>
      match real_of_double x, real_of_double y, exact_dot a' b' with
      | Some u, Some v, Some s => Some (Qred (u * v + s))
      | _, _, _ => None
      end
  | _, _ => Some 0%Q
  end.

(** [x] is within the relative tolerance [tol] of [ref]. *)
Definition within_relative_tolerance (tol x ref : Q) : Prop :=
  (Qabs (x - ref) <= tol * Qabs ref)%Q.

(** The result of [dot] is finite and within [tol] of the exact sum. *)
Definition dot_within_tolerance (tol : Q) (result : IEEE.double)
    (a b : list IEEE.double) : Prop :=
  exists x ref,
    real_of_double result = Some x /\ exact_dot a b = Some ref /\
    within_relative_tolerance tol x ref.

(** Sixty-four [double]s that cancel: 2^53, -2^53, 1 and zeros. *)
Definition cancelling : list IEEE.double :=
  [IEEE.double_of (2 ^ 53) 0; IEEE.double_of (- 2 ^ 53) 0; IEEE.double_of 1 0]
  ++ repeat (IEEE.double_of 0 0) 61.

Definition ones (n : nat) : list IEEE.double := repeat (IEEE.double_of 1 0) n.
Definition twos (n : nat) : list IEEE.double := repeat (IEEE.double_of 2 0) n.

(** The outcome of [op] on the engine that a construction returned. *)
Definition after_construction {T A} (r : outcome (@OCLStream T) * world)
    (op : @OCLStream T -> outcome A * @OCLStream T) : outcome A :=
  match fst r with
  | Ok e => fst (op e)
  | Throw x => Throw x
  end.

(** Fresh device memory of exact integers. *)
Definition stale_Z : nat -> nat -> Z := fun _ _ => 0.

(** What [OCLStream<double>(4, 0)] returns on [gpu] with [WGSIZE = 64]. *)
Definition small_engine : @OCLStream IEEE.double :=
  mkOCLStream 4 gpu (map (stale_double 0) (seq 0 4)) (map (stale_double 1) (seq 0 4))
    (map (stale_double 2) (seq 0 4)) [] [].

(** What the constructor returns for eight exact integers on [gpu] with
    [WGSIZE = 4]. *)
Definition exact_engine : @OCLStream Z :=
  mkOCLStream 8 gpu (repeat 0 8) (repeat 0 8) (repeat 0 8) (repeat 0 2) (repeat 0 2).

(** *** Further vocabulary *)

(** The cache: the platforms and the two globals. *)
Definition cache_of (w : world) : list (list Device) * bool * list Device :=
  (platforms w, cached w, devices w).

(** [m] leaves the cache as it is. *)
Definition keeps_cache {A} (m : M A) : Prop :=
  forall w, cache_of (snd (m w)) = cache_of w.

(** The lines that [listDevices] prints for the devices [ds], the first of
    them numbered [i]. *)
Fixpoint device_lines (i : Z) (ds : list Device) : list event :=
  match ds with
  | [] => []
  | d :: ds' =>
      ev_cout [tok_int i; tok_str ": "; tok_str (CL_DEVICE_NAME d); tok_endl]
      :: device_lines (i + 1) ds'
  end.

(** The kernel functors whose creation a trace records. *)
Definition kernels_created (t : list event) : list string :=
  flat_map (fun e => match e with ev_create_kernel n => [n] | _ => [] end) t.

(** No kernel functor is created by the event. *)
Definition not_kernel_event (e : event) : Prop :=
  match e with ev_create_kernel _ => False | _ => True end.

(** A device that supports [double] and whose compiler is not available:
    the build fails with CL_COMPILER_NOT_AVAILABLE, and no kernel can be
    created from the program (CL_INVALID_PROGRAM_EXECUTABLE). *)
Definition gpu_no_compiler : Device :=
  mkDevice "GPU (no compiler)" "OpenCL 1.2" (2 ^ 32) (2 ^ 30) 63
           (fun _ => -3) (fun _ => "compiler not available")
           (fun built _ => if built then CL_SUCCESS else -45)
           (fun _ => always_success).

(** ** Running the device cache *)

Ltac munfold := unfold mbind, M_bind, mret, M_ret in *.
Ltac ounfold := unfold mbind, Op_bind, mret, Op_ret, get_engine in *.

Lemma bind_run {A B} (m : M A) (f : A -> M B) (w w' : world) (a : A) :
  m w = (Ok a, w') -> (m ≫= f) w = f a w'.
Proof. intros H. munfold. rewrite H. reflexivity. Qed.

Lemma bind_throw {A B} (m : M A) (f : A -> M B) (w w' : world) (e : exn) :
  m w = (Throw e, w') -> (m ≫= f) w = (Throw e, w').
Proof. intros H. munfold. rewrite H. reflexivity. Qed.

Lemma bind_assoc_run {A B C} (m : M A) (g : A -> M B) (k : B -> M C) (w : world) :
  ((m ≫= g) ≫= k) w = (m ≫= (fun a => g a ≫= k)) w.
Proof. munfold. destruct (m w) as [[a|e] w']; reflexivity. Qed.

Lemma world_eta (w : world) :
  mkWorld (platforms w) (cached w) (devices w) (trace w) = w.
Proof. destruct w; reflexivity. Qed.

Lemma getDeviceList_loop_run (ps : list (list Device)) (w : world) :
  getDeviceList_loop ps w =
  (Ok tt, mkWorld (platforms w) (cached w) (devices w ++ concat ps) (trace w)).
Proof.
  revert w. induction ps as [|p ps IH]; intros w.
  - cbn. rewrite app_nil_r, world_eta. reflexivity.
  - cbn [getDeviceList_loop]. munfold. cbn. rewrite IH. cbn.
    rewrite <- app_assoc. reflexivity.
Qed.

Lemma getDeviceList_run (w : world) : getDeviceList w = (Ok tt, enumerated w).
Proof.
  unfold getDeviceList. munfold. cbn. rewrite getDeviceList_loop_run. reflexivity.
Qed.

Lemma guard_run (w : world) :
  (c ← get_cached; if negb c then getDeviceList else mret tt) w = (Ok tt, populated w).
Proof.
  unfold populated. munfold. cbn. destruct (cached w); cbn.
  - reflexivity.
  - apply getDeviceList_run.
Qed.

Lemma populated_cached (w : world) : cached (populated w) = true.
Proof. unfold populated. destruct (cached w) eqn:E; [exact E | reflexivity]. Qed.

Lemma populated_idem (w : world) : populated (populated w) = populated w.
Proof. unfold populated at 1. rewrite populated_cached. reflexivity. Qed.

Lemma guard_bind {A} (k : M A) (w : world) :
  (c ← get_cached; (if negb c then getDeviceList else mret tt);; k) w
  = k (populated w).
Proof.
  unfold populated. munfold. cbn. destruct (cached w); cbn.
  - reflexivity.
  - rewrite getDeviceList_run. reflexivity.
Qed.

Lemma getDeviceName_run (i : Z) (w : world) :
  getDeviceName i w =
  (lookup_info CL_DEVICE_NAME msg_invalid_name (devices (populated w)) i, populated w).
Proof.
  unfold getDeviceName. rewrite guard_bind.
  unfold lookup_info, vector_at. munfold. cbn.
  destruct (Mach.to_size_t i <? _); [|reflexivity].
  destruct (devices (populated w) !! _); reflexivity.
Qed.

Lemma getDeviceDriver_run (i : Z) (w : world) :
  getDeviceDriver i w =
  (lookup_info CL_DRIVER_VERSION msg_invalid_driver (devices (populated w)) i,
   populated w).
Proof.
  unfold getDeviceDriver. rewrite guard_bind.
  unfold lookup_info, vector_at. munfold. cbn.
  destruct (Mach.to_size_t i <? _); [|reflexivity].
  destruct (devices (populated w) !! _); reflexivity.
Qed.

Lemma to_size_t_small (i : Z) : 0 <= i < Mach.SIZE_MAX1 -> Mach.to_size_t i = i.
Proof. intros H. unfold Mach.to_size_t. apply Z.mod_small. exact H. Qed.

Lemma to_size_t_negative (i : Z) :
  Mach.INT_MIN <= i < 0 -> Mach.to_size_t i = Mach.SIZE_MAX1 + i.
Proof.
  intros H. unfold Mach.to_size_t, Mach.INT_MIN, Mach.SIZE_MAX1 in *.
  symmetry. apply (Z.mod_unique _ _ (-1)); lia.
Qed.

Lemma lookup_info_valid info what (ds : list Device) (i : Z) :
  0 <= i < Z.of_nat (length ds) -> Z.of_nat (length ds) < 2 ^ 63 ->
  exists d, ds !! Z.to_nat i = Some d /\ lookup_info info what ds i = Ok (info d).
Proof.
  intros Hi Hn. unfold lookup_info.
  rewrite to_size_t_small by (unfold Mach.SIZE_MAX1; lia).
  destruct (Z.ltb_spec i (Z.of_nat (length ds))) as [_|]; [|lia].
  destruct (lookup_lt_is_Some_2 ds (Z.to_nat i)) as [d Hd]; [lia|].
  exists d. rewrite Hd. split; reflexivity.
Qed.

Lemma lookup_info_invalid info what (ds : list Device) (i : Z) :
  Mach.is_int i -> ~ (0 <= i < Z.of_nat (length ds)) ->
  Z.of_nat (length ds) < 2 ^ 63 ->
  lookup_info info what ds i = Throw (runtime_error what).
Proof.
  intros [Hlo Hhi] Hi Hn. unfold lookup_info.
  destruct (Z.ltb_spec (Mach.to_size_t i) (Z.of_nat (length ds))) as [Hlt|];
    [|reflexivity].
  exfalso. destruct (Z.lt_ge_cases i 0) as [Hneg|Hpos].
  - rewrite to_size_t_negative in Hlt by lia.
    unfold Mach.SIZE_MAX1, Mach.INT_MIN in *. lia.
  - rewrite to_size_t_small in Hlt
      by (unfold Mach.SIZE_MAX1, Mach.INT_MAX in *; lia).
    lia.
Qed.

(** ** Running the constructor *)

Lemma log_log (w : world) (t1 t2 : list event) : log (log w t1) t2 = log w (t1 ++ t2).
Proof. unfold log. cbn. rewrite <- app_assoc. reflexivity. Qed.

Lemma log_nil (w : world) : log w [] = w.
Proof. unfold log. rewrite app_nil_r. apply world_eta. Qed.

Lemma emit_run (e : event) (w : world) : emit e w = (Ok tt, log w [e]).
Proof. reflexivity. Qed.

Lemma emitted_log (w : world) (t : list event) : emitted w (log w t) = t.
Proof. unfold emitted, log. cbn. apply drop_app_length. Qed.

Lemma trace_populated (w : world) : trace (populated w) = trace w ++ guard_events w.
Proof.
  unfold populated, guard_events. destruct (cached w); cbn.
  - rewrite app_nil_r. reflexivity.
  - reflexivity.
Qed.

Lemma emitted_populated_log (w : world) (t : list event) :
  emitted w (log (populated w) t) = guard_events w ++ t.
Proof.
  unfold emitted, log. cbn. rewrite trace_populated, <- app_assoc.
  apply drop_app_length.
Qed.

Lemma emitted_app (w w' : world) (t : list event) :
  trace w' = trace w ++ t -> emitted w w' = t.
Proof. intros H. unfold emitted. rewrite H. apply drop_app_length. Qed.

Lemma guard_events_platform (w : world) (e : event) :
  e ∈ guard_events w -> e = ev_platform_get.
Proof.
  unfold guard_events. destruct (cached w); intros H.
  - apply elem_of_nil in H. contradiction.
  - apply list_elem_of_singleton in H. exact H.
Qed.

Section ConstructorRuns.

Context {T : Type} {ElemT : Elem T}.
Variable WGSIZE : Z.
Variable indeterminate : nat -> nat -> T.

Lemma errHandler_success (w : world) : errHandler CL_SUCCESS w = (Ok tt, w).
Proof. reflexivity. Qed.

Lemma errHandler_failure (status : Z) (w : world) :
  status <> CL_SUCCESS -> errHandler status w = (Throw (cl_Error status), w).
Proof.
  intros H. unfold errHandler.
  destruct (Z.eqb_spec status CL_SUCCESS); [contradiction | reflexivity].
Qed.

Lemma buildErrHandler_failure (status : Z) (log : string) (w : world) :
  status <> CL_SUCCESS ->
  buildErrHandler status log w = (Throw (cl_BuildError status log), w).
Proof.
  intros H. unfold buildErrHandler.
  destruct (Z.eqb_spec status CL_SUCCESS); [contradiction | reflexivity].
Qed.

Lemma Program_build_ok (dev : Device) (options : string) (w : world) :
  clBuildProgram dev options = CL_SUCCESS ->
  Program_build dev options w = (Ok tt, log w [ev_build options]).
Proof.
  intros H. unfold Program_build. munfold. rewrite emit_run, H. reflexivity.
Qed.

Lemma Program_build_fails (dev : Device) (options : string) (w : world) :
  clBuildProgram dev options <> CL_SUCCESS ->
  Program_build dev options w =
  (Throw (cl_BuildError (clBuildProgram dev options)
            (CL_PROGRAM_BUILD_LOG dev options)),
   log w [ev_build options]).
Proof.
  intros H. unfold Program_build. munfold. rewrite emit_run.
  rewrite buildErrHandler_failure by exact H. reflexivity.
Qed.

Lemma KernelFunctor_ok (dev : Device) (built : bool) (name : string) (w : world) :
  clCreateKernel dev built name = CL_SUCCESS ->
  KernelFunctor dev built name w = (Ok tt, log w [ev_create_kernel name]).
Proof.
  intros H. unfold KernelFunctor. munfold. rewrite emit_run, H. reflexivity.
Qed.

Lemma create_kernels_ok (dev : Device) (built : bool) (w : world) :
  (forall name, clCreateKernel dev built name = CL_SUCCESS) ->
  create_kernels dev built w = (Ok tt, log w kernel_events).
Proof.
  intros H. unfold create_kernels. munfold.
  repeat (rewrite KernelFunctor_ok by apply H).
  rewrite !log_log. reflexivity.
Qed.



Lemma OCLStream_new_invalid (ARRAY_SIZE device_index : Z) (w : world) :
  device_count w <= Mach.to_size_t device_index ->
  OCLStream_new WGSIZE indeterminate ARRAY_SIZE device_index w =
  (Throw (runtime_error msg_invalid_index), populated w).
Proof.
  intros H. unfold OCLStream_new. rewrite guard_bind. munfold. cbn.
  unfold device_count in H.
  destruct (Z.geb_spec (Mach.to_size_t device_index)
              (Z.of_nat (length (devices (populated w))))); [reflexivity | lia].
Qed.

Lemma OCLStream_new_valid (ARRAY_SIZE device_index : Z) (w : world) (dev : Device) :
  Mach.to_size_t device_index < device_count w ->
  devices (populated w) !! Z.to_nat (Mach.to_size_t device_index) = Some dev ->
  OCLStream_new WGSIZE indeterminate ARRAY_SIZE device_index w =
  (built ← build_program dev;
   create_kernels dev built;;
   check_and_allocate WGSIZE indeterminate dev ARRAY_SIZE)
    (log (populated w) (banner dev)).
Proof.
  intros Hlt Hdev. unfold OCLStream_new. rewrite guard_bind.
  erewrite bind_run; [| reflexivity]. cbn beta.
  unfold device_count in Hlt.
  destruct (Z.geb_spec (Mach.to_size_t device_index)
              (Z.of_nat (length (devices (populated w))))); [lia|].
  assert (Hinfo : forall info what,
             lookup_info info what (devices (populated w)) device_index
             = Ok (info dev)).
  { intros info what. unfold lookup_info.
    destruct (Z.ltb_spec (Mach.to_size_t device_index)
                (Z.of_nat (length (devices (populated w))))); [|lia].
    rewrite Hdev. reflexivity. }
  erewrite bind_run; [| unfold vector_at; rewrite Hdev; reflexivity].
  erewrite bind_run;
    [| rewrite getDeviceName_run, populated_idem, Hinfo; reflexivity].
  erewrite bind_run; [| apply emit_run].
  assert (Hpop : forall t, populated (log (populated w) t) = log (populated w) t).
  { intros t. unfold populated at 1. cbn. rewrite populated_cached. reflexivity. }
  erewrite bind_run;
    [| rewrite getDeviceDriver_run, Hpop; cbn [devices log];
       rewrite Hinfo; reflexivity].
  erewrite bind_run; [| apply emit_run].
  rewrite log_log. reflexivity.
Qed.

End ConstructorRuns.

(** ** What a computation may emit and throw *)

Section Behaves.

Variable P : event -> Prop.
Variable Q : exn -> Prop.

Lemma behaves_ret {A} (a : A) : behaves P Q (mret a).
Proof.
  intros w. exists []. cbn. rewrite app_nil_r.
  split; [reflexivity | split; [constructor | discriminate]].
Qed.

Lemma behaves_reader {A} (g : world -> A) : behaves P Q (fun w => (Ok (g w), w)).
Proof.
  intros w. exists []. cbn. rewrite app_nil_r.
  split; [reflexivity | split; [constructor | discriminate]].
Qed.

Lemma behaves_throw {A} (e : exn) : Q e -> behaves P Q (@throw A e).
Proof.
  intros H w. exists []. cbn. rewrite app_nil_r.
  split; [reflexivity | split; [constructor | congruence]].
Qed.

Lemma behaves_emit (e : event) : P e -> behaves P Q (emit e).
Proof.
  intros H w. exists [e]. cbn.
  split; [reflexivity | split; [repeat constructor; exact H | discriminate]].
Qed.

Lemma behaves_bind {A B} (m : M A) (f : A -> M B) :
  behaves P Q m -> (forall a, behaves P Q (f a)) -> behaves P Q (m ≫= f).
Proof.
  intros Hm Hf w. destruct (Hm w) as (t1 & E1 & F1 & X1). munfold.
  destruct (m w) as [[a|e] w1]; cbn in *.
  - destruct (Hf a w1) as (t2 & E2 & F2 & X2). exists (t1 ++ t2).
    rewrite E2, E1, <- app_assoc. split; [reflexivity|].
    split; [apply Forall_app; split; assumption | exact X2].
  - exists t1. split; [exact E1 | split; [exact F1 |]].
    intros e0 [= <-]. exact (X1 _ eq_refl).
Qed.

Lemma behaves_try_catch {A} (m : M A) (h : Z -> M A) :
  behaves P (fun e => match e with
                      | cl_Error _ | cl_BuildError _ _ => True
                      | _ => Q e
                      end) m ->
  (forall err, behaves P Q (h err)) ->
  behaves P Q (try_catch_cl m h).
Proof.
  intros Hm Hh w. destruct (Hm w) as (t1 & E1 & F1 & X1). unfold try_catch_cl.
  destruct (m w) as [[a|[what|err|err blog|]] w1]; cbn in *.
  - exists t1. split; [assumption | split; [assumption | discriminate]].
  - exists t1. split; [assumption | split; [assumption|]].
    intros e [= <-]. exact (X1 _ eq_refl).
  - destruct (Hh err w1) as (t2 & E2 & F2 & X2). exists (t1 ++ t2).
    rewrite E2, E1, <- app_assoc. split; [reflexivity|].
    split; [apply Forall_app; split; assumption | exact X2].
  - destruct (Hh err w1) as (t2 & E2 & F2 & X2). exists (t1 ++ t2).
    rewrite E2, E1, <- app_assoc. split; [reflexivity|].
    split; [apply Forall_app; split; assumption | exact X2].
  - exists t1. split; [assumption | split; [assumption|]].
    intros e [= <-]. exact (X1 _ eq_refl).
Qed.

Lemma behaves_errHandler (status : Z) :
  Q (cl_Error status) -> behaves P Q (errHandler status).
Proof.
  intros H. unfold errHandler. destruct (status =? CL_SUCCESS);
    [apply behaves_ret | apply behaves_throw, H].
Qed.

Lemma behaves_buildErrHandler (status : Z) (blog : string) :
  Q (cl_BuildError status blog) -> behaves P Q (buildErrHandler status blog).
Proof.
  intros H. unfold buildErrHandler. destruct (status =? CL_SUCCESS);
    [apply behaves_ret | apply behaves_throw, H].
Qed.

Lemma behaves_populated (w : world) :
  P ev_platform_get ->
  exists t, trace (populated w) = trace w ++ t /\ Forall P t.
Proof.
  intros H. exists (guard_events w). split; [apply trace_populated|].
  unfold guard_events. destruct (cached w); repeat constructor; exact H.
Qed.

End Behaves.

Lemma behaves_weaken {A} (P P' : event -> Prop) (Q Q' : exn -> Prop) (m : M A) :
  (forall e, P e -> P' e) -> (forall e, Q e -> Q' e) ->
  behaves P Q m -> behaves P' Q' m.
Proof.
  intros HP HQ H w. destruct (H w) as (t & E & F & X). exists t.
  split; [exact E | split].
  - eapply Forall_impl; eassumption.
  - intros e He. apply HQ, X, He.
Qed.

Section ConstructorBehaves.

Context {T : Type} {ElemT : Elem T}.
Variable WGSIZE : Z.
Variable indeterminate : nat -> nat -> T.

Variable P : event -> Prop.
Variable Q : exn -> Prop.

Hypothesis P_platform : P ev_platform_get.
Hypothesis P_cout : forall ts, P (ev_cout ts).
Hypothesis P_build : forall o, P (ev_build o).
Hypothesis P_kernel : forall n, P (ev_create_kernel n).
Hypothesis P_buffer : forall f b, P (ev_create_buffer f b).
Hypothesis P_double : sizeof = sizeof_double -> P ev_get_double_fp_config.
Hypothesis Q_cl : forall status, Q (cl_Error status).
Hypothesis Q_build : forall status blog, Q (cl_BuildError status blog).
Hypothesis Q_all : forall e, Q e.

Lemma behaves_guard :
  behaves P Q (c ← get_cached; if negb c then getDeviceList else mret tt).
Proof.
  intros w. rewrite guard_run. cbn.
  destruct (behaves_populated P w P_platform) as (t & E & F).
  exists t. split; [exact E | split; [exact F | discriminate]].
Qed.

Lemma behaves_getDeviceName (i : Z) : behaves P Q (getDeviceName i).
Proof.
  intros w. rewrite getDeviceName_run. cbn.
  destruct (behaves_populated P w P_platform) as (t & E & F).
  exists t. split; [exact E | split; [exact F | intros; apply Q_all]].
Qed.

Lemma behaves_getDeviceDriver (i : Z) : behaves P Q (getDeviceDriver i).
Proof.
  intros w. rewrite getDeviceDriver_run. cbn.
  destruct (behaves_populated P w P_platform) as (t & E & F).
  exists t. split; [exact E | split; [exact F | intros; apply Q_all]].
Qed.

Lemma behaves_Program_build (dev : Device) (o : string) :
  behaves P Q (Program_build dev o).
Proof.
  unfold Program_build. apply behaves_bind; [apply behaves_emit, P_build|].
  intros _. apply behaves_buildErrHandler, Q_build.
Qed.

Lemma behaves_KernelFunctor (dev : Device) (built : bool) (name : string) :
  behaves P Q (KernelFunctor dev built name).
Proof.
  unfold KernelFunctor. apply behaves_bind; [apply behaves_emit, P_kernel|].
  intros _. apply behaves_errHandler, Q_cl.
Qed.

Lemma behaves_create_kernels (dev : Device) (built : bool) :
  behaves P Q (create_kernels dev built).
Proof.
  unfold create_kernels.
  repeat (apply behaves_bind; [apply behaves_KernelFunctor | intros _]).
  apply behaves_KernelFunctor.
Qed.

Lemma behaves_cl_Buffer (dev : Device) (which : nat) (flags bytes : Z) :
  behaves P Q (cl_Buffer indeterminate dev which flags bytes).
Proof.
  unfold cl_Buffer. apply behaves_bind; [apply behaves_emit, P_buffer|].
  intros _. apply behaves_bind; [apply behaves_errHandler, Q_cl|].
  intros _. apply behaves_ret.
Qed.

(** A buffer creation followed by [k]: the request comes first. *)
Lemma cl_Buffer_then {B} (dev : Device) (which : nat) (flags bytes : Z)
    (k : list T -> M B) (w : world) :
  (forall a, behaves P Q (k a)) ->
  exists t,
    trace (snd ((cl_Buffer indeterminate dev which flags bytes ≫= k) w)) =
    trace w ++ ev_create_buffer flags bytes :: t /\
    forall e, fst ((cl_Buffer indeterminate dev which flags bytes ≫= k) w) = Throw e ->
              Q e.
Proof.
  intros Hk. unfold cl_Buffer. rewrite bind_assoc_run.
  erewrite bind_run; [| apply emit_run].
  assert (Hb : behaves P Q
            ((errHandler (clCreateBuffer dev flags bytes);;
              mret (map (indeterminate which)
                      (seq 0 (Z.to_nat (bytes / sizeof))))) ≫= k)).
  { apply behaves_bind; [|exact Hk].
    apply behaves_bind; [apply behaves_errHandler, Q_cl|].
    intros _. apply behaves_ret. }
  destruct (Hb (log w [ev_create_buffer flags bytes])) as (t & Et & _ & Xt).
  exists t. cbn [log trace] in Et. rewrite <- app_assoc in Et.
  split; [exact Et | exact Xt].
Qed.

Lemma behaves_build_program (dev : Device) : behaves P Q (build_program dev).
Proof.
  unfold build_program.
  destruct (Z.eqb_spec sizeof sizeof_double) as [E8|_].
  - apply behaves_bind; [apply behaves_emit, P_double, E8 | intros _].
    destruct (CL_DEVICE_DOUBLE_FP_CONFIG dev =? 0);
      [apply behaves_throw, Q_all|].
    apply behaves_try_catch.
    + apply behaves_bind; [|intros _; apply behaves_ret].
      eapply behaves_weaken; [| | apply behaves_Program_build].
      * auto.
      * intros [| | |]; auto.
    + intros err. destruct (err =? CL_BUILD_PROGRAM_FAILURE);
        [|apply behaves_ret].
      apply behaves_bind; [apply behaves_emit, P_cout | intros _].
      apply behaves_throw, Q_all.
  - destruct (sizeof =? sizeof_float); [|apply behaves_ret].
    apply behaves_bind; [apply behaves_Program_build | intros _].
    apply behaves_ret.
Qed.

Lemma behaves_check_and_allocate (dev : Device) (ARRAY_SIZE : Z) :
  behaves P Q (check_and_allocate WGSIZE indeterminate dev ARRAY_SIZE).
Proof.
  unfold check_and_allocate. cbv zeta.
  destruct (_ <? _); [apply behaves_throw, Q_all|].
  destruct (_ <? _); [apply behaves_throw, Q_all|].
  repeat (apply behaves_bind; [apply behaves_cl_Buffer | intros ?]).
  apply behaves_ret.
Qed.

Lemma behaves_OCLStream_new (ARRAY_SIZE device_index : Z) :
  behaves P Q (OCLStream_new WGSIZE indeterminate ARRAY_SIZE device_index).
Proof.
  unfold OCLStream_new.
  apply behaves_bind; [apply (behaves_reader P Q cached) | intros c].
  apply behaves_bind.
  { destruct c; cbn; [apply behaves_ret|].
    intros w. rewrite getDeviceList_run. exists [ev_platform_get]. cbn.
    split; [reflexivity | split; [repeat constructor; exact P_platform|]].
    discriminate. }
  intros _. apply behaves_bind; [apply (behaves_reader P Q devices) | intros ds].
  destruct (_ >=? _); [apply behaves_throw, Q_all|].
  apply behaves_bind.
  { unfold vector_at. destruct (ds !! _);
      [apply behaves_ret | apply behaves_throw, Q_all]. }
  intros dev. apply behaves_bind; [apply behaves_getDeviceName | intros name].
  apply behaves_bind; [apply behaves_emit, P_cout | intros _].
  apply behaves_bind; [apply behaves_getDeviceDriver | intros driver].
  apply behaves_bind; [apply behaves_emit, P_cout | intros _].
  apply behaves_bind; [apply behaves_build_program | intros built].
  apply behaves_bind; [apply behaves_create_kernels | intros _].
  apply behaves_check_and_allocate.
Qed.

End ConstructorBehaves.

Section BuildRuns.

Context {T : Type} {ElemT : Elem T}.

Lemma build_program_no_double (dev : Device) (w : world) :
  sizeof = sizeof_double -> CL_DEVICE_DOUBLE_FP_CONFIG dev = 0 ->
  build_program dev w =
  (Throw (runtime_error msg_no_double), log w [ev_get_double_fp_config]).
Proof.
  intros E8 E0. unfold build_program. rewrite E8, Z.eqb_refl.
  erewrite bind_run; [| apply emit_run]. rewrite E0. reflexivity.
Qed.

Lemma build_program_double_ok (dev : Device) (w : world) :
  sizeof = sizeof_double -> CL_DEVICE_DOUBLE_FP_CONFIG dev <> 0 ->
  clBuildProgram dev opt_double = CL_SUCCESS ->
  build_program dev w =
  (Ok true, log w [ev_get_double_fp_config; ev_build opt_double]).
Proof.
  intros E8 E0 Eb. unfold build_program. rewrite E8, Z.eqb_refl.
  erewrite bind_run; [| apply emit_run].
  destruct (Z.eqb_spec (CL_DEVICE_DOUBLE_FP_CONFIG dev) 0); [contradiction|].
  unfold try_catch_cl.
  erewrite bind_run; [| apply Program_build_ok, Eb].
  rewrite log_log. reflexivity.
Qed.

Lemma build_program_double_fails (dev : Device) (w : world) :
  sizeof = sizeof_double -> CL_DEVICE_DOUBLE_FP_CONFIG dev <> 0 ->
  clBuildProgram dev opt_double = CL_BUILD_PROGRAM_FAILURE ->
  build_program dev w =
  (Throw (cl_Error CL_BUILD_PROGRAM_FAILURE),
   log w [ev_get_double_fp_config; ev_build opt_double;
          ev_cout [tok_str (CL_PROGRAM_BUILD_LOG dev opt_double); tok_endl]]).
Proof.
  intros E8 E0 Eb. unfold build_program. rewrite E8, Z.eqb_refl.
  erewrite bind_run; [| apply emit_run].
  destruct (Z.eqb_spec (CL_DEVICE_DOUBLE_FP_CONFIG dev) 0); [contradiction|].
  unfold try_catch_cl.
  erewrite bind_throw;
    [| apply Program_build_fails; fold opt_double; rewrite Eb; discriminate].
  fold opt_double. cbn beta. rewrite Eb.
  cbn [Z.eqb CL_BUILD_PROGRAM_FAILURE Pos.eqb].
  erewrite bind_run; [| apply emit_run].
  rewrite !log_log. reflexivity.
Qed.

Lemma build_program_double_swallows (dev : Device) (w : world) :
  sizeof = sizeof_double -> CL_DEVICE_DOUBLE_FP_CONFIG dev <> 0 ->
  clBuildProgram dev opt_double <> CL_SUCCESS ->
  clBuildProgram dev opt_double <> CL_BUILD_PROGRAM_FAILURE ->
  build_program dev w =
  (Ok false, log w [ev_get_double_fp_config; ev_build opt_double]).
Proof.
  intros E8 E0 Eb Ef. unfold build_program. rewrite E8, Z.eqb_refl.
  erewrite bind_run; [| apply emit_run].
  destruct (Z.eqb_spec (CL_DEVICE_DOUBLE_FP_CONFIG dev) 0); [contradiction|].
  unfold try_catch_cl.
  erewrite bind_throw; [| apply Program_build_fails, Eb].
  fold opt_double. cbn beta iota.
  destruct (Z.eqb_spec (clBuildProgram dev opt_double) CL_BUILD_PROGRAM_FAILURE);
    [contradiction|].
  rewrite log_log. reflexivity.
Qed.

Lemma build_program_float_ok (dev : Device) (w : world) :
  sizeof = sizeof_float -> clBuildProgram dev opt_float = CL_SUCCESS ->
  build_program dev w = (Ok true, log w [ev_build opt_float]).
Proof.
  intros E4 Eb. unfold build_program. rewrite E4. cbn [Z.eqb sizeof_float sizeof_double Pos.eqb].
  erewrite bind_run; [| apply Program_build_ok, Eb]. reflexivity.
Qed.

Lemma build_program_float_fails (dev : Device) (w : world) :
  sizeof = sizeof_float -> clBuildProgram dev opt_float <> CL_SUCCESS ->
  build_program dev w =
  (Throw (cl_BuildError (clBuildProgram dev opt_float)
            (CL_PROGRAM_BUILD_LOG dev opt_float)),
   log w [ev_build opt_float]).
Proof.
  intros E4 Eb. unfold build_program. rewrite E4. cbn [Z.eqb sizeof_float sizeof_double Pos.eqb].
  erewrite bind_throw; [| apply Program_build_fails, Eb]. reflexivity.
Qed.

End BuildRuns.

(** ** Device indices *)

Lemma resolves_in_range (w : world) (i : Z) (dev : Device) :
  resolves w i dev ->
  Mach.to_size_t i = i /\ 0 <= i < device_count w.
Proof.
  intros (H0 & Hn & Hd). apply lookup_lt_Some in Hd. unfold device_count in *.
  split; [apply to_size_t_small; unfold Mach.SIZE_MAX1|]; lia.
Qed.

Lemma kind_invalid_index : kind_of (runtime_error msg_invalid_index) = Some InvalidDeviceIndex.
Proof. reflexivity. Qed.

Section IndexTheorems.

Context {T : Type} {ElemT : Elem T}.
Variable WGSIZE : Z.
Variable indeterminate : nat -> nat -> T.

(** C6. For a device index outside [0, count), the constructor and the
    name and driver lookups fail with InvalidDeviceIndex, whatever the
    cache holds (an empty cache included); inside [0, count) both lookups
    return the strings of the designated device. *)
Theorem invalid_device_index_rejected (ARRAY_SIZE device_index : Z) (w : world) :
  Mach.is_int device_index ->
  device_count w < 2 ^ 63 ->
  (~ (0 <= device_index < device_count w) ->
     raises InvalidDeviceIndex msg_invalid_index
       (OCLStream_new WGSIZE indeterminate ARRAY_SIZE device_index w) /\
     raises InvalidDeviceIndex msg_invalid_name (getDeviceName device_index w) /\
     raises InvalidDeviceIndex msg_invalid_driver (getDeviceDriver device_index w))
  /\
  (0 <= device_index < device_count w ->
     exists dev,
       devices (populated w) !! Z.to_nat device_index = Some dev /\
       fst (getDeviceName device_index w) = Ok (CL_DEVICE_NAME dev) /\
       fst (getDeviceDriver device_index w) = Ok (CL_DRIVER_VERSION dev)).
Proof.
  intros Hint Hcount. unfold device_count in *. split.
  - intros Hout. repeat split.
    + rewrite OCLStream_new_invalid; [reflexivity|].
      destruct Hint as [Hlo Hhi]. unfold device_count.
      destruct (Z.lt_ge_cases device_index 0) as [Hneg|Hpos].
      * rewrite to_size_t_negative by lia.
        unfold Mach.SIZE_MAX1, Mach.INT_MIN in *. lia.
      * rewrite to_size_t_small
          by (unfold Mach.SIZE_MAX1, Mach.INT_MAX in *; lia).
        lia.
    + rewrite getDeviceName_run. cbn [fst].
      apply lookup_info_invalid; assumption.
    + rewrite getDeviceDriver_run. cbn [fst].
      apply lookup_info_invalid; assumption.
  - intros Hin.
    destruct (lookup_info_valid CL_DEVICE_NAME msg_invalid_name _ _ Hin Hcount)
      as (dev & Hdev & Hname).
    destruct (lookup_info_valid CL_DRIVER_VERSION msg_invalid_driver _ _ Hin Hcount)
      as (dev' & Hdev' & Hdriver).
    exists dev. split; [exact Hdev|].
    rewrite getDeviceName_run, getDeviceDriver_run. cbn [fst].
    split; [exact Hname|]. congruence.
Qed.

End IndexTheorems.

(** ** Sizes in bytes *)

Section Sizes.

Context {T : Type} {ElemT : Elem T}.

Lemma size_of_buffer (n : Z) :
  float_or_double -> Mach.is_unsigned n -> Mach.size_t_mul sizeof n = sizeof * n.
Proof.
  intros Hs [Hlo Hhi]. unfold Mach.size_t_mul, Mach.SIZE_MAX1, Mach.UINT_MAX1 in *.
  apply Z.mod_small.
  destruct Hs as [-> | ->]; unfold sizeof_float, sizeof_double; lia.
Qed.

Lemma size_of_three_buffers (n : Z) :
  float_or_double -> Mach.is_unsigned n ->
  Mach.size_t_mul (Mach.size_t_mul 3 sizeof) n = 3 * sizeof * n.
Proof.
  intros Hs [Hlo Hhi]. unfold Mach.size_t_mul, Mach.SIZE_MAX1, Mach.UINT_MAX1 in *.
  destruct Hs as [-> | ->]; unfold sizeof_float, sizeof_double;
    rewrite (Z.mod_small (3 * _)) by lia; apply Z.mod_small; lia.
Qed.

Lemma groups_unsigned (WGSIZE n : Z) :
  0 < WGSIZE -> Mach.is_unsigned n -> Mach.is_unsigned (n / WGSIZE).
Proof.
  intros HW [Hlo Hhi]. split.
  - apply Z.div_pos; lia.
  - apply Z.le_lt_trans with n; [|exact Hhi].
    apply Z.div_le_upper_bound; nia.
Qed.

Lemma elements_of_buffer (n : Z) :
  float_or_double -> 0 <= n -> Z.to_nat (sizeof * n / sizeof) = Z.to_nat n.
Proof.
  intros Hs Hn. f_equal. rewrite Z.mul_comm. apply Z.div_mul.
  destruct Hs as [-> | ->]; discriminate.
Qed.

End Sizes.

(** ** Construction *)

Section ConstructionTheorems.

Context {T : Type} {ElemT : Elem T}.
Variable WGSIZE : Z.
Variable indeterminate : nat -> nat -> T.

Abbreviation new := (OCLStream_new WGSIZE indeterminate).

Lemma OCLStream_new_resolved (ARRAY_SIZE device_index : Z) (w : world) (dev : Device) :
  resolves w device_index dev ->
  new ARRAY_SIZE device_index w =
  (built ← build_program dev;
   create_kernels dev built;;
   check_and_allocate WGSIZE indeterminate dev ARRAY_SIZE)
    (log (populated w) (banner dev)).
Proof.
  intros Hr. destruct (resolves_in_range _ _ _ Hr) as [Eq Hin].
  destruct Hr as (_ & _ & Hdev).
  apply OCLStream_new_valid; rewrite Eq; [lia | exact Hdev].
Qed.

(** On a ready device the constructor reaches the capacity checks. *)
Lemma OCLStream_new_ready (ARRAY_SIZE device_index : Z) (w : world) (dev : Device) :
  float_or_double -> resolves w device_index dev -> program_ready dev ->
  new ARRAY_SIZE device_index w =
  check_and_allocate WGSIZE indeterminate dev ARRAY_SIZE
    (log (populated w) (events_before_validation dev)).
Proof.
  intros Hs Hr (Hd & Hf & Hk). rewrite (OCLStream_new_resolved _ _ _ _ Hr).
  unfold events_before_validation. destruct Hs as [E4 | E8].
  - erewrite bind_run; [| apply build_program_float_ok; [exact E4 | exact (Hf E4)]].
    erewrite bind_run; [| apply create_kernels_ok, Hk].
    rewrite !log_log, E4. reflexivity.
  - destruct (Hd E8) as [Hcfg Hb].
    erewrite bind_run; [| apply build_program_double_ok; assumption].
    erewrite bind_run; [| apply create_kernels_ok, Hk].
    rewrite !log_log, E8. reflexivity.
Qed.

Lemma check_and_allocate_max_alloc (dev : Device) (n : Z) (w : world) :
  float_or_double -> Mach.is_unsigned n ->
  CL_DEVICE_MAX_MEM_ALLOC_SIZE dev < sizeof * n ->
  check_and_allocate WGSIZE indeterminate dev n w =
  (Throw (runtime_error msg_max_alloc), w).
Proof.
  intros Hs Hn H. unfold check_and_allocate. cbv zeta.
  rewrite size_of_buffer by assumption.
  destruct (Z.ltb_spec (CL_DEVICE_MAX_MEM_ALLOC_SIZE dev) (sizeof * n)); [|lia].
  reflexivity.
Qed.

Lemma check_and_allocate_total_mem (dev : Device) (n : Z) (w : world) :
  float_or_double -> Mach.is_unsigned n ->
  sizeof * n <= CL_DEVICE_MAX_MEM_ALLOC_SIZE dev ->
  CL_DEVICE_GLOBAL_MEM_SIZE dev < 3 * sizeof * n ->
  check_and_allocate WGSIZE indeterminate dev n w =
  (Throw (runtime_error msg_total_mem), w).
Proof.
  intros Hs Hn H1 H3. unfold check_and_allocate. cbv zeta.
  rewrite size_of_buffer, size_of_three_buffers by assumption.
  destruct (Z.ltb_spec (CL_DEVICE_MAX_MEM_ALLOC_SIZE dev) (sizeof * n)); [lia|].
  destruct (Z.ltb_spec (CL_DEVICE_GLOBAL_MEM_SIZE dev) (3 * sizeof * n)); [|lia].
  reflexivity.
Qed.

(** Past the checks, the first thing the constructor does is to request
    the buffer [d_a]; whatever fails from there on is a [cl::Error]. *)
Lemma check_and_allocate_passes (dev : Device) (n : Z) (w : world) :
  float_or_double -> Mach.is_unsigned n -> ~ exceeds_capacity dev n ->
  exists t,
    trace (snd (check_and_allocate WGSIZE indeterminate dev n w)) =
    trace w ++ ev_create_buffer CL_MEM_READ_WRITE (sizeof * n) :: t /\
    forall e, fst (check_and_allocate WGSIZE indeterminate dev n w) = Throw e ->
              exists status, e = cl_Error status.
Proof.
  intros Hs Hn Hfit. unfold exceeds_capacity in Hfit.
  unfold check_and_allocate. cbv zeta.
  rewrite size_of_buffer, size_of_three_buffers by assumption.
  destruct (Z.ltb_spec (CL_DEVICE_MAX_MEM_ALLOC_SIZE dev) (sizeof * n)); [lia|].
  destruct (Z.ltb_spec (CL_DEVICE_GLOBAL_MEM_SIZE dev) (3 * sizeof * n)); [lia|].
  apply (cl_Buffer_then indeterminate (fun _ => True)
           (fun e => exists status, e = cl_Error status)).
  - intros status; exists status; reflexivity.
  - intros a.
    repeat (apply behaves_bind;
            [apply behaves_cl_Buffer;
             [intros; exact I | intros status; exists status; reflexivity]
            | intros ?]).
    apply behaves_ret.
Qed.

Lemma events_before_validation_spec (dev : Device) (e : event) :
  e ∈ events_before_validation dev ->
  (exists ts, e = ev_cout ts) \/ e = ev_get_double_fp_config \/
  (exists o, e = ev_build o) \/ (exists name, e = ev_create_kernel name).
Proof.
  unfold events_before_validation. destruct (sizeof =? sizeof_double); cbn;
    rewrite ?elem_of_cons, elem_of_nil; intros H;
    repeat (destruct H as [-> | H]; [eauto 6|]); contradiction.
Qed.

(** C5. On a device that is ready for the element type, construction fails
    with InsufficientMemory exactly when one [array_size]-element buffer
    exceeds the device's largest allocation or three of them exceed its
    global memory: the sum buffer counts in neither test. When it so fails
    no buffer has been requested; otherwise validation is passed and the
    next thing the constructor does is to request its first buffer. *)
Theorem capacity_validation (ARRAY_SIZE device_index : Z) (w : world) (dev : Device) :
  float_or_double -> Mach.is_unsigned ARRAY_SIZE ->
  resolves w device_index dev -> program_ready dev ->
  let r := new ARRAY_SIZE device_index w in
  ((exists what, raises InsufficientMemory what r) <->
     exceeds_capacity dev ARRAY_SIZE) /\
  (exceeds_capacity dev ARRAY_SIZE ->
     forall flags bytes, ev_create_buffer flags bytes ∉ emitted w (snd r)) /\
  (~ exceeds_capacity dev ARRAY_SIZE ->
     exists t, emitted w (snd r) =
               guard_events w ++ events_before_validation dev ++
               ev_create_buffer CL_MEM_READ_WRITE (sizeof * ARRAY_SIZE) :: t).
Proof.
  intros Hs Hn Hr Hready r. subst r.
  rewrite (OCLStream_new_ready _ _ _ _ Hs Hr Hready).
  set (w0 := log (populated w) (events_before_validation dev)).
  assert (Hno : forall flags bytes, ev_create_buffer flags bytes ∉ emitted w w0).
  { intros flags bytes. unfold w0. rewrite emitted_populated_log.
    intros Hin. apply elem_of_app in Hin as [Hin | Hin].
    - apply guard_events_platform in Hin. discriminate.
    - apply events_before_validation_spec in Hin
        as [[? ?] | [? | [[? ?] | [? ?]]]]; discriminate. }
  destruct (Z_lt_dec (CL_DEVICE_MAX_MEM_ALLOC_SIZE dev) (sizeof * ARRAY_SIZE))
    as [Hmax | Hmax].
  { rewrite check_and_allocate_max_alloc by assumption. cbn [fst snd].
    assert (Hex : exceeds_capacity dev ARRAY_SIZE) by (left; exact Hmax).
    split; [|split].
    - split; [intros _; exact Hex|]. intros _. exists msg_max_alloc.
      split; reflexivity.
    - intros _. exact Hno.
    - intros Hfit. contradiction. }
  destruct (Z_lt_dec (CL_DEVICE_GLOBAL_MEM_SIZE dev) (3 * sizeof * ARRAY_SIZE))
    as [Htot | Htot].
  { rewrite check_and_allocate_total_mem by (assumption || lia). cbn [fst snd].
    assert (Hex : exceeds_capacity dev ARRAY_SIZE) by (right; exact Htot).
    split; [|split].
    - split; [intros _; exact Hex|]. intros _. exists msg_total_mem.
      split; reflexivity.
    - intros _. exact Hno.
    - intros Hfit. contradiction. }
  assert (Hfit : ~ exceeds_capacity dev ARRAY_SIZE)
    by (unfold exceeds_capacity; lia).
  destruct (check_and_allocate_passes dev ARRAY_SIZE w0 Hs Hn Hfit)
    as (t & Et & Xt).
  split; [|split].
  - split; [|intros Hex; contradiction].
    intros (what & Hthrow & _). destruct (Xt _ Hthrow) as [status Hstatus].
    discriminate.
  - intros Hex. contradiction.
  - intros _. exists t. apply emitted_app. rewrite Et. unfold w0. cbn [log trace].
    rewrite trace_populated, <- !app_assoc. reflexivity.
Qed.


(** With the 64-bit type the first thing [build_program] does is to query
    the double-precision capability. *)
Lemma build_program_queries_first {B} (dev : Device) (k : bool -> M B) (w : world) :
  sizeof = sizeof_double ->
  (forall built, behaves (fun _ => True) (fun _ => True) (k built)) ->
  exists t, trace (snd ((build_program dev ≫= k) w)) =
            trace w ++ ev_get_double_fp_config :: t.
Proof.
  intros E8 Hk. unfold build_program. rewrite E8, Z.eqb_refl.
  rewrite bind_assoc_run. erewrite bind_run; [| apply emit_run].
  set (w1 := log w [ev_get_double_fp_config]).
  match goal with
  | |- exists t, trace (snd (?m w1)) = _ =>
      assert (Hb : behaves (fun _ => True) (fun _ => True) m)
  end.
  { apply behaves_bind; [|exact Hk].
    destruct (_ =? 0); [apply behaves_throw; exact I|].
    apply behaves_try_catch.
    - apply behaves_bind; [|intros _; apply behaves_ret].
      apply behaves_Program_build; intros; exact I.
    - intros err. destruct (err =? _); [|apply behaves_ret].
      apply behaves_bind; [apply behaves_emit; exact I | intros _].
      apply behaves_throw; exact I. }
  destruct (Hb w1) as (t & Et & _). exists t. rewrite Et. unfold w1.
  cbn [log trace]. rewrite <- app_assoc. reflexivity.
Qed.

(** C4. With the 64-bit element type the constructor queries the device's
    double-precision capability before it attempts any build, and on a
    device without it fails with UnsupportedPrecision (the message
    suggests [--float]) with no build attempted; with the 32-bit type the
    capability is never queried. *)
Theorem precision_checked_before_build (ARRAY_SIZE device_index : Z) (w : world) :
  let r := new ARRAY_SIZE device_index w in
  (sizeof = sizeof_float -> ev_get_double_fp_config ∉ emitted w (snd r)) /\
  (forall dev,
     sizeof = sizeof_double -> resolves w device_index dev ->
     (exists t, emitted w (snd r) =
                guard_events w ++ banner dev ++ ev_get_double_fp_config :: t) /\
     (CL_DEVICE_DOUBLE_FP_CONFIG dev = 0 ->
        raises UnsupportedPrecision msg_no_double r /\
        forall options, ev_build options ∉ emitted w (snd r))).
Proof.
  intros r. subst r. split.
  - intros E4.
    assert (Hb : behaves (fun e => e <> ev_get_double_fp_config) (fun _ => True)
                   (new ARRAY_SIZE device_index)).
    { apply behaves_OCLStream_new; try (intros; discriminate); try (intros; exact I).
      intros E8. rewrite E4 in E8. discriminate. }
    destruct (Hb w) as (t & Et & Ft & _).
    rewrite (emitted_app _ _ _ Et). rewrite Forall_forall in Ft.
    intros Hin. exact (Ft _ Hin eq_refl).
  - intros dev E8 Hr. rewrite (OCLStream_new_resolved _ _ _ _ Hr). split.
    + destruct (build_program_queries_first dev
                  (fun built => create_kernels dev built;;
                                check_and_allocate WGSIZE indeterminate dev ARRAY_SIZE)
                  (log (populated w) (banner dev)) E8) as (t & Et).
      { intros built. apply behaves_bind.
        - apply behaves_create_kernels; intros; exact I.
        - intros _. apply behaves_check_and_allocate; intros; exact I. }
      exists t. apply emitted_app. rewrite Et. cbn [log trace].
      rewrite trace_populated, <- !app_assoc. reflexivity.
    + intros E0.
      erewrite bind_throw; [| apply build_program_no_double; assumption].
      cbn [fst snd]. split; [split; reflexivity|].
      intros options. rewrite log_log, emitted_populated_log.
      unfold banner. cbn [app].
      rewrite elem_of_app, !elem_of_cons, elem_of_nil.
      intros [Hin | [Hin | [Hin | [Hin | []]]]]; try discriminate.
      apply guard_events_platform in Hin. discriminate.
Qed.

(** With the 32-bit type a failed build leaves the constructor as the
    [cl::BuildError] of [program.build], the build log in it; the log is not
    printed. *)
Lemma float_build_failure (ARRAY_SIZE device_index : Z) (w : world) (dev : Device) :
  sizeof = sizeof_float -> resolves w device_index dev ->
  clBuildProgram dev opt_float <> CL_SUCCESS ->
  new ARRAY_SIZE device_index w =
  (Throw (cl_BuildError (clBuildProgram dev opt_float)
            (CL_PROGRAM_BUILD_LOG dev opt_float)),
   log (populated w) (banner dev ++ [ev_build opt_float])).
Proof.
  intros E4 Hr Hb. rewrite (OCLStream_new_resolved _ _ _ _ Hr).
  erewrite bind_throw; [| apply build_program_float_fails; assumption].
  rewrite log_log. reflexivity.
Qed.

(** With the 64-bit type a build that fails with CL_BUILD_PROGRAM_FAILURE
    has its log printed before [throw err;] throws a [cl::Error] of that
    status. *)
Lemma double_build_failure (ARRAY_SIZE device_index : Z) (w : world) (dev : Device) :
  sizeof = sizeof_double -> resolves w device_index dev ->
  CL_DEVICE_DOUBLE_FP_CONFIG dev <> 0 ->
  clBuildProgram dev opt_double = CL_BUILD_PROGRAM_FAILURE ->
  new ARRAY_SIZE device_index w =
  (Throw (cl_Error CL_BUILD_PROGRAM_FAILURE),
   log (populated w)
     (banner dev ++
      [ev_get_double_fp_config; ev_build opt_double;
       ev_cout [tok_str (CL_PROGRAM_BUILD_LOG dev opt_double); tok_endl]])).
Proof.
  intros E8 Hr Hcfg Hb. rewrite (OCLStream_new_resolved _ _ _ _ Hr).
  erewrite bind_throw; [| apply build_program_double_fails; assumption].
  rewrite log_log. reflexivity.
Qed.

(** With the 64-bit type a build that fails with any other status is
    caught and dropped: the constructor goes on to create the kernels of a
    program that was not built. *)
Lemma double_build_error_swallowed
    (ARRAY_SIZE device_index : Z) (w : world) (dev : Device) :
  sizeof = sizeof_double -> resolves w device_index dev ->
  CL_DEVICE_DOUBLE_FP_CONFIG dev <> 0 ->
  clBuildProgram dev opt_double <> CL_SUCCESS ->
  clBuildProgram dev opt_double <> CL_BUILD_PROGRAM_FAILURE ->
  new ARRAY_SIZE device_index w =
  (create_kernels dev false;;
   check_and_allocate WGSIZE indeterminate dev ARRAY_SIZE)
    (log (populated w)
       (banner dev ++ [ev_get_double_fp_config; ev_build opt_double])).
Proof.
  intros E8 Hr Hcfg Hb Hf. rewrite (OCLStream_new_resolved _ _ _ _ Hr).
  erewrite bind_run; [| apply build_program_double_swallows; assumption].
  rewrite log_log. reflexivity.
Qed.

End ConstructionTheorems.

(** ** The cache under repeated enumeration *)

Lemma populated_of_cached (w : world) : cached w = true -> populated w = w.
Proof. intros H. unfold populated. rewrite H. reflexivity. Qed.

(** The printing loop leaves a populated cache as it is. *)
Lemma listDevices_loop_devices (n : nat) (i : Z) (w : world) :
  cached w = true ->
  devices (snd (listDevices_loop n i w)) = devices w /\
  cached (snd (listDevices_loop n i w)) = true.
Proof.
  revert i w. induction n as [|n IH]; intros i w Hc.
  - split; [reflexivity | exact Hc].
  - cbn [listDevices_loop]. munfold.
    rewrite getDeviceName_run, (populated_of_cached w Hc).
    destruct (lookup_info _ _ _ _) as [name | e]; [|split; [reflexivity | exact Hc]].
    rewrite emit_run.
    destruct (IH (i + 1) (log w [ev_cout [tok_int i; tok_str ": "; tok_str name; tok_endl]]) Hc)
      as [Hd Hc'].
    split; assumption.
Qed.

(** [listDevices] enumerates whether or not the cache is populated: the
    devices of every platform are appended once more. *)
Lemma listDevices_appends (w : world) :
  devices (snd (listDevices w)) = devices w ++ concat (platforms w).
Proof.
  unfold listDevices.
  erewrite bind_run; [| apply getDeviceList_run].
  erewrite bind_run; [| reflexivity].
  destruct (_ =? 0); [reflexivity|].
  erewrite bind_run; [| apply emit_run].
  erewrite bind_run; [| apply emit_run].
  munfold.
  match goal with
  | |- context [listDevices_loop ?n ?i ?w0] =>
      destruct (listDevices_loop_devices n i w0 eq_refl) as [Hd _];
      destruct (listDevices_loop n i w0) as [[[]|e] w1]
  end; cbn in Hd |- *; exact Hd.
Qed.

(** The guarded callers do not enumerate a populated cache again. *)
Lemma guarded_lookup_keeps_devices (i : Z) (w : world) :
  cached w = true ->
  devices (snd (getDeviceName i w)) = devices w /\
  devices (snd (getDeviceDriver i w)) = devices w.
Proof.
  intros Hc. rewrite getDeviceName_run, getDeviceDriver_run.
  rewrite (populated_of_cached w Hc). split; reflexivity.
Qed.

(** C2. After a first [listDevices] the cache is populated with the one
    device of the one platform; a second [listDevices] appends that device
    again. *)
Example listDevices_twice_duplicates :
  let w1 := snd (listDevices (fresh_world [[gpu]])) in
  let w2 := snd (listDevices w1) in
  cached w1 = true /\ devices w1 = [gpu] /\ devices w2 = [gpu; gpu].
Proof. repeat split. Qed.

(** C3. A device without a compiler: the build fails with
    CL_COMPILER_NOT_AVAILABLE and leaves a log. [OCLStream<float>] ends in
    the [cl::BuildError] of the build, which carries the log.
    [OCLStream<double>] on the same device catches that error and drops it:
    the log is printed nowhere, the constructor goes on to create the kernel
    [copy] from the program that was not built, and what leaves it is the
    [cl::Error] of that creation, which is no build failure and carries no
    log. *)
Example double_build_failure_not_reported :
  let w := fresh_world [[gpu_no_compiler]] in
  let rf := OCLStream_new (T := IEEE.float) 64 stale_float 1024 0 w in
  let rd := OCLStream_new (T := IEEE.double) 64 stale_double 1024 0 w in
  clBuildProgram gpu_no_compiler opt_float = -3 /\
  clBuildProgram gpu_no_compiler opt_double = -3 /\
  fst rf = Throw (cl_BuildError (-3) "compiler not available") /\
  kind_of (cl_BuildError (-3) "compiler not available") = Some BuildFailure /\
  carried_log (cl_BuildError (-3) "compiler not available") =
    Some "compiler not available" /\
  fst rd = Throw (cl_Error (-45)) /\
  kind_of (cl_Error (-45)) = None /\
  carried_log (cl_Error (-45)) = None /\
  emitted w (snd rd) =
    [ev_platform_get;
     ev_cout [tok_str "Using OpenCL device "; tok_str "GPU (no compiler)"; tok_endl];
     ev_cout [tok_str "Driver: "; tok_str "OpenCL 1.2"; tok_endl];
     ev_get_double_fp_config;
     ev_build "-DTYPE=double";
     ev_create_kernel "copy"].
Proof. repeat split. Qed.

(** ** The construction theorems at sample inputs *)

Lemma gpu_resolves : resolves (fresh_world [[gpu]]) 0 gpu.
Proof. repeat split; vm_compute; congruence. Defined.

Lemma gpu_ready_double : program_ready (T := IEEE.double) gpu.
Proof.
  repeat split; try reflexivity; try discriminate.
Defined.

Lemma double_is_float_or_double : float_or_double (T := IEEE.double).
Proof. right. reflexivity. Defined.

Lemma invalid_device_index_rejected_witness :
  Mach.is_int 1 /\ device_count (fresh_world [[gpu]]) < 2 ^ 63 /\
  raises InvalidDeviceIndex msg_invalid_index
    (OCLStream_new (T := IEEE.double) 64 stale_double 1024 1 (fresh_world [[gpu]])) /\
  fst (getDeviceName 0 (fresh_world [[gpu]])) = Ok "GPU".
Proof.
  assert (Hi : Mach.is_int 1) by (split; vm_compute; discriminate).
  assert (Hi0 : Mach.is_int 0) by (split; vm_compute; discriminate).
  assert (Hc : device_count (fresh_world [[gpu]]) < 2 ^ 63) by reflexivity.
  split; [exact Hi | split; [exact Hc | split]].
  - destruct (invalid_device_index_rejected (T := IEEE.double) 64 stale_double
                1024 1 (fresh_world [[gpu]]) Hi Hc) as [Hout _].
    apply Hout. vm_compute. intros [_ H]. discriminate.
  - destruct (invalid_device_index_rejected (T := IEEE.double) 64 stale_double
                1024 0 (fresh_world [[gpu]]) Hi0 Hc) as [_ Hin].
    destruct Hin as (dev & Hdev & Hname & _).
    + vm_compute. split; [discriminate | reflexivity].
    + injection Hdev as <-. exact Hname.
Defined.

Lemma precision_checked_before_build_witness :
  let w := fresh_world [[gpu_single_precision]] in
  let r := OCLStream_new (T := IEEE.double) 64 stale_double 1024 0 w in
  resolves w 0 gpu_single_precision /\
  raises UnsupportedPrecision msg_no_double r /\
  (forall options, ev_build options ∉ emitted w (snd r)).
Proof.
  intros w r.
  assert (Hr : resolves w 0 gpu_single_precision)
    by (repeat split; vm_compute; congruence).
  split; [exact Hr|].
  destruct (precision_checked_before_build (T := IEEE.double) 64 stale_double
              1024 0 w) as [_ Hd].
  destruct (Hd gpu_single_precision eq_refl Hr) as [_ Hfail].
  exact (Hfail eq_refl).
Defined.

Lemma capacity_validation_witness :
  let w := fresh_world [[gpu]] in
  let r := OCLStream_new (T := IEEE.double) 64 stale_double (2 ^ 28) 0 w in
  Mach.is_unsigned (2 ^ 28) /\
  exceeds_capacity (T := IEEE.double) gpu (2 ^ 28) /\
  (exists what, raises InsufficientMemory what r) /\
  (forall flags bytes, ev_create_buffer flags bytes ∉ emitted w (snd r)).
Proof.
  intros w r.
  assert (Hn : Mach.is_unsigned (2 ^ 28)) by (split; vm_compute; congruence).
  assert (Hex : exceeds_capacity (T := IEEE.double) gpu (2 ^ 28))
    by (left; reflexivity).
  split; [exact Hn | split; [exact Hex|]].
  destruct (capacity_validation (T := IEEE.double) 64 stale_double (2 ^ 28) 0 w gpu
              double_is_float_or_double Hn gpu_resolves gpu_ready_double)
    as (Hiff & Hnone & _).
  split; [apply Hiff, Hex | apply Hnone, Hex].
Defined.





(** ** Launching a kernel over a range *)

Section Ranges.

Context {T : Type}.

(** Work-items that each store their own value: after the first [k] of them
    the first [k] elements are written. *)
Lemma range_prefix (vals : list T) (item : nat -> list T -> list T) :
  (forall i x s, vals !! i = Some x -> item i s = <[i := x]> s) ->
  forall (k : nat) (buf : list T),
    (k <= length vals)%nat -> length buf = length vals ->
    fold_left (fun s i => item i s) (seq 0 k) buf = take k vals ++ drop k buf.
Proof.
  intros Hitem k. induction k as [|k IH]; intros buf Hk Hlen.
  - rewrite take_0, drop_0. reflexivity.
  - rewrite seq_S, fold_left_app, IH by lia. cbn [fold_left plus].
    destruct (lookup_lt_is_Some_2 vals k) as [x Hx]; [lia|].
    destruct (lookup_lt_is_Some_2 buf k) as [y Hy]; [lia|].
    rewrite (Hitem _ _ _ Hx).
    rewrite (take_S_r _ _ _ Hx), (drop_S _ _ _ Hy).
    rewrite insert_app_r_alt by (rewrite length_take; lia).
    rewrite length_take, Nat.min_l, Nat.sub_diag by lia.
    cbn. rewrite <- app_assoc. reflexivity.
Qed.

Lemma NDRange_writes (vals buf : list T) (item : nat -> list T -> list T) (n : Z) :
  (forall i x s, vals !! i = Some x -> item i s = <[i := x]> s) ->
  Z.to_nat n = length vals -> length buf = length vals ->
  NDRange n item buf = vals.
Proof.
  intros Hitem Hn Hlen. unfold NDRange. rewrite Hn.
  rewrite (range_prefix vals item Hitem) by lia.
  rewrite take_ge, drop_ge by lia. apply app_nil_r.
Qed.

End Ranges.

(** ** The engine's invariant *)

Lemma yields_bind {A B} (R1 : A -> Prop) (R : B -> Prop) (m : M A) (f : A -> M B) :
  yields R1 m -> (forall a, R1 a -> yields R (f a)) -> yields R (m ≫= f).
Proof.
  intros Hm Hf w b w'. munfold. destruct (m w) as [[a|e] w1] eqn:E; [|discriminate].
  intros Hb. exact (Hf a (Hm _ _ _ E) _ _ _ Hb).
Qed.

Lemma yields_any {A} (m : M A) : yields (fun _ => True) m.
Proof. intros w a w' _. exact I. Qed.

Lemma yields_then {A B} (R : B -> Prop) (m : M A) (f : A -> M B) :
  (forall a, yields R (f a)) -> yields R (m ≫= f).
Proof.
  intros Hf. apply (yields_bind (fun _ => True)); [apply yields_any | auto].
Qed.

Lemma yields_ret {A} (R : A -> Prop) (a : A) : R a -> yields R (mret a).
Proof. intros H w a' w' [= <- _]. exact H. Qed.

Lemma yields_throw {A} (R : A -> Prop) (e : exn) : yields R (@throw A e).
Proof. intros w a w' [=]. Qed.

Section EngineInvariant.

Context {T : Type} {ElemT : Elem T}.
Variable WGSIZE : Z.
Variable indeterminate : nat -> nat -> T.

Lemma copy_run (e : @OCLStream T) :
  arrays_ok e ->
  copy e = (Ok tt, mkOCLStream (array_size e) (device e) (d_a e) (d_b e) (d_a e)
                     (d_sum e) (sums e)).
Proof.
  intros (Hn & Ha & Hb & Hc). unfold copy, set_d_c. ounfold. cbn.
  rewrite (NDRange_writes (d_a e)); [reflexivity | | lia | lia].
  intros i x s Hx. unfold copy_kernel. rewrite Hx. reflexivity.
Qed.

Lemma mul_run (e : @OCLStream T) :
  arrays_ok e ->
  mul e = (Ok tt, mkOCLStream (array_size e) (device e) (d_a e)
                    (map (T_mul scalar) (d_c e)) (d_c e) (d_sum e) (sums e)).
Proof.
  intros (Hn & Ha & Hb & Hc). unfold mul, set_d_b. ounfold. cbn.
  rewrite (NDRange_writes (map (T_mul scalar) (d_c e)));
    [reflexivity | | rewrite length_map; lia | rewrite length_map; lia].
  intros i x s Hx. unfold mul_kernel.
  rewrite list_lookup_fmap in Hx.
  destruct (d_c e !! i) as [y|]; [|discriminate].
  injection Hx as <-. reflexivity.
Qed.

Lemma add_run (e : @OCLStream T) :
  arrays_ok e ->
  add e = (Ok tt, mkOCLStream (array_size e) (device e) (d_a e) (d_b e)
                    (zip_with T_add (d_a e) (d_b e)) (d_sum e) (sums e)).
Proof.
  intros (Hn & Ha & Hb & Hc). unfold add, set_d_c. ounfold. cbn.
  rewrite (NDRange_writes (zip_with T_add (d_a e) (d_b e)));
    [reflexivity | | rewrite length_zip_with; lia | rewrite length_zip_with; lia].
  intros i x s Hx. unfold add_kernel.
  apply lookup_zip_with_Some in Hx as (u & v & -> & Hu & Hv).
  rewrite Hu, Hv. reflexivity.
Qed.

Lemma triad_run (e : @OCLStream T) :
  arrays_ok e ->
  triad e = (Ok tt, mkOCLStream (array_size e) (device e)
                      (zip_with (fun b c => T_add b (T_mul scalar c)) (d_b e) (d_c e))
                      (d_b e) (d_c e) (d_sum e) (sums e)).
Proof.
  intros (Hn & Ha & Hb & Hc). unfold triad, set_d_a. ounfold. cbn.
  rewrite (NDRange_writes
             (zip_with (fun b c => T_add b (T_mul scalar c)) (d_b e) (d_c e)));
    [reflexivity | | rewrite length_zip_with; lia | rewrite length_zip_with; lia].
  intros i x s Hx. unfold triad_kernel.
  apply lookup_zip_with_Some in Hx as (u & v & -> & Hu & Hv).
  rewrite Hu, Hv. reflexivity.
Qed.

Lemma copy_to_device_run (host buffer : list T) (e : @OCLStream T) :
  length host = length buffer -> copy_to_device host buffer e = (Ok host, e).
Proof.
  intros H. unfold copy_to_device. rewrite H, Nat.leb_refl, <- H.
  rewrite drop_ge by lia. rewrite app_nil_r. reflexivity.
Qed.

Lemma copy_to_host_run (buffer host : list T) (e : @OCLStream T) :
  length host = length buffer -> copy_to_host buffer host e = (Ok buffer, e).
Proof.
  intros H. unfold copy_to_host. rewrite H, Nat.leb_refl.
  rewrite take_ge by lia. reflexivity.
Qed.

Lemma write_arrays_run (a b c : list T) (e : @OCLStream T) :
  arrays_ok e ->
  length a = Z.to_nat (array_size e) ->
  length b = Z.to_nat (array_size e) ->
  length c = Z.to_nat (array_size e) ->
  write_arrays a b c e =
  (Ok tt, mkOCLStream (array_size e) (device e) a b c (d_sum e) (sums e)).
Proof.
  intros (Hn & Ha & Hb & Hc) La Lb Lc. unfold write_arrays. ounfold.
  rewrite copy_to_device_run by lia. cbn.
  rewrite copy_to_device_run by lia. cbn.
  rewrite copy_to_device_run by lia. reflexivity.
Qed.

Lemma read_arrays_run (a b c : list T) (e : @OCLStream T) :
  arrays_ok e ->
  length a = Z.to_nat (array_size e) ->
  length b = Z.to_nat (array_size e) ->
  length c = Z.to_nat (array_size e) ->
  read_arrays a b c e = (Ok (d_a e, d_b e, d_c e), e).
Proof.
  intros (Hn & Ha & Hb & Hc) La Lb Lc. unfold read_arrays. ounfold.
  rewrite !copy_to_host_run by lia. reflexivity.
Qed.

End EngineInvariant.

Section InvariantProofs.

Context {T : Type} {ElemT : Elem T}.
Variable WGSIZE : Z.
Variable indeterminate : nat -> nat -> T.

Lemma yields_cl_Buffer (dev : Device) (which : nat) (flags bytes : Z) :
  yields (fun l : list T => length l = Z.to_nat (bytes / sizeof))
         (cl_Buffer indeterminate dev which flags bytes).
Proof.
  unfold cl_Buffer. apply yields_then. intros _. apply yields_then. intros _.
  apply yields_ret. rewrite length_map, length_seq. reflexivity.
Qed.

(** What the constructor returns satisfies the invariant. *)
Lemma OCLStream_new_ok (ARRAY_SIZE device_index : Z) :
  float_or_double -> 0 < WGSIZE -> Mach.is_unsigned ARRAY_SIZE ->
  yields (fun e => engine_ok WGSIZE e /\ array_size e = ARRAY_SIZE)
         (OCLStream_new WGSIZE indeterminate ARRAY_SIZE device_index).
Proof.
  intros Hs HW Hn. unfold OCLStream_new.
  do 3 (apply yields_then; intros ?).
  destruct (_ >=? _); [apply yields_throw|].
  do 7 (apply yields_then; intros ?).
  unfold check_and_allocate. cbv zeta.
  destruct (_ <? _); [apply yields_throw|].
  destruct (_ <? _); [apply yields_throw|].
  pose proof (groups_unsigned WGSIZE ARRAY_SIZE HW Hn) as Hg.
  rewrite !size_of_buffer by assumption.
  eapply yields_bind; [apply yields_cl_Buffer | intros la Ha].
  eapply yields_bind; [apply yields_cl_Buffer | intros lb Hb].
  eapply yields_bind; [apply yields_cl_Buffer | intros lc Hc].
  eapply yields_bind; [apply yields_cl_Buffer | intros ls Hls].
  apply yields_ret. cbn beta in *.
  rewrite elements_of_buffer in Ha, Hb, Hc, Hls by (assumption || apply Hn || apply Hg).
  unfold engine_ok, arrays_ok. cbn.
  rewrite repeat_length. destruct Hn. repeat split; assumption.
Qed.

Lemma length_NDRange_insert (n : Z) (item : nat -> list T -> list T) (buf : list T) :
  (forall i s, length (item i s) = length s) ->
  length (NDRange n item buf) = length buf.
Proof.
  intros H. unfold NDRange. generalize (seq 0 (Z.to_nat n)) as l. intros l.
  revert buf. induction l as [|i l IH]; intros buf; [reflexivity|].
  cbn. rewrite IH. apply H.
Qed.

Lemma length_stream_dot_kernel (n local_size : Z) (a b sum : list T) :
  length (stream_dot_kernel WGSIZE indeterminate n local_size a b sum) = length sum.
Proof.
  unfold stream_dot_kernel. generalize (seq 0 (Z.to_nat (n / local_size))) as l.
  intros l. revert sum. induction l as [|g l IH]; intros sum; [reflexivity|].
  cbn [fold_left]. rewrite IH. unfold stream_dot_group.
  destruct (_ !! 0%nat); [apply length_insert | reflexivity].
Qed.

Lemma length_copy_to_device (host buffer : list T) (e : @OCLStream T) (l : list T)
    (e' : @OCLStream T) :
  copy_to_device host buffer e = (Ok l, e') -> length l = length buffer /\ e' = e.
Proof.
  unfold copy_to_device. destruct (Nat.leb_spec (length host) (length buffer)).
  - intros [= <- <-]. rewrite length_app, length_drop. split; [lia | reflexivity].
  - intros [=].
Qed.

Lemma write_arrays_ok (a b c : list T) (e : @OCLStream T) :
  engine_ok WGSIZE e -> engine_ok WGSIZE (snd (write_arrays a b c e)).
Proof.
  intros Hok. pose proof Hok as ((Hn & Ha & Hb & Hc) & Hs & Hsums).
  unfold write_arrays, copy_to_device, set_d_a, set_d_b, set_d_c, op_throw.
  ounfold. cbn.
  destruct (Nat.leb_spec (length a) (length (d_a e))); cbn; [|exact Hok].
  destruct (Nat.leb_spec (length b) (length (d_b e))); cbn.
  - destruct (Nat.leb_spec (length c) (length (d_c e))); cbn;
      unfold engine_ok, arrays_ok; cbn;
      rewrite ?length_app, ?length_drop; repeat split; lia.
  - unfold engine_ok, arrays_ok; cbn.
    rewrite ?length_app, ?length_drop; repeat split; lia.
Qed.

Lemma read_arrays_same (a b c : list T) (e : @OCLStream T) :
  snd (read_arrays a b c e) = e.
Proof.
  unfold read_arrays, copy_to_host, op_throw. ounfold. cbn.
  repeat (destruct (_ <=? _)%nat; cbn; [|reflexivity]). reflexivity.
Qed.

Lemma dot_ok (e : @OCLStream T) :
  engine_ok WGSIZE e -> engine_ok WGSIZE (snd (dot WGSIZE indeterminate e)).
Proof.
  intros Hok. pose proof Hok as ((Hn & Ha & Hb & Hc) & Hs & Hsums).
  unfold dot, copy_to_host, set_d_sum, set_sums, op_throw. ounfold. cbn.
  destruct (_ =? 0); cbn; [|exact Hok].
  rewrite length_stream_dot_kernel.
  destruct (Nat.leb_spec (length (sums e)) (length (d_sum e))); cbn.
  - unfold engine_ok, arrays_ok; cbn.
    rewrite length_take, length_stream_dot_kernel. repeat split; lia.
  - unfold engine_ok, arrays_ok; cbn.
    rewrite length_stream_dot_kernel. repeat split; lia.
Qed.

Lemma engine_step_ok (e e' : @OCLStream T) :
  engine_ok WGSIZE e -> engine_step WGSIZE indeterminate e e' -> engine_ok WGSIZE e'.
Proof.
  intros Hok Hstep. pose proof Hok as (Harr & Hs & Hsums).
  pose proof Harr as (Hn & Ha & Hb & Hc).
  destruct Hstep.
  - rewrite copy_run by exact Harr. unfold engine_ok, arrays_ok; cbn.
    repeat split; lia.
  - rewrite mul_run by exact Harr. unfold engine_ok, arrays_ok; cbn.
    rewrite length_map. repeat split; lia.
  - rewrite add_run by exact Harr. unfold engine_ok, arrays_ok; cbn.
    rewrite length_zip_with. repeat split; lia.
  - rewrite triad_run by exact Harr. unfold engine_ok, arrays_ok; cbn.
    rewrite length_zip_with. repeat split; lia.
  - apply dot_ok, Hok.
  - apply write_arrays_ok, Hok.
  - rewrite read_arrays_same. exact Hok.
Qed.

(** Every engine a program can hold satisfies the invariant. *)
Lemma constructed_ok (e : @OCLStream T) :
  constructed WGSIZE indeterminate e -> engine_ok WGSIZE e.
Proof.
  induction 1 as [n i w e w' Hs HW Hn Hnew | e e' _ IH Hstep].
  - exact (proj1 (OCLStream_new_ok n i Hs HW Hn _ _ _ Hnew)).
  - exact (engine_step_ok _ _ IH Hstep).
Qed.

End InvariantProofs.

(** ** The four array operations *)

Section ArrayOperations.

Context {T : Type} {ElemT : Elem T}.
Variable WGSIZE : Z.
Variable indeterminate : nat -> nat -> T.

(** C7. On every constructed engine, [write_arrays(_, _, C)], [mul()] and
    [read_arrays] give back [b] with [b[i] = scalar * C[i]] at every index,
    [scalar] being the constant 0.3 of the kernel source. *)
Theorem mul_scales_c (e : @OCLStream T) (A B C a b c : list T) :
  constructed WGSIZE indeterminate e ->
  fits e A -> fits e B -> fits e C -> fits e a -> fits e b -> fits e c ->
  exists b' e',
    (write_arrays A B C;; mul;; read_arrays a b c) e = (Ok (A, b', C), e') /\
    b' = map (T_mul scalar) C /\
    forall i x, C !! i = Some x -> b' !! i = Some (T_mul scalar x).
Proof.
  intros Hc HA HB HC Ha Hb Hc'. apply constructed_ok in Hc as [Harr _].
  exists (map (T_mul scalar) C). eexists. split; [|split].
  - ounfold. rewrite write_arrays_run by assumption.
    destruct Harr as (Hn & _). unfold fits in *.
    rewrite mul_run by (repeat split; cbn; assumption). cbn [d_a d_b d_c array_size].
    rewrite read_arrays_run;
      [reflexivity | repeat split; cbn; rewrite ?length_map; assumption | | |];
      assumption.
  - reflexivity.
  - intros i x Hx. rewrite list_lookup_fmap, Hx. reflexivity.
Qed.

(** C8. On every constructed engine, [write_arrays(_, B, C)], [triad()] and
    [read_arrays] give back [a] with [a[i] = B[i] + scalar * C[i]] at every
    index. *)
Theorem triad_combines_b_c (e : @OCLStream T) (A B C a b c : list T) :
  constructed WGSIZE indeterminate e ->
  fits e A -> fits e B -> fits e C -> fits e a -> fits e b -> fits e c ->
  exists a' e',
    (write_arrays A B C;; triad;; read_arrays a b c) e = (Ok (a', B, C), e') /\
    length a' = length B /\
    forall i x y, B !! i = Some x -> C !! i = Some y ->
                  a' !! i = Some (T_add x (T_mul scalar y)).
Proof.
  intros Hc HA HB HC Ha Hb Hc'. apply constructed_ok in Hc as [Harr _].
  exists (zip_with (fun x y => T_add x (T_mul scalar y)) B C). eexists.
  unfold fits in *. split; [|split].
  - ounfold. rewrite write_arrays_run by assumption.
    destruct Harr as (Hn & _).
    rewrite triad_run by (repeat split; cbn; assumption). cbn [d_a d_b d_c array_size].
    rewrite read_arrays_run;
      [reflexivity
      | repeat split; cbn; rewrite ?length_zip_with; try assumption; lia | | |];
      assumption.
  - rewrite length_zip_with. lia.
  - intros i x y Hx Hy. apply lookup_zip_with_Some. eauto.
Qed.

(** C9. Each operation writes its destination only: [copy] and [add] leave
    [a] and [b] as they are, [mul] leaves [a] and [c], [triad] leaves [b]
    and [c], and [dot], which writes the sum buffer and the host vector of
    partial sums, leaves [a], [b] and [c]. The four array operations touch
    neither the sum buffer nor the partial sums. *)
Theorem operations_frame (e : @OCLStream T) :
  (let e' := snd (copy e) in
   d_a e' = d_a e /\ d_b e' = d_b e /\ d_sum e' = d_sum e /\ sums e' = sums e) /\
  (let e' := snd (mul e) in
   d_a e' = d_a e /\ d_c e' = d_c e /\ d_sum e' = d_sum e /\ sums e' = sums e) /\
  (let e' := snd (add e) in
   d_a e' = d_a e /\ d_b e' = d_b e /\ d_sum e' = d_sum e /\ sums e' = sums e) /\
  (let e' := snd (triad e) in
   d_b e' = d_b e /\ d_c e' = d_c e /\ d_sum e' = d_sum e /\ sums e' = sums e) /\
  (let e' := snd (dot WGSIZE indeterminate e) in
   d_a e' = d_a e /\ d_b e' = d_b e /\ d_c e' = d_c e).
Proof.
  repeat split; try reflexivity;
    unfold dot, copy_to_host, set_d_sum, set_sums, op_throw; ounfold; cbn;
    destruct (_ =? 0); cbn; try reflexivity;
    destruct (_ <=? _)%nat; reflexivity.
Qed.

End ArrayOperations.

(** ** The dot kernel computes the tree sums *)

Section DotKernel.

Context {T : Type} {ElemT : Elem T}.
Variable WGSIZE : Z.
Variable indeterminate : nat -> nat -> T.

Lemma halve_length (o : nat) (wg : list T) :
  (2 * o <= length wg)%nat -> length (halve o wg) = o.
Proof.
  intros H. unfold halve. rewrite length_zip_with, length_take, length_drop. lia.
Qed.

Lemma halve_lookup (o k : nat) (wg : list T) (x y : T) :
  (k < o)%nat -> wg !! k = Some x -> wg !! (o + k)%nat = Some y ->
  halve o wg !! k = Some (T_add x y).
Proof.
  intros Hk Hx Hy. unfold halve. apply lookup_zip_with_Some.
  exists x, y. split; [reflexivity | split].
  - rewrite lookup_take_lt by exact Hk. exact Hx.
  - rewrite lookup_drop. exact Hy.
Qed.

(** The lanes below [offset], one after the other: after the first [k] of
    them the first [k] slots hold their sums, the rest is as before. *)
Lemma step_prefix (o : nat) (wg : list T) :
  (2 * o <= length wg)%nat ->
  forall k : nat, (k <= o)%nat ->
    fold_left (fun s l => stream_dot_step (Z.of_nat o) l s) (seq 0 k) wg =
    take k (halve o wg) ++ drop k wg.
Proof.
  intros Hlen k. induction k as [|k IH]; intros Hk.
  - rewrite take_0, drop_0. reflexivity.
  - rewrite seq_S, fold_left_app, IH by lia. cbn [fold_left plus].
    pose proof (halve_length o wg Hlen) as HH.
    destruct (lookup_lt_is_Some_2 wg k) as [x Hx]; [lia|].
    destruct (lookup_lt_is_Some_2 wg (o + k)) as [y Hy]; [lia|].
    pose proof (halve_lookup o k wg x y ltac:(lia) Hx Hy) as Hh.
    unfold stream_dot_step.
    destruct (Z.ltb_spec (Z.of_nat k) (Z.of_nat o)); [|lia].
    rewrite Nat2Z.id.
    assert (Lt : length (take k (halve o wg)) = k) by (rewrite length_take; lia).
    rewrite !lookup_app_r by lia. rewrite Lt, Nat.sub_diag.
    replace (k + o - k)%nat with o by lia.
    rewrite !lookup_drop, Nat.add_0_r, Hx, (Nat.add_comm k o), Hy.
    rewrite insert_app_r_alt by lia. rewrite Lt, Nat.sub_diag.
    rewrite (take_S_r _ _ _ Hh), (drop_S _ _ _ Hx). cbn.
    rewrite <- app_assoc. reflexivity.
Qed.

(** The lanes from [offset] on do nothing. *)
Lemma step_idle (o : nat) (ls : list nat) (wg : list T) :
  Forall (fun l => o <= l)%nat ls ->
  fold_left (fun s l => stream_dot_step (Z.of_nat o) l s) ls wg = wg.
Proof.
  intros H. revert wg. induction H as [|l ls Hl _ IH]; intros wg; [reflexivity|].
  cbn [fold_left]. unfold stream_dot_step at 2.
  destruct (Z.ltb_spec (Z.of_nat l) (Z.of_nat o)); [lia|]. apply IH.
Qed.

(** One phase of the loop over a whole work-group. *)
Lemma step_phase (o : nat) (wg : list T) (local_size : Z) :
  (2 * o <= length wg)%nat -> Z.to_nat local_size = length wg ->
  NDRange local_size (stream_dot_step (Z.of_nat o)) wg = halve o wg ++ drop o wg.
Proof.
  intros Hlen HW. unfold NDRange. rewrite HW.
  replace (length wg) with (o + (length wg - o))%nat at 1 by lia.
  rewrite seq_app, fold_left_app, (step_prefix o wg Hlen o) by lia.
  rewrite step_idle.
  - rewrite take_ge by (rewrite halve_length; lia). reflexivity.
  - apply Forall_forall. intros l Hl. apply elem_of_seq in Hl. lia.
Qed.

Lemma stream_dot_loop_eq (local_size offset : Z) (wg : list T) :
  stream_dot_loop local_size offset wg =
  if 0 <? offset then
    stream_dot_loop local_size (Z.quot offset 2)
      (NDRange local_size (stream_dot_step offset) wg)
  else wg.
Proof.
  rewrite stream_dot_loop_equation_1.
  destruct (Z_lt_dec 0 offset); destruct (Z.ltb_spec 0 offset); try lia.
  - apply stream_dot_loop_clause_1_equation_1.
  - reflexivity.
Qed.

Lemma halve_take (o : nat) (wg : list T) :
  halve o (take (2 * o) wg) = halve o wg.
Proof.
  unfold halve. rewrite take_take, Nat.min_l by lia.
  replace (2 * o)%nat with (o + o)%nat by lia.
  rewrite <- take_drop_commute.
  apply zip_with_take_r'. rewrite length_take. lia.
Qed.

Lemma pow2_Z (j : nat) : Z.of_nat (2 ^ j) = 2 ^ Z.of_nat j.
Proof. rewrite Nat2Z.inj_pow. reflexivity. Qed.

Lemma pow2_pos (j : nat) : (0 < 2 ^ j)%nat.
Proof. induction j; cbn; lia. Qed.

(** The loop entered with [2^j] live slots leaves their tree sum in
    slot 0. *)
Lemma loop_tree (local_size : Z) (j : nat) :
  forall wg : list T,
    Z.to_nat local_size = length wg -> (2 ^ j <= length wg)%nat ->
    stream_dot_loop local_size (Z.quot (2 ^ Z.of_nat j) 2) wg !! 0%nat =
    Some (tree_sum j (take (2 ^ j) wg)).
Proof.
  induction j as [|j IH]; intros wg HW Hlen.
  - rewrite stream_dot_loop_eq. cbn in *.
    destruct wg as [|x wg]; [cbn in Hlen; lia | reflexivity].
  - pose proof (pow2_pos j) as Hp.
    assert (Eo : Z.quot (2 ^ Z.of_nat (S j)) 2 = Z.of_nat (2 ^ j)).
    { rewrite pow2_Z, Nat2Z.inj_succ, Z.pow_succ_r by lia.
      rewrite Z.mul_comm. apply Z.quot_mul. lia. }
    rewrite Eo, stream_dot_loop_eq.
    destruct (Z.ltb_spec 0 (Z.of_nat (2 ^ j))); [|lia].
    change (2 ^ S j)%nat with (2 * 2 ^ j)%nat in *.
    rewrite step_phase by (assumption || lia).
    rewrite pow2_Z, IH.
    + rewrite take_app_length' by (rewrite halve_length; lia).
      cbn [tree_sum]. rewrite halve_take. reflexivity.
    + rewrite length_app, halve_length, length_drop by lia. lia.
    + rewrite length_app, halve_length, length_drop by lia. lia.
Qed.

(** The loads of one work-group. *)
Lemma load_phase (a b wg0 : list T) (g w : nat) (local_size : Z) :
  Z.to_nat local_size = w -> length wg0 = w ->
  ((g + 1) * w <= length (products a b))%nat ->
  NDRange local_size
    (fun local_i => stream_dot_load a b (g * Z.to_nat local_size + local_i) local_i)
    wg0
  = group w g (products a b).
Proof.
  intros HW H0 Hlen. rewrite HW.
  apply NDRange_writes.
  - intros i x s Hx. unfold group in Hx.
    apply lookup_take_Some in Hx as [Hx Hi]. rewrite lookup_drop in Hx.
    unfold products in Hx.
    apply lookup_zip_with_Some in Hx as (u & v & -> & Hu & Hv).
    unfold stream_dot_load. rewrite Hu, Hv. reflexivity.
  - unfold group. rewrite length_take, length_drop. lia.
  - unfold group. rewrite length_take, length_drop. lia.
Qed.

Lemma to_int_small (x : Z) : 0 <= x < 2 ^ 31 -> Mach.to_int x = x.
Proof.
  intros H. unfold Mach.to_int, Mach.UINT_MAX1.
  rewrite Z.mod_small by lia. lia.
Qed.

Lemma length_group (w g : nat) (xs : list T) :
  ((g + 1) * w <= length xs)%nat -> length (group w g xs) = w.
Proof. intros H. unfold group. rewrite length_take, length_drop. lia. Qed.

(** One work-group of [2^k] lanes stores the tree sum of its products. *)
Lemma stream_dot_group_run (k g : nat) (a b sum : list T) :
  WGSIZE = 2 ^ Z.of_nat k -> WGSIZE < 2 ^ 31 ->
  ((g + 1) * 2 ^ k <= length (products a b))%nat ->
  stream_dot_group WGSIZE indeterminate WGSIZE a b g sum =
  <[g := tree_sum k (group (2 ^ k) g (products a b))]> sum.
Proof.
  intros HW Hint Hlen. pose proof (pow2_pos k) as Hp.
  assert (HWn : Z.to_nat WGSIZE = (2 ^ k)%nat)
    by (rewrite HW, <- pow2_Z; apply Nat2Z.id).
  unfold stream_dot_group. cbv zeta.
  rewrite (load_phase a b _ g (2 ^ k))
    by (try assumption; rewrite length_map, length_seq; exact HWn).
  assert (HWpos : 0 < WGSIZE) by (rewrite HW; apply Z.pow_pos_nonneg; lia).
  rewrite to_int_small
    by (split; [apply Z.div_pos; lia | apply Z.div_lt_upper_bound; lia]).
  rewrite <- Z.quot_div_nonneg by lia. rewrite HW at 2.
  rewrite loop_tree.
  - rewrite take_ge by (rewrite length_group by exact Hlen; lia). reflexivity.
  - rewrite length_group by exact Hlen. exact HWn.
  - rewrite length_group by exact Hlen. lia.
Qed.

Lemma partial_sums_lookup (k g : nat) (xs : list T) (x : T) :
  partial_sums k xs !! g = Some x ->
  x = tree_sum k (group (2 ^ k) g xs) /\ ((g + 1) * 2 ^ k <= length xs)%nat.
Proof.
  unfold partial_sums. rewrite list_lookup_fmap. intros H.
  destruct (seq 0 (length xs / 2 ^ k) !! g) as [g'|] eqn:E; [|discriminate].
  apply lookup_seq in E as [-> Hg]. cbn in H. injection H as <-.
  split; [reflexivity|].
  pose proof (pow2_pos k) as Hp.
  pose proof (Nat.Div0.mul_div_le (length xs) (2 ^ k)). nia.
Qed.

Lemma length_partial_sums (k : nat) (xs : list T) :
  length (partial_sums k xs) = (length xs / 2 ^ k)%nat.
Proof. unfold partial_sums. rewrite length_map, length_seq. reflexivity. Qed.

(** The kernel fills the sum buffer with the partial sums. *)
Lemma stream_dot_kernel_run (k : nat) (n : Z) (a b sum : list T) :
  WGSIZE = 2 ^ Z.of_nat k -> WGSIZE < 2 ^ 31 ->
  Z.to_nat n = length (products a b) -> 0 <= n ->
  length sum = Z.to_nat (n / WGSIZE) ->
  stream_dot_kernel WGSIZE indeterminate n WGSIZE a b sum =
  partial_sums k (products a b).
Proof.
  intros HW Hint Hn Hn0 Hsum. pose proof (pow2_pos k) as Hp.
  assert (HG : Z.to_nat (n / WGSIZE) = (length (products a b) / 2 ^ k)%nat).
  { rewrite <- Hn, HW, <- pow2_Z.
    rewrite <- (Nat2Z.id (Z.to_nat n / 2 ^ k)), Nat2Z.inj_div, Z2Nat.id by lia.
    reflexivity. }
  unfold stream_dot_kernel.
  rewrite (range_prefix (partial_sums k (products a b))
             (fun g s => stream_dot_group WGSIZE indeterminate WGSIZE a b g s)).
  - rewrite take_ge, drop_ge by (rewrite ?length_partial_sums; lia).
    apply app_nil_r.
  - intros g x s Hx. apply partial_sums_lookup in Hx as [-> Hg].
    apply stream_dot_group_run; assumption.
  - rewrite length_partial_sums. lia.
  - rewrite length_partial_sums. lia.
Qed.

(** [dot] on an engine that satisfies the invariant. *)
Lemma dot_run (k : nat) (e : @OCLStream T) :
  WGSIZE = 2 ^ Z.of_nat k -> WGSIZE < 2 ^ 31 ->
  engine_ok WGSIZE e -> array_size e mod WGSIZE = 0 ->
  dot WGSIZE indeterminate e =
  (Ok (two_level k (d_a e) (d_b e)),
   mkOCLStream (array_size e) (device e) (d_a e) (d_b e) (d_c e)
     (partial_sums k (products (d_a e) (d_b e)))
     (partial_sums k (products (d_a e) (d_b e)))).
Proof.
  intros HW Hint ((Hn & Ha & Hb & Hc) & Hs & Hsums) Hdiv.
  unfold dot, set_d_sum, set_sums. ounfold. cbn.
  rewrite Hdiv. cbn.
  assert (Hp : Z.to_nat (array_size e) = length (products (d_a e) (d_b e))).
  { unfold products. rewrite length_zip_with. lia. }
  rewrite (stream_dot_kernel_run k) by assumption.
  rewrite copy_to_host_run.
  - reflexivity.
  - rewrite length_partial_sums, Hsums, <- Hp, HW, <- pow2_Z.
    rewrite <- (Nat2Z.id (Z.to_nat (array_size e) / 2 ^ k)), Nat2Z.inj_div, Z2Nat.id
      by lia.
    reflexivity.
Qed.

End DotKernel.

(** ** The reductions under exact addition *)

Section ExactSums.

Context {T : Type} {ElemT : Elem T}.
Hypothesis exact : exact_addition.

Lemma fold_add_from (l : list T) (x : T) :
  fold_left T_add l x = T_add x (linear_sum l).
Proof.
  destruct exact as (Hassoc & Hcomm & Hzero). unfold linear_sum.
  revert x. induction l as [|y l IH]; intros x; cbn [fold_left].
  - rewrite Hcomm, Hzero. reflexivity.
  - rewrite IH, (IH (T_add T_zero y)), Hzero, Hassoc. reflexivity.
Qed.

Lemma linear_sum_cons (x : T) (l : list T) :
  linear_sum (x :: l) = T_add x (linear_sum l).
Proof.
  destruct exact as (_ & _ & Hzero). unfold linear_sum at 1. cbn [fold_left].
  rewrite Hzero. apply fold_add_from.
Qed.

Lemma linear_sum_nil : linear_sum (@nil T) = T_zero.
Proof. reflexivity. Qed.

Lemma linear_sum_app (l1 l2 : list T) :
  linear_sum (l1 ++ l2) = T_add (linear_sum l1) (linear_sum l2).
Proof.
  unfold linear_sum at 1. rewrite fold_left_app. fold (linear_sum l1).
  apply fold_add_from.
Qed.

Lemma linear_sum_zip (l1 l2 : list T) :
  length l1 = length l2 ->
  linear_sum (zip_with T_add l1 l2) = T_add (linear_sum l1) (linear_sum l2).
Proof.
  destruct exact as (Hassoc & Hcomm & Hzero).
  revert l2. induction l1 as [|x l1 IH]; intros [|y l2] Hlen; try discriminate.
  - cbn [zip_with]. unfold linear_sum. cbn. rewrite Hzero. reflexivity.
  - cbn [zip_with]. rewrite !linear_sum_cons, IH by (cbn in Hlen; lia).
    rewrite <- !Hassoc. f_equal.
    rewrite !Hassoc, (Hcomm y). reflexivity.
Qed.

(** A tree sum is the plain sum of its [2^k] values. *)
Lemma tree_sum_linear (k : nat) :
  forall xs : list T, length xs = (2 ^ k)%nat -> tree_sum k xs = linear_sum xs.
Proof.
  destruct exact as (Hassoc & Hcomm & Hzero).
  induction k as [|k IH]; intros xs Hlen.
  - destruct xs as [|x [|y xs]]; try discriminate.
    cbn. unfold linear_sum. cbn. rewrite Hzero. reflexivity.
  - cbn [tree_sum]. change (2 ^ S k)%nat with (2 * 2 ^ k)%nat in Hlen.
    rewrite IH by (apply halve_length; lia).
    unfold halve. rewrite linear_sum_zip, <- linear_sum_app, take_drop.
    + reflexivity.
    + rewrite length_take, length_drop. lia.
Qed.

Lemma group_succ (w g : nat) (xs : list T) :
  group w (S g) xs = group w g (drop w xs).
Proof. unfold group. rewrite drop_drop. reflexivity. Qed.

(** The plain sum of the tree sums of [G] consecutive groups is the plain
    sum of all their values. *)
Lemma group_sums_linear (k G : nat) :
  forall xs : list T,
    length xs = (G * 2 ^ k)%nat ->
    linear_sum (map (fun g => tree_sum k (group (2 ^ k) g xs)) (seq 0 G)) =
    linear_sum xs.
Proof.
  induction G as [|G IH]; intros xs Hlen.
  - destruct xs; [reflexivity | discriminate].
  - cbn [seq map]. rewrite <- seq_shift, map_map.
    rewrite linear_sum_cons.
    rewrite (map_ext _ (fun g => tree_sum k (group (2 ^ k) g (drop (2 ^ k) xs))))
      by (intros g; rewrite group_succ; reflexivity).
    rewrite IH by (rewrite length_drop; lia).
    rewrite tree_sum_linear by (apply length_group; lia).
    unfold group. rewrite drop_0, <- linear_sum_app, take_drop. reflexivity.
Qed.

(** The two-level reduction is the reference sum when the groups divide the
    arrays evenly. *)
Lemma two_level_reference (k : nat) (a b : list T) :
  (length (products a b) mod 2 ^ k = 0)%nat ->
  two_level k a b = reference_sum a b.
Proof.
  intros Hdiv. unfold two_level, reference_sum, partial_sums.
  apply group_sums_linear.
  pose proof (pow2_pos k) as Hp.
  pose proof (Nat.div_mod_eq (length (products a b)) (2 ^ k)). lia.
Qed.

End ExactSums.

(** ** The dot product *)

Section DotProduct.

Context {T : Type} {ElemT : Elem T}.
Variable WGSIZE : Z.
Variable indeterminate : nat -> nat -> T.

(** C1, as amended. When [WGSIZE] is a power of two that fits an [int], on
    every constructed engine whose [array_size] is a multiple of [WGSIZE],
    [write_arrays(A, B, _)] followed by [dot()] returns the two-level
    reduction of the products [A[i] * B[i]]: the tree sum of each work-group of
    [WGSIZE] products, then the sum of these partial sums in ascending order
    with one accumulator started at zero. Where the addition of the element
    type is exact (associative and commutative, with zero as identity) this
    is the reference sum of the products. *)
Theorem dot_two_level_reduction (k : nat) (e : @OCLStream T) (A B C : list T) :
  WGSIZE = 2 ^ Z.of_nat k -> WGSIZE < 2 ^ 31 ->
  constructed WGSIZE indeterminate e ->
  array_size e mod WGSIZE = 0 ->
  fits e A -> fits e B -> fits e C ->
  exists e',
    (write_arrays A B C;; dot WGSIZE indeterminate) e = (Ok (two_level k A B), e') /\
    (exact_addition -> two_level k A B = reference_sum A B).
Proof.
  intros HW Hint Hc Hdiv HA HB HC. apply constructed_ok in Hc.
  pose proof Hc as (Harr & Hs & Hsums). pose proof Harr as (Hn & _).
  unfold fits in *. eexists. split.
  - ounfold. rewrite write_arrays_run by assumption.
    rewrite (dot_run WGSIZE indeterminate k);
      [reflexivity | assumption | assumption | | exact Hdiv].
    unfold engine_ok, arrays_ok. cbn. repeat split; assumption.
  - intros Hexact. apply two_level_reference; [exact Hexact|].
    unfold products. rewrite length_zip_with, HA, HB, Nat.min_id.
    pose proof (pow2_pos k) as Hp.
    apply Nat2Z.inj. rewrite Nat2Z.inj_mod, pow2_Z, <- HW, Z2Nat.id by lia.
    exact Hdiv.
Qed.

End DotProduct.

(** ** Floating-point sums *)

(** C1, as stated, fails on [OCLStream<double>] with [WGSIZE = 64]: for the
    vectors [cancelling] and [ones 64] the exact sum of the products is 1,
    and [dot()] returns 0, which is not within 1e-12 of it. *)
Lemma dot_tolerance_counterexample :
  exists r,
    after_construction
      (OCLStream_new 64 stale_double 64 0 (fresh_world [[gpu]]))
      (write_arrays cancelling (ones 64) (ones 64);; dot 64 stale_double) = Ok r /\
    exact_dot cancelling (ones 64) = Some 1%Q /\
    real_of_double r = Some 0%Q /\
    ~ dot_within_tolerance (1 # 10 ^ 12) r cancelling (ones 64).
Proof.
  assert (Hfar : Qle_bool (Qabs (0 - 1)) ((1 # 10 ^ 12) * Qabs 1) = false)
    by (vm_compute; reflexivity).
  assert (Href : exact_dot cancelling (ones 64) = Some 1%Q)
    by (vm_compute; reflexivity).
  exists (IEEE.mk_double (S754_zero false)).
  split; [vm_compute; reflexivity|].
  split; [exact Href | split; [reflexivity|]].
  intros (x & ref & Hx & Hy & Htol).
  injection Hx as <-.
  rewrite Href in Hy. injection Hy as <-.
  unfold within_relative_tolerance in Htol.
  apply Qle_bool_iff in Htol. rewrite Hfar in Htol. discriminate.
Qed.

(** The same cancellation with work-groups of 256 and of 1024 lanes. *)
Example dot_cancellation_other_sizes :
  after_construction
    (OCLStream_new 256 stale_double 256 0 (fresh_world [[gpu]]))
    (write_arrays (cancelling ++ repeat (IEEE.double_of 0 0) 192) (ones 256) (ones 256);;
     dot 256 stale_double) = Ok (IEEE.double_of 0 0) /\
  after_construction
    (OCLStream_new 1024 stale_double 1024 0 (fresh_world [[gpu]]))
    (write_arrays (cancelling ++ repeat (IEEE.double_of 0 0) 960) (ones 1024) (ones 1024);;
     dot 1024 stale_double) = Ok (IEEE.double_of 0 0).
Proof. split; vm_compute; reflexivity. Qed.

(** The scenario of the specification: [array_size = 1024], [WGSIZE = 64],
    [A] all 1.0 and [B] all 2.0 give 2048.0. *)
Example dot_scenario :
  after_construction
    (OCLStream_new 64 stale_double 1024 0 (fresh_world [[gpu]]))
    (write_arrays (ones 1024) (twos 1024) (ones 1024);; dot 64 stale_double)
  = Ok (IEEE.double_of 2048 0).
Proof. vm_compute. reflexivity. Qed.

(** The constant [scalar] of both instantiations is 3/10 rounded to
    nearest. *)
Example scalar_is_0_3 :
  IEEE.double_val (scalar (T := IEEE.double)) =
    SFdiv 53 1024 (IEEE.double_val (IEEE.double_of 3 0))
                  (IEEE.double_val (IEEE.double_of 10 0)) /\
  IEEE.float_val (scalar (T := IEEE.float)) =
    SFdiv 24 128 (IEEE.float_val (IEEE.float_of 3 0))
                 (IEEE.float_val (IEEE.float_of 10 0)).
Proof. split; vm_compute; reflexivity. Qed.

(** Integer addition is exact. *)
Lemma Z_exact_addition : exact_addition (T := Z).
Proof. repeat split; intros; cbn; lia. Defined.

(** ** The operation theorems at sample inputs *)

Lemma small_engine_constructed : constructed 64 stale_double small_engine.
Proof.
  apply (constructed_new 64 stale_double 4 0 (fresh_world [[gpu]]) small_engine
           (snd (OCLStream_new 64 stale_double 4 0 (fresh_world [[gpu]])))).
  - exact double_is_float_or_double.
  - reflexivity.
  - split; vm_compute; congruence.
  - vm_compute. reflexivity.
Defined.

Lemma exact_engine_constructed : constructed 4 stale_Z exact_engine.
Proof.
  apply (constructed_new 4 stale_Z 8 0 (fresh_world [[gpu]]) exact_engine
           (snd (OCLStream_new 4 stale_Z 8 0 (fresh_world [[gpu]])))).
  - right. reflexivity.
  - reflexivity.
  - split; vm_compute; congruence.
  - vm_compute. reflexivity.
Defined.

Lemma mul_scales_c_witness :
  constructed 64 stale_double small_engine /\
  exists e',
    (write_arrays (ones 4) (ones 4) (twos 4);; mul;; read_arrays (ones 4) (ones 4) (ones 4))
      small_engine
    = (Ok (ones 4, map (T_mul scalar) (twos 4), twos 4), e').
Proof.
  split; [exact small_engine_constructed|].
  destruct (mul_scales_c 64 stale_double small_engine
              (ones 4) (ones 4) (twos 4) (ones 4) (ones 4) (ones 4)
              small_engine_constructed eq_refl eq_refl eq_refl eq_refl eq_refl eq_refl)
    as (b' & e' & Hrun & -> & _).
  exists e'. exact Hrun.
Defined.

Lemma triad_combines_b_c_witness :
  constructed 64 stale_double small_engine /\
  exists a' e',
    (write_arrays (ones 4) (ones 4) (twos 4);; triad;;
     read_arrays (ones 4) (ones 4) (ones 4)) small_engine
    = (Ok (a', ones 4, twos 4), e') /\
    a' !! 0%nat = Some (T_add (IEEE.double_of 1 0) (T_mul scalar (IEEE.double_of 2 0))).
Proof.
  split; [exact small_engine_constructed|].
  destruct (triad_combines_b_c 64 stale_double small_engine
              (ones 4) (ones 4) (twos 4) (ones 4) (ones 4) (ones 4)
              small_engine_constructed eq_refl eq_refl eq_refl eq_refl eq_refl eq_refl)
    as (a' & e' & Hrun & _ & Hpoint).
  exists a', e'. split; [exact Hrun|].
  apply Hpoint; reflexivity.
Defined.

Lemma dot_two_level_reduction_witness :
  let A := [1; 2; 3; 4; 5; 6; 7; 8] in
  let B := [1; 1; 1; 1; 2; 2; 2; 2] in
  4 = 2 ^ Z.of_nat 2 /\ 4 < 2 ^ 31 /\
  constructed 4 stale_Z exact_engine /\
  array_size exact_engine mod 4 = 0 /\
  exact_addition (T := Z) /\
  exists e',
    (write_arrays A B A;; dot 4 stale_Z) exact_engine = (Ok (two_level 2 A B), e') /\
    two_level 2 A B = reference_sum A B.
Proof.
  intros A B.
  split; [reflexivity|]. split; [reflexivity|].
  split; [exact exact_engine_constructed|]. split; [reflexivity|].
  split; [exact Z_exact_addition|].
  destruct (dot_two_level_reduction 4 stale_Z 2 exact_engine A B A
              eq_refl eq_refl exact_engine_constructed eq_refl eq_refl eq_refl eq_refl)
    as (e' & Hrun & Hexact).
  exists e'. split; [exact Hrun | exact (Hexact Z_exact_addition)].
Defined.

(** ** The order of the work-items

    [NDRange] runs the work-items in ascending order. Between two barriers
    the work-items of every kernel commute, so any other order leaves the
    same memory. *)

Section WorkItemOrder.

Context {T : Type} {ElemT : Elem T}.
Variable WGSIZE : Z.
Variable indeterminate : nat -> nat -> T.

Lemma fold_any_order {S : Type} (item : nat -> S -> S) (l1 l2 : list nat) :
  l1 ≡ₚ l2 ->
  (forall i j s, i <> j -> item j (item i s) = item i (item j s)) ->
  forall s, fold_left (fun s i => item i s) l1 s = fold_left (fun s i => item i s) l2 s.
Proof.
  intros Hperm Hcomm. induction Hperm as [|x l1 l2 _ IH|x y l|l1 l2 l3 _ IH1 _ IH2];
    intros s; cbn [fold_left].
  - reflexivity.
  - apply IH.
  - destruct (decide (x = y)) as [->|Hne]; [reflexivity|].
    rewrite (Hcomm y x s) by congruence. reflexivity.
  - rewrite IH1. apply IH2.
Qed.

Lemma NDRange_any_order {S : Type} (item : nat -> S -> S) (n : Z) (order : list nat) :
  order ≡ₚ seq 0 (Z.to_nat n) ->
  (forall i j s, i <> j -> item j (item i s) = item i (item j s)) ->
  forall s, fold_left (fun s i => item i s) order s = NDRange n item s.
Proof. intros Hperm Hcomm s. unfold NDRange. apply fold_any_order; assumption. Qed.

Lemma copy_kernel_commute (a : list T) (i j : nat) (c : list T) :
  i <> j -> copy_kernel j a (copy_kernel i a c) = copy_kernel i a (copy_kernel j a c).
Proof.
  intros Hne. unfold copy_kernel.
  destruct (a !! i), (a !! j); try reflexivity.
  apply list_insert_insert_ne. congruence.
Qed.

Lemma mul_kernel_commute (c : list T) (i j : nat) (b : list T) :
  i <> j -> mul_kernel j (mul_kernel i b c) c = mul_kernel i (mul_kernel j b c) c.
Proof.
  intros Hne. unfold mul_kernel.
  destruct (c !! i), (c !! j); try reflexivity.
  apply list_insert_insert_ne. congruence.
Qed.

Lemma add_kernel_commute (a b : list T) (i j : nat) (c : list T) :
  i <> j ->
  add_kernel j a b (add_kernel i a b c) = add_kernel i a b (add_kernel j a b c).
Proof.
  intros Hne. unfold add_kernel.
  destruct (a !! i), (b !! i), (a !! j), (b !! j); try reflexivity.
  apply list_insert_insert_ne. congruence.
Qed.

Lemma triad_kernel_commute (b c : list T) (i j : nat) (a : list T) :
  i <> j ->
  triad_kernel j (triad_kernel i a b c) b c = triad_kernel i (triad_kernel j a b c) b c.
Proof.
  intros Hne. unfold triad_kernel.
  destruct (b !! i), (c !! i), (b !! j), (c !! j); try reflexivity.
  apply list_insert_insert_ne. congruence.
Qed.

Lemma stream_dot_load_commute (a b : list T) (base i j : nat) (wg : list T) :
  i <> j ->
  stream_dot_load a b (base + j) j (stream_dot_load a b (base + i) i wg) =
  stream_dot_load a b (base + i) i (stream_dot_load a b (base + j) j wg).
Proof.
  intros Hne. unfold stream_dot_load.
  destruct (a !! (base + i)%nat), (b !! (base + i)%nat),
           (a !! (base + j)%nat), (b !! (base + j)%nat); try reflexivity.
  apply list_insert_insert_ne. congruence.
Qed.

(** Inside one phase of the loop a lane writes its own slot and reads it and
    the slot [offset] further, which no other lane of the phase writes. *)
Lemma stream_dot_step_commute (offset : Z) (i j : nat) (wg : list T) :
  i <> j ->
  stream_dot_step offset j (stream_dot_step offset i wg) =
  stream_dot_step offset i (stream_dot_step offset j wg).
Proof.
  intros Hne. unfold stream_dot_step.
  destruct (Z.ltb_spec (Z.of_nat i) offset) as [Hi|_]; [|reflexivity].
  destruct (Z.ltb_spec (Z.of_nat j) offset) as [Hj|_]; [|reflexivity].
  destruct (wg !! i) as [xi|] eqn:Ei, (wg !! (i + Z.to_nat offset)%nat) as [yi|] eqn:Ei',
           (wg !! j) as [xj|] eqn:Ej, (wg !! (j + Z.to_nat offset)%nat) as [yj|] eqn:Ej';
    rewrite ?list_lookup_insert_ne by lia;
    rewrite ?Ei, ?Ei', ?Ej, ?Ej'; try reflexivity.
  apply list_insert_insert_ne. congruence.
Qed.

Lemma stream_dot_group_commute (local_size : Z) (a b : list T) (g h : nat)
    (sum : list T) :
  g <> h ->
  stream_dot_group WGSIZE indeterminate local_size a b h
    (stream_dot_group WGSIZE indeterminate local_size a b g sum) =
  stream_dot_group WGSIZE indeterminate local_size a b g
    (stream_dot_group WGSIZE indeterminate local_size a b h sum).
Proof.
  intros Hne. unfold stream_dot_group. cbv zeta.
  repeat match goal with
         | |- context [match ?o with Some _ => _ | None => _ end] =>
             destruct o
         end; try reflexivity.
  apply list_insert_insert_ne. congruence.
Qed.

(** Whatever the order in which the work-items of a launch run, the four
    array kernels leave the memory that [NDRange] computes. *)
Lemma array_kernels_any_order (n : Z) (order : list nat) (a b c : list T) :
  order ≡ₚ seq 0 (Z.to_nat n) ->
  fold_left (fun s i => copy_kernel i a s) order c
    = NDRange n (fun i s => copy_kernel i a s) c /\
  fold_left (fun s i => mul_kernel i s c) order b
    = NDRange n (fun i s => mul_kernel i s c) b /\
  fold_left (fun s i => add_kernel i a b s) order c
    = NDRange n (fun i s => add_kernel i a b s) c /\
  fold_left (fun s i => triad_kernel i s b c) order a
    = NDRange n (fun i s => triad_kernel i s b c) a.
Proof.
  intros Hperm. repeat split; apply NDRange_any_order; try exact Hperm; intros i j s Hne.
  - apply copy_kernel_commute, Hne.
  - apply mul_kernel_commute, Hne.
  - apply add_kernel_commute, Hne.
  - apply triad_kernel_commute, Hne.
Qed.

(** The same for the phases of the dot kernel and for its work-groups. *)
Lemma dot_phases_any_order (local_size offset : Z) (order : list nat)
    (a b wg : list T) (base : nat) :
  order ≡ₚ seq 0 (Z.to_nat local_size) ->
  fold_left (fun s l => stream_dot_load a b (base + l) l s) order wg
    = NDRange local_size (fun l s => stream_dot_load a b (base + l) l s) wg /\
  fold_left (fun s l => stream_dot_step offset l s) order wg
    = NDRange local_size (stream_dot_step offset) wg.
Proof.
  intros Hperm. split; apply NDRange_any_order; try exact Hperm; intros i j s Hne.
  - apply stream_dot_load_commute, Hne.
  - apply stream_dot_step_commute, Hne.
Qed.

Lemma dot_groups_any_order (global_size local_size : Z) (order : list nat)
    (a b sum : list T) :
  order ≡ₚ seq 0 (Z.to_nat (global_size / local_size)) ->
  fold_left (fun s g => stream_dot_group WGSIZE indeterminate local_size a b g s)
            order sum
  = stream_dot_kernel WGSIZE indeterminate global_size local_size a b sum.
Proof.
  intros Hperm. unfold stream_dot_kernel.
  apply (fold_any_order
           (fun g s => stream_dot_group WGSIZE indeterminate local_size a b g s));
    [exact Hperm|].
  intros g h s Hne. apply stream_dot_group_commute, Hne.
Qed.

End WorkItemOrder.

(** ** Further evaluations *)

(** Addition on [double] is not exact: it is not associative. *)
Example double_addition_not_exact : ~ exact_addition (T := IEEE.double).
Proof.
  intros (Hassoc & _ & _).
  specialize (Hassoc (IEEE.double_of (- 2 ^ 53) 0) (IEEE.double_of (2 ^ 53) 0)
                (IEEE.double_of 1 0)).
  assert (Hl : T_add (IEEE.double_of (- 2 ^ 53) 0)
                 (T_add (IEEE.double_of (2 ^ 53) 0) (IEEE.double_of 1 0))
               = IEEE.mk_double (S754_zero false)) by (vm_compute; reflexivity).
  assert (Hr : T_add (T_add (IEEE.double_of (- 2 ^ 53) 0) (IEEE.double_of (2 ^ 53) 0))
                 (IEEE.double_of 1 0)
               = IEEE.double_of 1 0) by (vm_compute; reflexivity).
  rewrite Hl, Hr in Hassoc.
  assert (Hd : IEEE.double_val (IEEE.double_of 1 0) <> S754_zero false)
    by (vm_compute; discriminate).
  apply Hd. rewrite <- Hassoc. reflexivity.
Qed.


(** ** More on the operations *)

Section MoreOperations.

Context {T : Type} {ElemT : Elem T}.
Variable WGSIZE : Z.
Variable indeterminate : nat -> nat -> T.

Lemma arrays_ok_written (e : @OCLStream T) (A B C : list T) :
  arrays_ok e -> fits e A -> fits e B -> fits e C ->
  arrays_ok (mkOCLStream (array_size e) (device e) A B C (d_sum e) (sums e)).
Proof.
  intros (Hn & _) HA HB HC. unfold fits in *. repeat split; cbn; assumption.
Qed.

Lemma zip_with_maps {A B C D} (f : B -> C -> D) (g : A -> B) (h : A -> C) (l : list A) :
  zip_with f (map g l) (map h l) = map (fun x => f (g x) (h x)) l.
Proof. induction l as [|x l IH]; cbn; [reflexivity | rewrite IH; reflexivity]. Qed.

Lemma zip_with_map_r {A C D} (f : A -> C -> D) (h : A -> C) (l : list A) :
  zip_with f l (map h l) = map (fun x => f x (h x)) l.
Proof. induction l as [|x l IH]; cbn; [reflexivity | rewrite IH; reflexivity]. Qed.

(** X1. On every constructed engine, [write_arrays(A, B, _)], [copy()] and
    [read_arrays] give back [c] equal to [A], with [a] and [b] as written. *)
Theorem copy_copies_a (e : @OCLStream T) (A B C a b c : list T) :
  constructed WGSIZE indeterminate e ->
  fits e A -> fits e B -> fits e C -> fits e a -> fits e b -> fits e c ->
  exists e', (write_arrays A B C;; copy;; read_arrays a b c) e = (Ok (A, B, A), e').
Proof.
  intros Hc HA HB HC Ha Hb Hc'. apply constructed_ok in Hc as [Harr _].
  pose proof (arrays_ok_written e A B C Harr HA HB HC) as Hw.
  eexists. ounfold. rewrite write_arrays_run by assumption.
  rewrite copy_run by exact Hw. cbn [d_a d_b d_c array_size device d_sum sums].
  rewrite read_arrays_run; [reflexivity | | |  |]; try assumption.
  destruct Hw as (? & ? & ? & ?). repeat split; cbn in *; assumption.
Qed.

(** X2. On every constructed engine, [write_arrays(A, B, _)], [add()] and
    [read_arrays] give back [c] with [c[i] = A[i] + B[i]] at every index, with
    [a] and [b] as written. *)
Theorem add_sums_a_b (e : @OCLStream T) (A B C a b c : list T) :
  constructed WGSIZE indeterminate e ->
  fits e A -> fits e B -> fits e C -> fits e a -> fits e b -> fits e c ->
  exists c' e',
    (write_arrays A B C;; add;; read_arrays a b c) e = (Ok (A, B, c'), e') /\
    length c' = length A /\
    forall i x y, A !! i = Some x -> B !! i = Some y -> c' !! i = Some (T_add x y).
Proof.
  intros Hc HA HB HC Ha Hb Hc'. apply constructed_ok in Hc as [Harr _].
  pose proof (arrays_ok_written e A B C Harr HA HB HC) as Hw.
  exists (zip_with T_add A B). eexists. unfold fits in *. split; [|split].
  - ounfold. rewrite write_arrays_run by assumption.
    rewrite add_run by exact Hw. cbn [d_a d_b d_c array_size device d_sum sums].
    rewrite read_arrays_run; [reflexivity | | | |]; try assumption.
    destruct Hw as (? & ? & ? & ?).
    repeat split; cbn in *; rewrite ?length_zip_with; try assumption; lia.
  - rewrite length_zip_with. lia.
  - intros i x y Hx Hy. apply lookup_zip_with_Some. eauto.
Qed.

(** X3. On every constructed engine, what [write_arrays] stored is what
    [read_arrays] gives back, whatever the buffers held before; the transfer
    touches neither the sum buffer nor the partial sums, and a second
    [read_arrays] gives the same vectors. *)
Theorem write_read_round_trip (e : @OCLStream T) (A B C a b c : list T) :
  constructed WGSIZE indeterminate e ->
  fits e A -> fits e B -> fits e C -> fits e a -> fits e b -> fits e c ->
  exists e',
    (write_arrays A B C;; read_arrays a b c) e = (Ok (A, B, C), e') /\
    read_arrays a b c e' = (Ok (A, B, C), e') /\
    d_sum e' = d_sum e /\ sums e' = sums e.
Proof.
  intros Hc HA HB HC Ha Hb Hc'. apply constructed_ok in Hc as [Harr _].
  pose proof (arrays_ok_written e A B C Harr HA HB HC) as Hw.
  exists (mkOCLStream (array_size e) (device e) A B C (d_sum e) (sums e)).
  ounfold. rewrite write_arrays_run by assumption.
  rewrite read_arrays_run by assumption.
  repeat split; reflexivity.
Qed.

Lemma engine_step_same_size (e e' : @OCLStream T) :
  engine_step WGSIZE indeterminate e e' ->
  array_size e' = array_size e /\ device e' = device e.
Proof.
  intros Hstep. destruct Hstep.
  - split; reflexivity.
  - split; reflexivity.
  - split; reflexivity.
  - split; reflexivity.
  - unfold dot, copy_to_host, set_d_sum, set_sums, op_throw. ounfold. cbn.
    destruct (_ =? 0); cbn; [|split; reflexivity].
    destruct (_ <=? _)%nat; split; reflexivity.
  - unfold write_arrays, copy_to_device, set_d_a, set_d_b, set_d_c, op_throw.
    ounfold. cbn.
    repeat (destruct (_ <=? _)%nat; cbn; [|split; reflexivity]).
    split; reflexivity.
  - rewrite read_arrays_same. split; reflexivity.
Qed.

(** X4. The engine's invariant: on every constructed engine the three arrays
    hold [array_size] elements, and the sum buffer and the host vector of
    partial sums hold [array_size / WGSIZE] elements; no operation, failing
    or not, changes [array_size] or the device, or breaks the invariant. *)
Theorem constructed_engine_invariant (e : @OCLStream T) :
  constructed WGSIZE indeterminate e ->
  engine_ok WGSIZE e /\
  forall e', engine_step WGSIZE indeterminate e e' ->
             array_size e' = array_size e /\ device e' = device e /\
             engine_ok WGSIZE e'.
Proof.
  intros Hc. pose proof (constructed_ok WGSIZE indeterminate e Hc) as Hok.
  split; [exact Hok|]. intros e' Hstep.
  destruct (engine_step_same_size e e' Hstep) as [Hn Hd].
  split; [exact Hn | split; [exact Hd|]].
  exact (engine_step_ok WGSIZE indeterminate e e' Hok Hstep).
Qed.

(** X5. One pass of the benchmark, [copy(); mul(); add(); triad()], on a
    constructed engine: the three arrays then depend on the former [a] only,
    [b[i] = s*a[i]], [c[i] = a[i] + s*a[i]] and
    [a[i] = s*a[i] + s*(a[i] + s*a[i])] with [s] the constant [scalar]. *)
Theorem stream_pass (e : @OCLStream T) :
  constructed WGSIZE indeterminate e ->
  exists e',
    (copy;; mul;; add;; triad) e = (Ok tt, e') /\
    d_b e' = map (fun x => T_mul scalar x) (d_a e) /\
    d_c e' = map (fun x => T_add x (T_mul scalar x)) (d_a e) /\
    d_a e' = map (fun x => T_add (T_mul scalar x)
                             (T_mul scalar (T_add x (T_mul scalar x)))) (d_a e).
Proof.
  intros Hc. apply constructed_ok in Hc as [Harr _].
  pose proof Harr as (Hn & Ha & Hb & Hcc).
  eexists. split.
  - ounfold. rewrite copy_run by exact Harr.
    rewrite mul_run by (repeat split; cbn; assumption).
    cbn [d_a d_b d_c array_size device d_sum sums].
    rewrite add_run by (repeat split; cbn; rewrite ?length_map; assumption).
    cbn [d_a d_b d_c array_size device d_sum sums].
    rewrite triad_run
      by (repeat split; cbn; rewrite ?length_map, ?length_zip_with, ?length_map;
          try assumption; lia).
    reflexivity.
  - cbn [d_a d_b d_c]. rewrite zip_with_map_r.
    split; [reflexivity | split; [reflexivity|]].
    apply (zip_with_maps (fun b c => T_add b (T_mul scalar c))
                         (T_mul scalar) (fun x => T_add x (T_mul scalar x))).
Qed.

(** X6. [dot] can be repeated: on a constructed engine whose [array_size] is
    a multiple of [WGSIZE], a power of two, a second call returns the value
    of the first and leaves the engine as the first left it, the sum buffer
    and the partial sums holding the tree sum of each work-group. *)
Theorem dot_repeatable (k : nat) (e : @OCLStream T) :
  WGSIZE = 2 ^ Z.of_nat k -> WGSIZE < 2 ^ 31 ->
  constructed WGSIZE indeterminate e ->
  array_size e mod WGSIZE = 0 ->
  exists v e',
    dot WGSIZE indeterminate e = (Ok v, e') /\
    dot WGSIZE indeterminate e' = (Ok v, e') /\
    d_sum e' = partial_sums k (products (d_a e) (d_b e)) /\
    sums e' = d_sum e'.
Proof.
  intros HW Hint Hc Hdiv. pose proof (constructed_ok _ _ _ Hc) as Hok.
  assert (Hstep : engine_ok WGSIZE (snd (dot WGSIZE indeterminate e)))
    by (apply dot_ok, Hok).
  rewrite (dot_run WGSIZE indeterminate k e HW Hint Hok Hdiv) in Hstep |- *.
  eexists _, _. split; [reflexivity|]. cbn [snd] in Hstep.
  rewrite (dot_run WGSIZE indeterminate k _ HW Hint Hstep Hdiv).
  repeat split; reflexivity.
Qed.

End MoreOperations.

(** ** More on the device cache *)

Lemma keeps_cache_ret {A} (a : A) : keeps_cache (mret a : M A).
Proof. intros w. reflexivity. Qed.

Lemma keeps_cache_throw {A} (e : exn) : keeps_cache (@throw A e).
Proof. intros w. reflexivity. Qed.

Lemma keeps_cache_emit (e : event) : keeps_cache (emit e).
Proof. intros w. reflexivity. Qed.

Lemma keeps_cache_bind {A B} (m : M A) (f : A -> M B) :
  keeps_cache m -> (forall a, keeps_cache (f a)) -> keeps_cache (m ≫= f).
Proof.
  intros Hm Hf w. specialize (Hm w). munfold.
  destruct (m w) as [[a|e] w1]; cbn in *.
  - rewrite Hf. exact Hm.
  - exact Hm.
Qed.

Lemma keeps_cache_try_catch {A} (m : M A) (h : Z -> M A) :
  keeps_cache m -> (forall err, keeps_cache (h err)) -> keeps_cache (try_catch_cl m h).
Proof.
  intros Hm Hh w. specialize (Hm w). unfold try_catch_cl.
  destruct (m w) as [[a|[what|err|err blog|]] w1]; cbn in *; try exact Hm.
  - rewrite Hh. exact Hm.
  - rewrite Hh. exact Hm.
Qed.

Lemma keeps_cache_errHandler (status : Z) : keeps_cache (errHandler status).
Proof.
  unfold errHandler. destruct (status =? CL_SUCCESS);
    [apply keeps_cache_ret | apply keeps_cache_throw].
Qed.

Lemma keeps_cache_buildErrHandler (status : Z) (blog : string) :
  keeps_cache (buildErrHandler status blog).
Proof.
  unfold buildErrHandler. destruct (status =? CL_SUCCESS);
    [apply keeps_cache_ret | apply keeps_cache_throw].
Qed.

Lemma cache_of_log (w : world) (t : list event) : cache_of (log w t) = cache_of w.
Proof. reflexivity. Qed.

Lemma cache_of_populated (w : world) :
  cache_of (populated w) =
  (platforms w, true, if cached w then devices w else devices w ++ concat (platforms w)).
Proof.
  unfold populated, cache_of. destruct (cached w) eqn:E; cbn; rewrite ?E; reflexivity.
Qed.

Section CacheOfConstructor.

Context {T : Type} {ElemT : Elem T}.
Variable WGSIZE : Z.
Variable indeterminate : nat -> nat -> T.

Lemma keeps_cache_Program_build (dev : Device) (o : string) :
  keeps_cache (Program_build dev o).
Proof.
  unfold Program_build. apply keeps_cache_bind; [apply keeps_cache_emit|].
  intros _. apply keeps_cache_buildErrHandler.
Qed.

Lemma keeps_cache_KernelFunctor (dev : Device) (built : bool) (name : string) :
  keeps_cache (KernelFunctor dev built name).
Proof.
  unfold KernelFunctor. apply keeps_cache_bind; [apply keeps_cache_emit|].
  intros _. apply keeps_cache_errHandler.
Qed.

Lemma keeps_cache_cl_Buffer (dev : Device) (which : nat) (flags bytes : Z) :
  keeps_cache (cl_Buffer indeterminate dev which flags bytes).
Proof.
  unfold cl_Buffer. apply keeps_cache_bind; [apply keeps_cache_emit | intros _].
  apply keeps_cache_bind; [apply keeps_cache_errHandler | intros _].
  apply keeps_cache_ret.
Qed.

Lemma keeps_cache_build_program (dev : Device) : keeps_cache (build_program dev).
Proof.
  unfold build_program. destruct (sizeof =? sizeof_double).
  - apply keeps_cache_bind; [apply keeps_cache_emit | intros _].
    destruct (_ =? 0); [apply keeps_cache_throw|].
    apply keeps_cache_try_catch.
    + apply keeps_cache_bind; [apply keeps_cache_Program_build | intros _].
      apply keeps_cache_ret.
    + intros err. destruct (err =? _); [|apply keeps_cache_ret].
      apply keeps_cache_bind; [apply keeps_cache_emit | intros _].
      apply keeps_cache_throw.
  - destruct (sizeof =? sizeof_float); [|apply keeps_cache_ret].
    apply keeps_cache_bind; [apply keeps_cache_Program_build | intros _].
    apply keeps_cache_ret.
Qed.

Lemma keeps_cache_create_kernels (dev : Device) (built : bool) :
  keeps_cache (create_kernels dev built).
Proof.
  unfold create_kernels.
  repeat (apply keeps_cache_bind; [apply keeps_cache_KernelFunctor | intros _]).
  apply keeps_cache_KernelFunctor.
Qed.

Lemma keeps_cache_check_and_allocate (dev : Device) (n : Z) :
  keeps_cache (check_and_allocate WGSIZE indeterminate dev n).
Proof.
  unfold check_and_allocate. cbv zeta.
  destruct (_ <? _); [apply keeps_cache_throw|].
  destruct (_ <? _); [apply keeps_cache_throw|].
  repeat (apply keeps_cache_bind; [apply keeps_cache_cl_Buffer | intros ?]).
  apply keeps_cache_ret.
Qed.

(** The constructor touches the cache through its guard only. *)
Lemma cache_of_OCLStream_new (ARRAY_SIZE device_index : Z) (w : world) :
  cache_of (snd (OCLStream_new WGSIZE indeterminate ARRAY_SIZE device_index w)) =
  cache_of (populated w).
Proof.
  destruct (Z_le_gt_dec (device_count w) (Mach.to_size_t device_index)) as [Hout|Hin].
  - rewrite OCLStream_new_invalid by exact Hout. reflexivity.
  - destruct (lookup_lt_is_Some_2 (devices (populated w))
                (Z.to_nat (Mach.to_size_t device_index))) as [dev Hdev].
    { unfold device_count in Hin.
      assert (0 <= Mach.to_size_t device_index)
        by (unfold Mach.to_size_t, Mach.SIZE_MAX1; apply Z.mod_pos_bound; lia).
      lia. }
    rewrite (OCLStream_new_valid WGSIZE indeterminate _ _ _ dev) by (lia || exact Hdev).
    match goal with
    | |- cache_of (snd (?m _)) = _ => assert (Hk : keeps_cache m)
    end.
    { apply keeps_cache_bind; [apply keeps_cache_build_program | intros built].
      apply keeps_cache_bind; [apply keeps_cache_create_kernels | intros _].
      apply keeps_cache_check_and_allocate. }
    rewrite Hk. apply cache_of_log.
Qed.

(** X8. The guarded callers enumerate at most once: after a name lookup, a
    driver lookup or a construction, failed or not, the cache is marked
    populated, and its devices are those it held if it was populated before,
    and those followed by the devices of every platform if it was not. *)
Theorem guarded_callers_enumerate_once (ARRAY_SIZE device_index : Z) (w : world) :
  let after :=
    (platforms w, true,
     if cached w then devices w else devices w ++ concat (platforms w)) in
  cache_of (snd (getDeviceName device_index w)) = after /\
  cache_of (snd (getDeviceDriver device_index w)) = after /\
  cache_of (snd (OCLStream_new WGSIZE indeterminate ARRAY_SIZE device_index w)) = after.
Proof.
  cbv zeta. rewrite <- cache_of_populated.
  rewrite getDeviceName_run, getDeviceDriver_run, cache_of_OCLStream_new.
  repeat split; reflexivity.
Qed.

End CacheOfConstructor.

(** X7. [getDeviceList] always returns, marks the cache populated, and
    appends to the cached devices the devices of every platform, platform by
    platform in the order of the platforms and in each platform's own
    order. *)
Theorem getDeviceList_appends_in_order (w : world) :
  fst (getDeviceList w) = Ok tt /\
  cache_of (snd (getDeviceList w)) =
    (platforms w, true, devices w ++ concat (platforms w)) /\
  emitted w (snd (getDeviceList w)) = [ev_platform_get].
Proof.
  rewrite getDeviceList_run. repeat split.
  unfold enumerated. apply emitted_app. reflexivity.
Qed.

(** The printing loop over the devices [rest] that follow [pre] in a
    populated cache. *)
Lemma listDevices_loop_run (rest : list Device) :
  forall (pre : list Device) (w : world),
    cached w = true -> devices w = pre ++ rest ->
    Z.of_nat (length (devices w)) < 2 ^ 63 ->
    listDevices_loop (length rest) (Z.of_nat (length pre)) w =
    (Ok tt, log w (device_lines (Z.of_nat (length pre)) rest)).
Proof.
  induction rest as [|d rest IH]; intros pre w Hc Hds Hlen.
  - cbn. rewrite log_nil. reflexivity.
  - cbn [length listDevices_loop device_lines].
    assert (Hname : getDeviceName (Z.of_nat (length pre)) w = (Ok (CL_DEVICE_NAME d), w)).
    { assert (Hl : length (devices w) = (length pre + S (length rest))%nat)
        by (rewrite Hds, length_app; reflexivity).
      rewrite getDeviceName_run, (populated_of_cached w Hc). f_equal.
      unfold lookup_info.
      rewrite to_size_t_small by (unfold Mach.SIZE_MAX1; lia).
      destruct (Z.ltb_spec (Z.of_nat (length pre)) (Z.of_nat (length (devices w))));
        [|lia].
      rewrite Nat2Z.id, Hds, lookup_app_r, Nat.sub_diag by lia. reflexivity. }
    erewrite bind_run; [| exact Hname].
    erewrite bind_run; [| apply emit_run].
    replace (Z.of_nat (length pre) + 1) with (Z.of_nat (length (pre ++ [d])))
      by (rewrite length_app; cbn; lia).
    rewrite (IH (pre ++ [d])).
    + rewrite log_log. reflexivity.
    + exact Hc.
    + cbn. rewrite Hds, <- app_assoc. reflexivity.
    + exact Hlen.
Qed.

(** X9. With no device to list, a cache without devices and platforms
    without devices, [listDevices] writes "No devices found." to the error
    stream and nothing to the output stream, returns normally and leaves an
    empty populated cache. *)
Theorem listDevices_no_devices (w : world) :
  devices w ++ concat (platforms w) = [] ->
  listDevices w =
  (Ok tt,
   mkWorld (platforms w) true []
     (trace w ++ [ev_platform_get; ev_cerr [tok_str "No devices found."; tok_endl]])).
Proof.
  intros Hnone. unfold listDevices.
  erewrite bind_run; [| apply getDeviceList_run].
  erewrite bind_run; [| reflexivity].
  unfold enumerated. cbn [devices]. rewrite Hnone.
  change (Z.of_nat (length (@nil Device)) =? 0) with true. cbn iota.
  rewrite emit_run. unfold log. cbn. rewrite <- app_assoc. reflexivity.
Qed.

(** X10. With devices to list, fewer than 2^31, [listDevices] prints an empty
    line, the line "Devices:", one line "index: name" for each device of the
    cache in cache order, the indices counting from 0, and an empty line; it
    lists the devices the cache held before followed by those of every
    platform. *)
Theorem listDevices_prints_catalog (w : world) :
  devices w ++ concat (platforms w) <> [] ->
  Z.of_nat (length (devices w ++ concat (platforms w))) < 2 ^ 31 ->
  listDevices w =
  (Ok tt,
   mkWorld (platforms w) true (devices w ++ concat (platforms w))
     (trace w ++
      [ev_platform_get; ev_cout [tok_endl]; ev_cout [tok_str "Devices:"; tok_endl]] ++
      device_lines 0 (devices w ++ concat (platforms w)) ++
      [ev_cout [tok_endl]])).
Proof.
  intros Hsome Hlen. unfold listDevices.
  erewrite bind_run; [| apply getDeviceList_run].
  erewrite bind_run; [| reflexivity].
  unfold enumerated at 1. cbn [devices].
  destruct (Z.eqb_spec (Z.of_nat (length (devices w ++ concat (platforms w)))) 0)
    as [E0|_].
  { destruct (devices w ++ concat (platforms w)); [contradiction | discriminate]. }
  erewrite bind_run; [| apply emit_run].
  erewrite bind_run; [| apply emit_run].
  erewrite bind_run;
    [| apply (listDevices_loop_run (devices w ++ concat (platforms w)) []);
       [reflexivity | reflexivity | cbn; lia]].
  rewrite emit_run, !log_log. unfold log, enumerated. cbn.
  rewrite <- !app_assoc. reflexivity.
Qed.

(** ** More on the constructor *)

Lemma out_of_range_as_size_t (i count : Z) :
  Mach.is_int i -> 0 <= count < 2 ^ 63 -> ~ (0 <= i < count) ->
  count <= Mach.to_size_t i.
Proof.
  intros [Hlo Hhi] Hc Hout. destruct (Z.lt_ge_cases i 0) as [Hneg|Hpos].
  - rewrite to_size_t_negative by lia.
    unfold Mach.SIZE_MAX1, Mach.INT_MIN in *. lia.
  - rewrite to_size_t_small by (unfold Mach.SIZE_MAX1, Mach.INT_MAX in *; lia).
    lia.
Qed.

Lemma device_count_nonneg (w : world) : 0 <= device_count w.
Proof. unfold device_count. lia. Qed.

Lemma kernels_created_app (t1 t2 : list event) :
  kernels_created (t1 ++ t2) = kernels_created t1 ++ kernels_created t2.
Proof. unfold kernels_created. apply flat_map_app. Qed.

Lemma kernels_created_none (t : list event) :
  Forall not_kernel_event t -> kernels_created t = [].
Proof.
  induction 1 as [|e t He _ IH]; [reflexivity|].
  unfold kernels_created in *. cbn [flat_map]. rewrite IH.
  destruct e; try reflexivity. contradiction.
Qed.

Lemma guard_events_not_kernel (w : world) : Forall not_kernel_event (guard_events w).
Proof. unfold guard_events. destruct (cached w); repeat constructor. Qed.

Section MoreConstruction.

Context {T : Type} {ElemT : Elem T}.
Variable WGSIZE : Z.
Variable indeterminate : nat -> nat -> T.

(** A construction that returns an engine had a valid index. *)
Lemma OCLStream_new_Ok_valid (ARRAY_SIZE device_index : Z) (w w' : world)
    (e : @OCLStream T) :
  OCLStream_new WGSIZE indeterminate ARRAY_SIZE device_index w = (Ok e, w') ->
  exists dev,
    Mach.to_size_t device_index < device_count w /\
    devices (populated w) !! Z.to_nat (Mach.to_size_t device_index) = Some dev.
Proof.
  intros Hnew.
  destruct (Z_le_gt_dec (device_count w) (Mach.to_size_t device_index)) as [Hout|Hin].
  - rewrite OCLStream_new_invalid in Hnew by exact Hout. discriminate.
  - destruct (lookup_lt_is_Some_2 (devices (populated w))
                (Z.to_nat (Mach.to_size_t device_index))) as [dev Hdev].
    { unfold device_count in Hin.
      assert (0 <= Mach.to_size_t device_index)
        by (unfold Mach.to_size_t, Mach.SIZE_MAX1; apply Z.mod_pos_bound; lia).
      lia. }
    exists dev. split; [lia | exact Hdev].
Qed.

Lemma yields_engine_of (dev : Device) (ARRAY_SIZE : Z) :
  yields (fun e : @OCLStream T => device e = dev /\ array_size e = ARRAY_SIZE)
    (built ← build_program dev;
     create_kernels dev built;;
     check_and_allocate WGSIZE indeterminate dev ARRAY_SIZE).
Proof.
  do 2 (apply yields_then; intros ?).
  unfold check_and_allocate. cbv zeta.
  destruct (_ <? _); [apply yields_throw|].
  destruct (_ <? _); [apply yields_throw|].
  do 4 (apply yields_then; intros ?).
  apply yields_ret. split; reflexivity.
Qed.

(** X11. A construction that returns an engine had an index inside the
    cache; the engine is bound to the device at that index and keeps the
    requested [array_size], and the first thing the constructor printed is
    the name and the driver of that device. *)
Theorem construction_selects_device
    (ARRAY_SIZE device_index : Z) (w w' : world) (e : @OCLStream T) :
  Mach.is_int device_index -> device_count w < 2 ^ 63 ->
  OCLStream_new WGSIZE indeterminate ARRAY_SIZE device_index w = (Ok e, w') ->
  0 <= device_index < device_count w /\
  devices (populated w) !! Z.to_nat device_index = Some (device e) /\
  array_size e = ARRAY_SIZE /\
  exists t, emitted w w' = guard_events w ++ banner (device e) ++ t.
Proof.
  intros Hint Hcount Hnew.
  destruct (OCLStream_new_Ok_valid _ _ _ _ _ Hnew) as (dev & Hlt & Hdev).
  assert (Hin : 0 <= device_index < device_count w).
  { destruct (Z_lt_dec device_index 0) as [Hneg|Hpos].
    - pose proof (out_of_range_as_size_t device_index (device_count w) Hint
                    (conj (device_count_nonneg w) Hcount)) as Hge.
      assert (~ (0 <= device_index < device_count w)) by lia. specialize (Hge H). lia.
    - destruct Hint as [_ Hhi].
      rewrite to_size_t_small in Hlt
        by (unfold Mach.SIZE_MAX1, Mach.INT_MAX in *; lia).
      lia. }
  assert (Eq : Mach.to_size_t device_index = device_index)
    by (apply to_size_t_small; unfold Mach.SIZE_MAX1; lia).
  rewrite Eq in Hdev, Hlt.
  rewrite (OCLStream_new_valid WGSIZE indeterminate _ _ _ dev) in Hnew
    by (rewrite Eq; assumption).
  destruct (yields_engine_of dev ARRAY_SIZE _ _ _ Hnew) as [Hd Hn].
  split; [exact Hin | split; [rewrite Hd; exact Hdev | split; [exact Hn|]]].
  assert (Hb : behaves (fun _ => True) (fun _ => True)
                 (built ← build_program dev;
                  create_kernels dev built;;
                  check_and_allocate WGSIZE indeterminate dev ARRAY_SIZE)).
  { apply behaves_bind; [apply behaves_build_program; intros; exact I | intros built].
    apply behaves_bind; [apply behaves_create_kernels; intros; exact I | intros _].
    apply behaves_check_and_allocate; intros; exact I. }
  destruct (Hb (log (populated w) (banner dev))) as (t & Et & _).
  rewrite Hnew in Et. cbn [snd log trace] in Et.
  exists t. apply emitted_app. rewrite Et, trace_populated, Hd, <- !app_assoc.
  reflexivity.
Qed.

(** X12. A device index outside the cache is rejected before anything else
    happens: the constructor has consulted the cache and nothing more, it has
    printed nothing and made no OpenCL call on a device. *)
Theorem invalid_index_touches_nothing (ARRAY_SIZE device_index : Z) (w : world) :
  Mach.is_int device_index -> device_count w < 2 ^ 63 ->
  ~ (0 <= device_index < device_count w) ->
  OCLStream_new WGSIZE indeterminate ARRAY_SIZE device_index w =
    (Throw (runtime_error msg_invalid_index), populated w) /\
  emitted w (snd (OCLStream_new WGSIZE indeterminate ARRAY_SIZE device_index w)) =
    guard_events w.
Proof.
  intros Hint Hcount Hout.
  rewrite OCLStream_new_invalid
    by (apply out_of_range_as_size_t;
        [exact Hint | exact (conj (device_count_nonneg w) Hcount) | exact Hout]).
  split; [reflexivity|]. cbn [snd]. apply emitted_app, trace_populated.
Qed.

Lemma KernelFunctor_fails (dev : Device) (built : bool) (name : string) (w : world) :
  clCreateKernel dev built name <> CL_SUCCESS ->
  KernelFunctor dev built name w =
  (Throw (cl_Error (clCreateKernel dev built name)), log w [ev_create_kernel name]).
Proof.
  intros H. unfold KernelFunctor. munfold. rewrite emit_run.
  rewrite errHandler_failure by exact H. reflexivity.
Qed.

(** X13. With the 64-bit type, a build that fails with a status other than
    CL_BUILD_PROGRAM_FAILURE does not fail the construction at the build: the
    error is caught and dropped, no build log is printed, and the constructor
    goes on to create the kernel [copy] from the program that was not built;
    when the runtime refuses that, the error of the kernel creation is what
    leaves the constructor. *)
Theorem double_build_error_is_dropped
    (ARRAY_SIZE device_index : Z) (w : world) (dev : Device) :
  sizeof = sizeof_double -> resolves w device_index dev ->
  CL_DEVICE_DOUBLE_FP_CONFIG dev <> 0 ->
  clBuildProgram dev opt_double <> CL_SUCCESS ->
  clBuildProgram dev opt_double <> CL_BUILD_PROGRAM_FAILURE ->
  clCreateKernel dev false "copy" <> CL_SUCCESS ->
  OCLStream_new WGSIZE indeterminate ARRAY_SIZE device_index w =
  (Throw (cl_Error (clCreateKernel dev false "copy")),
   log (populated w)
     (banner dev ++
      [ev_get_double_fp_config; ev_build opt_double; ev_create_kernel "copy"])).
Proof.
  intros E8 Hr Hcfg Hb Hf Hk.
  rewrite (double_build_error_swallowed WGSIZE indeterminate _ _ _ dev)
    by assumption.
  unfold create_kernels. rewrite !bind_assoc_run.
  erewrite bind_throw; [| apply KernelFunctor_fails, Hk].
  rewrite log_log, <- app_assoc. reflexivity.
Qed.

Lemma create_kernels_Ok (dev : Device) (built : bool) (w w' : world) (u : unit) :
  create_kernels dev built w = (Ok u, w') -> w' = log w kernel_events.
Proof.
  unfold create_kernels, KernelFunctor, errHandler. munfold. cbn.
  repeat (destruct (_ =? CL_SUCCESS); cbn; [|discriminate]).
  intros [= _ <-]. unfold log, kernel_events. cbn.
  rewrite <- !app_assoc. reflexivity.
Qed.

(** X14. The destructor reclaims four of the five kernel functors that a
    successful construction created with [new]: after it, the functor of
    [stream_dot] is still allocated. *)
Theorem destructor_leaks_dot_kernel
    (ARRAY_SIZE device_index : Z) (w w' : world) (e : @OCLStream T) :
  OCLStream_new WGSIZE indeterminate ARRAY_SIZE device_index w = (Ok e, w') ->
  kernels_created (emitted w w') = ["copy"; "mul"; "add"; "triad"; "stream_dot"] /\
  OCLStream_delete (kernels_created (emitted w w')) = ["stream_dot"].
Proof.
  intros Hnew.
  destruct (OCLStream_new_Ok_valid _ _ _ _ _ Hnew) as (dev & Hlt & Hdev).
  rewrite (OCLStream_new_valid WGSIZE indeterminate _ _ _ dev Hlt Hdev) in Hnew.
  set (w0 := log (populated w) (banner dev)) in Hnew.
  assert (Hb1 : behaves not_kernel_event (fun _ => True) (build_program dev))
    by (apply behaves_build_program; intros; exact I).
  assert (Hb3 : behaves not_kernel_event (fun _ => True)
                  (check_and_allocate WGSIZE indeterminate dev ARRAY_SIZE))
    by (apply behaves_check_and_allocate; intros; exact I).
  destruct (Hb1 w0) as (t1 & E1 & F1 & _).
  munfold.
  destruct (build_program dev w0) as [[built|x] w1]; [|discriminate].
  destruct (create_kernels dev built w1) as [[[]|x] w2] eqn:Ek; [|discriminate].
  apply create_kernels_Ok in Ek. subst w2.
  destruct (Hb3 (log w1 kernel_events)) as (t3 & E3 & F3 & _).
  rewrite Hnew in E3. cbn [snd log trace] in E1, E3.
  assert (Em : emitted w w' =
               guard_events w ++ banner dev ++ t1 ++ kernel_events ++ t3).
  { apply emitted_app. rewrite E3, E1. unfold w0. cbn [log trace].
    rewrite trace_populated, <- !app_assoc. reflexivity. }
  assert (Hk : kernels_created (emitted w w') =
               ["copy"; "mul"; "add"; "triad"; "stream_dot"]).
  { rewrite Em, !kernels_created_app.
    rewrite (kernels_created_none _ (guard_events_not_kernel w)).
    rewrite (kernels_created_none _ F1), (kernels_created_none _ F3).
    reflexivity. }
  split; [exact Hk | rewrite Hk; reflexivity].
Qed.

(** X15. The byte sizes the constructor computes in [size_t] never wrap: for
    an element of 4 or 8 bytes and every [unsigned int] [ARRAY_SIZE], the
    sizes of one array, of three arrays and of the sum buffer are the exact
    products, all below 2^37. *)
Theorem buffer_sizes_do_not_wrap (ARRAY_SIZE : Z) :
  float_or_double -> 0 < WGSIZE -> Mach.is_unsigned ARRAY_SIZE ->
  Mach.size_t_mul sizeof ARRAY_SIZE = sizeof * ARRAY_SIZE /\
  Mach.size_t_mul (Mach.size_t_mul 3 sizeof) ARRAY_SIZE = 3 * sizeof * ARRAY_SIZE /\
  Mach.size_t_mul sizeof (ARRAY_SIZE / WGSIZE) = sizeof * (ARRAY_SIZE / WGSIZE) /\
  0 <= sizeof * (ARRAY_SIZE / WGSIZE) <= sizeof * ARRAY_SIZE /\
  3 * sizeof * ARRAY_SIZE < 2 ^ 37.
Proof.
  intros Hs HW Hn. pose proof (groups_unsigned WGSIZE ARRAY_SIZE HW Hn) as Hg.
  rewrite !size_of_buffer, size_of_three_buffers by assumption.
  assert (ARRAY_SIZE / WGSIZE <= ARRAY_SIZE).
  { destruct Hn. apply Z.div_le_upper_bound; nia. }
  destruct Hn as [Hlo Hhi], Hg as [Hglo Hghi]. unfold Mach.UINT_MAX1 in *.
  repeat split; try reflexivity;
    destruct Hs as [-> | ->]; unfold sizeof_float, sizeof_double; lia.
Qed.

End MoreConstruction.

(** ** The operations under any schedule of the work-items *)

Section Schedules.

Context {T : Type} {ElemT : Elem T}.
Variable WGSIZE : Z.
Variable indeterminate : nat -> nat -> T.

(** X16. The array operations do not depend on the order in which the device
    runs the work-items: whatever the engine holds, running the [array_size]
    work-items of [copy], [mul], [add] or [triad] once each in any order
    leaves the array that the operation leaves. *)
Theorem array_operations_any_schedule (e : @OCLStream T) (order : list nat) :
  order ≡ₚ seq 0 (Z.to_nat (array_size e)) ->
  d_c (snd (copy e)) = fold_left (fun c i => copy_kernel i (d_a e) c) order (d_c e) /\
  d_b (snd (mul e)) = fold_left (fun b i => mul_kernel i b (d_c e)) order (d_b e) /\
  d_c (snd (add e)) =
    fold_left (fun c i => add_kernel i (d_a e) (d_b e) c) order (d_c e) /\
  d_a (snd (triad e)) =
    fold_left (fun a i => triad_kernel i a (d_b e) (d_c e)) order (d_a e).
Proof.
  intros Hperm.
  destruct (array_kernels_any_order (array_size e) order (d_a e) (d_b e) (d_c e) Hperm)
    as (Hc & Hm & Ha & Ht).
  unfold copy, mul, add, triad, set_d_a, set_d_b, set_d_c. ounfold. cbn.
  rewrite Hc, Hm, Ha, Ht. repeat split; reflexivity.
Qed.

(** X17. The dot kernel does not depend on the order of the work-groups, nor
    on the order of the lanes between two barriers: when [array_size] is a
    multiple of [WGSIZE], running the work-groups once each in any order
    leaves the sum buffer that [dot] leaves, and inside a work-group the
    loads and every halving step give the same local memory for any order of
    the [WGSIZE] lanes. *)
Theorem dot_any_schedule (e : @OCLStream T) (groups lanes : list nat) :
  array_size e mod WGSIZE = 0 ->
  groups ≡ₚ seq 0 (Z.to_nat (array_size e / WGSIZE)) ->
  lanes ≡ₚ seq 0 (Z.to_nat WGSIZE) ->
  d_sum (snd (dot WGSIZE indeterminate e)) =
    fold_left
      (fun s g => stream_dot_group WGSIZE indeterminate WGSIZE (d_a e) (d_b e) g s)
      groups (d_sum e) /\
  forall (base : nat) (offset : Z) (wg : list T),
    fold_left (fun s l => stream_dot_load (d_a e) (d_b e) (base + l) l s) lanes wg =
      NDRange WGSIZE (fun l s => stream_dot_load (d_a e) (d_b e) (base + l) l s) wg /\
    fold_left (fun s l => stream_dot_step offset l s) lanes wg =
      NDRange WGSIZE (stream_dot_step offset) wg.
Proof.
  intros Hdiv Hg Hl. split.
  - rewrite (dot_groups_any_order WGSIZE indeterminate (array_size e) WGSIZE groups
               (d_a e) (d_b e) (d_sum e) Hg).
    unfold dot, set_d_sum, set_sums, copy_to_host. ounfold. cbn.
    rewrite Hdiv. cbn.
    destruct (_ <=? _)%nat; reflexivity.
  - intros base offset wg.
    apply (dot_phases_any_order WGSIZE offset lanes (d_a e) (d_b e) wg base Hl).
Qed.

End Schedules.

(** ** The dot kernel when the work-group size is not a power of two *)

Section NonPowerOfTwo.

Context {T : Type} {ElemT : Elem T}.
Variable WGSIZE : Z.
Variable indeterminate : nat -> nat -> T.

(** What the lanes [0 .. k-1] of one halving step leave in slot [j]. *)
Lemma step_prefix_lookup (o : Z) (wg : list T) (k j : nat) :
  0 <= o ->
  fold_left (fun s l => stream_dot_step o l s) (seq 0 k) wg !! j =
  if decide ((j < k)%nat /\ Z.of_nat j < o) then
    match wg !! j, wg !! (j + Z.to_nat o)%nat with
    | Some x, Some y => Some (T_add x y)
    | _, _ => wg !! j
    end
  else wg !! j.
Proof.
  intros Ho. revert j. induction k as [|k IH]; intros j.
  - cbn. destruct (decide _) as [[H _]|_]; [lia | reflexivity].
  - rewrite seq_S, fold_left_app. cbn [fold_left Nat.add].
    set (R := fold_left (fun s l => stream_dot_step o l s) (seq 0 k) wg) in *.
    assert (Rk : R !! k = wg !! k).
    { rewrite IH. destruct (decide _) as [[H _]|_]; [lia | reflexivity]. }
    assert (Rko : R !! (k + Z.to_nat o)%nat = wg !! (k + Z.to_nat o)%nat).
    { rewrite IH. destruct (decide _) as [[H _]|_]; [lia | reflexivity]. }
    unfold stream_dot_step. rewrite Rk, Rko.
    destruct (Z.ltb_spec (Z.of_nat k) o) as [Hlt|Hge].
    + destruct (wg !! k) as [x|] eqn:Ex;
        [destruct (wg !! (k + Z.to_nat o)%nat) as [y|] eqn:Ey|].
      * destruct (decide (j = k)) as [->|Hne].
        -- rewrite list_lookup_insert_eq by (apply (lookup_lt_Some _ _ x); exact Rk).
           destruct (decide _) as [_|H]; [|lia]. rewrite Ex, Ey. reflexivity.
        -- rewrite list_lookup_insert_ne by congruence. rewrite IH.
           destruct (decide _) as [H1|H1], (decide _) as [H2|H2];
             try reflexivity; lia.
      * rewrite IH. destruct (decide (j = k)) as [->|Hne].
        -- destruct (decide _) as [H1|_]; [lia|].
           destruct (decide _) as [_|H2]; [|lia]. rewrite Ex, Ey. reflexivity.
        -- destruct (decide _) as [H1|H1], (decide _) as [H2|H2];
             try reflexivity; lia.
      * rewrite IH. destruct (decide (j = k)) as [->|Hne].
        -- destruct (decide _) as [H1|_]; [lia|].
           destruct (decide _) as [_|H2]; [|lia]. rewrite Ex. reflexivity.
        -- destruct (decide _) as [H1|H1], (decide _) as [H2|H2];
             try reflexivity; lia.
    + rewrite IH.
      destruct (decide _) as [H1|H1], (decide _) as [H2|H2]; try reflexivity; lia.
Qed.

Lemma step_phase_lookup (local_size o : Z) (wg : list T) (j : nat) :
  0 <= o ->
  NDRange local_size (stream_dot_step o) wg !! j =
  if decide ((j < Z.to_nat local_size)%nat /\ Z.of_nat j < o) then
    match wg !! j, wg !! (j + Z.to_nat o)%nat with
    | Some x, Some y => Some (T_add x y)
    | _, _ => wg !! j
    end
  else wg !! j.
Proof. intros Ho. unfold NDRange. apply step_prefix_lookup, Ho. Qed.

(** Slot 0 after the loop that starts at [offset] depends on the slots
    below [2 * offset] only. *)
Lemma loop_depends (local_size : Z) (n : nat) :
  forall (o : Z) (wg wg' : list T),
    Z.to_nat o = n ->
    (forall j : nat, Z.of_nat j < 2 * o \/ j = 0%nat -> wg !! j = wg' !! j) ->
    stream_dot_loop local_size o wg !! 0%nat =
    stream_dot_loop local_size o wg' !! 0%nat.
Proof.
  induction n as [n IH] using lt_wf_ind. intros o wg wg' Hn Hagree.
  rewrite (stream_dot_loop_eq local_size o wg), (stream_dot_loop_eq local_size o wg').
  destruct (Z.ltb_spec 0 o) as [Hpos|Hnot].
  - assert (Hq : Z.quot o 2 = o / 2) by (apply Z.quot_div_nonneg; lia).
    assert (Hlt : o / 2 < o) by (apply Z.div_lt; lia).
    assert (Hge : 0 <= o / 2) by (apply Z.div_pos; lia).
    assert (Hle : 2 * (o / 2) <= o) by (apply Z.mul_div_le; lia).
    rewrite Hq.
    apply (IH (Z.to_nat (o / 2))); [lia | reflexivity|].
    intros j Hj. rewrite !step_phase_lookup by lia.
    rewrite (Hagree j) by lia.
    rewrite (Hagree (j + Z.to_nat o)%nat) by lia.
    reflexivity.
  - apply Hagree. right. reflexivity.
Qed.

Lemma fold_left_ext_in {S : Type} (f f' : S -> nat -> S) (l : list nat) :
  (forall g s, g ∈ l -> f s g = f' s g) ->
  forall s, fold_left f l s = fold_left f' l s.
Proof.
  induction l as [|g l IH]; intros Hext s; [reflexivity|].
  cbn [fold_left]. rewrite (Hext g s) by left.
  apply IH. intros g' s' Hin. apply Hext. right. exact Hin.
Qed.

Lemma group_lookup (w g j : nat) (xs : list T) :
  (j < w)%nat -> group w g xs !! j = xs !! (g * w + j)%nat.
Proof.
  intros Hj. unfold group. rewrite lookup_take_lt by exact Hj.
  apply lookup_drop.
Qed.

(** With [WGSIZE = 2 * m] and [m = 2 * h + 1], the lane [m - 1 = 2 * h] of a
    work-group never reaches slot 0. *)
Lemma stream_dot_group_ignores_lane (h g : nat) (a a' b sum : list T) :
  WGSIZE = 2 * (2 * Z.of_nat h + 1) -> (1 <= h)%nat -> WGSIZE < 2 ^ 31 ->
  length a = length a' ->
  ((g + 1) * Z.to_nat WGSIZE <= length (products a b))%nat ->
  (forall i : nat, (i mod Z.to_nat WGSIZE)%nat <> (2 * h)%nat -> a !! i = a' !! i) ->
  stream_dot_group WGSIZE indeterminate WGSIZE a b g sum =
  stream_dot_group WGSIZE indeterminate WGSIZE a' b g sum.
Proof.
  intros HW Hh Hint Hlen Hfit Hagree. unfold stream_dot_group. cbv zeta.
  set (w := Z.to_nat WGSIZE) in *.
  assert (Hw : w = (2 * (2 * h + 1))%nat) by (unfold w; lia).
  assert (Hfit' : ((g + 1) * w <= length (products a' b))%nat).
  { unfold products in *. rewrite length_zip_with in *. lia. }
  rewrite (load_phase a b _ g w WGSIZE), (load_phase a' b _ g w WGSIZE);
    try reflexivity; try assumption;
    try (rewrite length_map, length_seq; reflexivity).
  assert (Hhalf : Mach.to_int (WGSIZE / 2) = 2 * Z.of_nat h + 1).
  { rewrite to_int_small by (split; [apply Z.div_pos; lia | apply Z.div_lt_upper_bound; lia]).
    rewrite HW, Z.mul_comm, Z.div_mul by lia. reflexivity. }
  rewrite Hhalf.
  assert (Heq :
    stream_dot_loop WGSIZE (2 * Z.of_nat h + 1) (group w g (products a b)) !! 0%nat =
    stream_dot_loop WGSIZE (2 * Z.of_nat h + 1) (group w g (products a' b)) !! 0%nat).
  { rewrite (stream_dot_loop_eq WGSIZE _ (group w g (products a b))).
    rewrite (stream_dot_loop_eq WGSIZE _ (group w g (products a' b))).
    destruct (Z.ltb_spec 0 (2 * Z.of_nat h + 1)) as [_|Hneg]; [|lia].
    assert (Hq : Z.quot (2 * Z.of_nat h + 1) 2 = Z.of_nat h).
    { rewrite Z.quot_div_nonneg by lia.
      rewrite Z.add_comm, Z.mul_comm, Z.div_add by lia. reflexivity. }
    apply (loop_depends WGSIZE (Z.to_nat (Z.quot (2 * Z.of_nat h + 1) 2)));
      [reflexivity|].
    rewrite Hq. intros j Hj. rewrite !step_phase_lookup by lia.
    assert (Hj' : (j < 2 * h)%nat) by lia.
    assert (Ea : forall l : nat, (l < w)%nat -> l <> (2 * h)%nat ->
                 group w g (products a b) !! l = group w g (products a' b) !! l).
    { intros l Hl Hne. rewrite !group_lookup by exact Hl.
      unfold products. rewrite !lookup_zip_with.
      rewrite (Hagree (g * w + l)%nat); [reflexivity|].
      rewrite Nat.add_comm, Nat.Div0.mod_add, Nat.mod_small by exact Hl.
      exact Hne. }
    rewrite (Ea j) by lia.
    rewrite (Ea (j + Z.to_nat (2 * Z.of_nat h + 1))%nat) by lia.
    reflexivity. }
  rewrite Heq. reflexivity.
Qed.

(** [dot] on an engine that holds whole work-groups: the kernel's sum buffer
    comes back to the host and is summed there. *)
Lemma dot_run_kernel (e : @OCLStream T) :
  engine_ok WGSIZE e -> array_size e mod WGSIZE = 0 ->
  let K := stream_dot_kernel WGSIZE indeterminate (array_size e) WGSIZE
             (d_a e) (d_b e) (d_sum e) in
  dot WGSIZE indeterminate e =
  (Ok (fold_left (fun sum val => T_add sum val) K T_zero),
   mkOCLStream (array_size e) (device e) (d_a e) (d_b e) (d_c e) K K).
Proof.
  intros (_ & Hs & Hsums) Hdiv K.
  unfold dot, set_d_sum, set_sums. ounfold. cbn.
  rewrite Hdiv. cbn. fold K.
  rewrite copy_to_host_run; [reflexivity|].
  unfold K. rewrite length_stream_dot_kernel. lia.
Qed.

Lemma stream_dot_kernel_ignores_lane (h : nat) (n : Z) (a a' b sum : list T) :
  WGSIZE = 2 * (2 * Z.of_nat h + 1) -> (1 <= h)%nat -> WGSIZE < 2 ^ 31 ->
  0 <= n -> length a = Z.to_nat n -> length a' = Z.to_nat n ->
  length b = Z.to_nat n ->
  (forall i : nat, (i mod Z.to_nat WGSIZE)%nat <> (2 * h)%nat -> a !! i = a' !! i) ->
  stream_dot_kernel WGSIZE indeterminate n WGSIZE a b sum =
  stream_dot_kernel WGSIZE indeterminate n WGSIZE a' b sum.
Proof.
  intros HW Hh Hint Hn Ha Ha' Hb Hagree. unfold stream_dot_kernel.
  apply fold_left_ext_in. intros g s Hin.
  apply (stream_dot_group_ignores_lane h); try assumption; [congruence|].
  apply elem_of_seq in Hin. destruct Hin as [_ Hg].
  unfold products. rewrite length_zip_with, Ha, Hb, Nat.min_id.
  assert (Hdiv : WGSIZE * (n / WGSIZE) <= n) by (apply Z.mul_div_le; lia).
  assert (0 <= n / WGSIZE) by (apply Z.div_pos; lia).
  nia.
Qed.

(** X18. A work-group size that is not a power of two loses elements: with
    [WGSIZE = 2 * m] for an odd [m >= 3], the product at lane [m - 1] of
    every work-group never reaches the sum, so two vectors that differ at
    those lanes only give the same [dot]. *)
Theorem dot_drops_a_lane (h : nat) (e : @OCLStream T) (A A' B C : list T) :
  WGSIZE = 2 * (2 * Z.of_nat h + 1) -> (1 <= h)%nat -> WGSIZE < 2 ^ 31 ->
  constructed WGSIZE indeterminate e ->
  array_size e mod WGSIZE = 0 ->
  fits e A -> fits e A' -> fits e B -> fits e C ->
  (forall i : nat, (i mod Z.to_nat WGSIZE)%nat <> (2 * h)%nat -> A !! i = A' !! i) ->
  exists v e1 e2,
    (write_arrays A B C;; dot WGSIZE indeterminate) e = (Ok v, e1) /\
    (write_arrays A' B C;; dot WGSIZE indeterminate) e = (Ok v, e2) /\
    d_sum e1 = d_sum e2 /\ sums e1 = sums e2.
Proof.
  intros HW Hh Hint Hc Hdiv HA HA' HB HC Hagree. apply constructed_ok in Hc.
  pose proof Hc as (Harr & Hs & Hsums). pose proof Harr as (Hn & _).
  unfold fits in *.
  assert (Hok : forall X, length X = Z.to_nat (array_size e) ->
            engine_ok WGSIZE
              (mkOCLStream (array_size e) (device e) X B C (d_sum e) (sums e))).
  { intros X HX. unfold engine_ok, arrays_ok. cbn. repeat split; assumption. }
  ounfold. rewrite !write_arrays_run by assumption.
  rewrite (dot_run_kernel _ (Hok A HA) Hdiv), (dot_run_kernel _ (Hok A' HA') Hdiv).
  cbn [array_size d_a d_b d_sum].
  rewrite (stream_dot_kernel_ignores_lane h (array_size e) A A' B (d_sum e))
    by assumption.
  do 3 eexists. repeat split; reflexivity.
Qed.

End NonPowerOfTwo.

(** ** How a failed build is reported *)

Section BuildFailures.

Context {T : Type} {ElemT : Elem T}.
Variable WGSIZE : Z.
Variable indeterminate : nat -> nat -> T.

(** X19. With the 32-bit type a failed build is not reported by the
    constructor: whatever the status, the [cl::BuildError] of the build
    leaves the constructor as it is, with the build log in it, and after the
    name and the driver of the device nothing is printed, no build log, and
    no kernel is created. *)
Theorem float_build_failure_is_silent
    (ARRAY_SIZE device_index : Z) (w : world) (dev : Device) :
  sizeof = sizeof_float -> resolves w device_index dev ->
  clBuildProgram dev opt_float <> CL_SUCCESS ->
  fst (OCLStream_new WGSIZE indeterminate ARRAY_SIZE device_index w) =
    Throw (cl_BuildError (clBuildProgram dev opt_float)
             (CL_PROGRAM_BUILD_LOG dev opt_float)) /\
  emitted w (snd (OCLStream_new WGSIZE indeterminate ARRAY_SIZE device_index w)) =
    guard_events w ++ banner dev ++ [ev_build opt_float].
Proof.
  intros E4 Hr Hb.
  rewrite (float_build_failure WGSIZE indeterminate _ _ _ dev E4 Hr Hb).
  split; [reflexivity|]. cbn [snd]. apply emitted_app.
  cbn [log trace]. rewrite trace_populated, <- app_assoc. reflexivity.
Qed.

(** X20. With the 64-bit type a build that fails with
    CL_BUILD_PROGRAM_FAILURE is reported: the constructor prints the build
    log of the device on the output stream, then throws a [cl::Error] with
    the status of the build again; no kernel is created. *)
Theorem double_build_failure_prints_log
    (ARRAY_SIZE device_index : Z) (w : world) (dev : Device) :
  sizeof = sizeof_double -> resolves w device_index dev ->
  CL_DEVICE_DOUBLE_FP_CONFIG dev <> 0 ->
  clBuildProgram dev opt_double = CL_BUILD_PROGRAM_FAILURE ->
  fst (OCLStream_new WGSIZE indeterminate ARRAY_SIZE device_index w) =
    Throw (cl_Error CL_BUILD_PROGRAM_FAILURE) /\
  emitted w (snd (OCLStream_new WGSIZE indeterminate ARRAY_SIZE device_index w)) =
    guard_events w ++ banner dev ++
    [ev_get_double_fp_config; ev_build opt_double;
     ev_cout [tok_str (CL_PROGRAM_BUILD_LOG dev opt_double); tok_endl]].
Proof.
  intros E8 Hr Hcfg Hb.
  rewrite (double_build_failure WGSIZE indeterminate _ _ _ dev E8 Hr Hcfg Hb).
  split; [reflexivity|]. cbn [snd]. apply emitted_app.
  cbn [log trace]. rewrite trace_populated, <- app_assoc. reflexivity.
Qed.

End BuildFailures.

(** ** The further theorems at concrete engines and caches *)

Lemma copy_copies_a_witness :
  constructed 64 stale_double small_engine /\
  exists e',
    (write_arrays (ones 4) (twos 4) (twos 4);; copy;;
     read_arrays (ones 4) (ones 4) (ones 4)) small_engine
    = (Ok (ones 4, twos 4, ones 4), e').
Proof.
  split; [exact small_engine_constructed|].
  exact (copy_copies_a 64 stale_double small_engine
           (ones 4) (twos 4) (twos 4) (ones 4) (ones 4) (ones 4)
           small_engine_constructed eq_refl eq_refl eq_refl eq_refl eq_refl eq_refl).
Defined.

Lemma add_sums_a_b_witness :
  constructed 64 stale_double small_engine /\
  exists c' e',
    (write_arrays (ones 4) (twos 4) (twos 4);; add;;
     read_arrays (ones 4) (ones 4) (ones 4)) small_engine
    = (Ok (ones 4, twos 4, c'), e') /\
    c' !! 0%nat = Some (T_add (IEEE.double_of 1 0) (IEEE.double_of 2 0)).
Proof.
  split; [exact small_engine_constructed|].
  destruct (add_sums_a_b 64 stale_double small_engine
              (ones 4) (twos 4) (twos 4) (ones 4) (ones 4) (ones 4)
              small_engine_constructed eq_refl eq_refl eq_refl eq_refl eq_refl eq_refl)
    as (c' & e' & Hrun & _ & Hpoint).
  exists c', e'. split; [exact Hrun|].
  apply Hpoint; reflexivity.
Defined.

Lemma write_read_round_trip_witness :
  constructed 64 stale_double small_engine /\
  exists e',
    (write_arrays (ones 4) (twos 4) (ones 4);;
     read_arrays (twos 4) (twos 4) (twos 4)) small_engine
    = (Ok (ones 4, twos 4, ones 4), e') /\
    read_arrays (twos 4) (twos 4) (twos 4) e' = (Ok (ones 4, twos 4, ones 4), e').
Proof.
  split; [exact small_engine_constructed|].
  destruct (write_read_round_trip 64 stale_double small_engine
              (ones 4) (twos 4) (ones 4) (twos 4) (twos 4) (twos 4)
              small_engine_constructed eq_refl eq_refl eq_refl eq_refl eq_refl eq_refl)
    as (e' & Hrun & Hagain & _).
  exists e'. split; [exact Hrun | exact Hagain].
Defined.

Lemma constructed_engine_invariant_witness :
  constructed 64 stale_double small_engine /\
  engine_ok 64 small_engine /\
  engine_ok 64 (snd (triad small_engine)).
Proof.
  split; [exact small_engine_constructed|].
  destruct (constructed_engine_invariant 64 stale_double small_engine
              small_engine_constructed) as (Hok & Hstep).
  split; [exact Hok|].
  exact (proj2 (proj2 (Hstep _ (step_triad 64 stale_double small_engine)))).
Defined.

Lemma stream_pass_witness :
  constructed 64 stale_double small_engine /\
  exists e',
    (copy;; mul;; add;; triad) small_engine = (Ok tt, e') /\
    d_b e' = map (fun x => T_mul scalar x) (d_a small_engine).
Proof.
  split; [exact small_engine_constructed|].
  destruct (stream_pass 64 stale_double small_engine small_engine_constructed)
    as (e' & Hrun & Hb & _).
  exists e'. split; [exact Hrun | exact Hb].
Defined.

Lemma dot_repeatable_witness :
  4 = 2 ^ Z.of_nat 2 /\ 4 < 2 ^ 31 /\
  constructed 4 stale_Z exact_engine /\
  array_size exact_engine mod 4 = 0 /\
  exists v e',
    dot 4 stale_Z exact_engine = (Ok v, e') /\ dot 4 stale_Z e' = (Ok v, e').
Proof.
  split; [reflexivity|]. split; [reflexivity|].
  split; [exact exact_engine_constructed|]. split; [reflexivity|].
  destruct (dot_repeatable 4 stale_Z 2 exact_engine
              eq_refl eq_refl exact_engine_constructed eq_refl)
    as (v & e' & Hfirst & Hsecond & _).
  exists v, e'. split; [exact Hfirst | exact Hsecond].
Defined.

Lemma listDevices_no_devices_witness :
  let w := fresh_world [[]; []] in
  devices w ++ concat (platforms w) = [] /\
  listDevices w =
  (Ok tt,
   mkWorld [[]; []] true []
     [ev_platform_get; ev_cerr [tok_str "No devices found."; tok_endl]]).
Proof.
  intros w. split; [reflexivity|].
  exact (listDevices_no_devices w eq_refl).
Defined.

Lemma listDevices_prints_catalog_witness :
  let w := fresh_world [[gpu]; [gpu_single_precision]] in
  devices w ++ concat (platforms w) <> [] /\
  Z.of_nat (length (devices w ++ concat (platforms w))) < 2 ^ 31 /\
  listDevices w =
  (Ok tt,
   mkWorld (platforms w) true [gpu; gpu_single_precision]
     ([ev_platform_get; ev_cout [tok_endl]; ev_cout [tok_str "Devices:"; tok_endl]] ++
      device_lines 0 [gpu; gpu_single_precision] ++ [ev_cout [tok_endl]])).
Proof.
  intros w.
  assert (Hne : devices w ++ concat (platforms w) <> []) by discriminate.
  assert (Hlt : Z.of_nat (length (devices w ++ concat (platforms w))) < 2 ^ 31)
    by reflexivity.
  split; [exact Hne | split; [exact Hlt|]].
  exact (listDevices_prints_catalog w Hne Hlt).
Defined.

Lemma small_engine_is_constructed_on_gpu :
  OCLStream_new 64 stale_double 4 0 (fresh_world [[gpu]]) =
  (Ok small_engine, snd (OCLStream_new 64 stale_double 4 0 (fresh_world [[gpu]]))).
Proof. vm_compute. reflexivity. Defined.

Lemma count_of_one_gpu : device_count (fresh_world [[gpu]]) < 2 ^ 63.
Proof. reflexivity. Defined.

Lemma zero_is_int : Mach.is_int 0.
Proof. split; vm_compute; congruence. Defined.

Lemma one_is_int : Mach.is_int 1.
Proof. split; vm_compute; congruence. Defined.

Lemma construction_selects_device_witness :
  let w := fresh_world [[gpu]] in
  let w' := snd (OCLStream_new 64 stale_double 4 0 w) in
  Mach.is_int 0 /\ device_count w < 2 ^ 63 /\
  OCLStream_new 64 stale_double 4 0 w = (Ok small_engine, w') /\
  devices (populated w) !! Z.to_nat 0 = Some (device small_engine) /\
  array_size small_engine = 4.
Proof.
  intros w w'.
  split; [exact zero_is_int|]. split; [exact count_of_one_gpu|].
  split; [exact small_engine_is_constructed_on_gpu|].
  destruct (construction_selects_device 64 stale_double 4 0 w w' small_engine
              zero_is_int count_of_one_gpu small_engine_is_constructed_on_gpu)
    as (_ & Hdev & Hn & _).
  split; [exact Hdev | exact Hn].
Defined.

Lemma one_out_of_range : ~ (0 <= 1 < device_count (fresh_world [[gpu]])).
Proof. intros [_ H]. vm_compute in H. discriminate H. Defined.

Lemma invalid_index_touches_nothing_witness :
  let w := fresh_world [[gpu]] in
  Mach.is_int 1 /\ device_count w < 2 ^ 63 /\ ~ (0 <= 1 < device_count w) /\
  OCLStream_new 64 stale_double 4 1 w =
    (Throw (runtime_error msg_invalid_index), populated w) /\
  emitted w (snd (OCLStream_new 64 stale_double 4 1 w)) = [ev_platform_get].
Proof.
  intros w.
  split; [exact one_is_int|]. split; [exact count_of_one_gpu|].
  split; [exact one_out_of_range|].
  exact (invalid_index_touches_nothing 64 stale_double 4 1 w
           one_is_int count_of_one_gpu one_out_of_range).
Defined.

Lemma gpu_no_compiler_resolves :
  resolves (fresh_world [[gpu_no_compiler]]) 0 gpu_no_compiler.
Proof. repeat split; vm_compute; congruence. Defined.

Lemma double_build_error_is_dropped_witness :
  let w := fresh_world [[gpu_no_compiler]] in
  sizeof (T := IEEE.double) = sizeof_double /\
  resolves w 0 gpu_no_compiler /\
  CL_DEVICE_DOUBLE_FP_CONFIG gpu_no_compiler <> 0 /\
  clBuildProgram gpu_no_compiler opt_double <> CL_SUCCESS /\
  clBuildProgram gpu_no_compiler opt_double <> CL_BUILD_PROGRAM_FAILURE /\
  clCreateKernel gpu_no_compiler false "copy" <> CL_SUCCESS /\
  fst (OCLStream_new 64 stale_double 4 0 w) = Throw (cl_Error (-45)).
Proof.
  intros w.
  assert (E8 : sizeof (T := IEEE.double) = sizeof_double) by reflexivity.
  assert (Hcfg : CL_DEVICE_DOUBLE_FP_CONFIG gpu_no_compiler <> 0) by discriminate.
  assert (Hb : clBuildProgram gpu_no_compiler opt_double <> CL_SUCCESS)
    by discriminate.
  assert (Hf : clBuildProgram gpu_no_compiler opt_double <> CL_BUILD_PROGRAM_FAILURE)
    by discriminate.
  assert (Hk : clCreateKernel gpu_no_compiler false "copy" <> CL_SUCCESS)
    by discriminate.
  split; [exact E8|]. split; [exact gpu_no_compiler_resolves|].
  split; [exact Hcfg|]. split; [exact Hb|]. split; [exact Hf|]. split; [exact Hk|].
  rewrite (double_build_error_is_dropped (T := IEEE.double) 64 stale_double 4 0 w
             gpu_no_compiler E8 gpu_no_compiler_resolves Hcfg Hb Hf Hk).
  reflexivity.
Defined.

Lemma destructor_leaks_dot_kernel_witness :
  let w := fresh_world [[gpu]] in
  let w' := snd (OCLStream_new 64 stale_double 4 0 w) in
  OCLStream_new 64 stale_double 4 0 w = (Ok small_engine, w') /\
  OCLStream_delete (kernels_created (emitted w w')) = ["stream_dot"].
Proof.
  intros w w'. split; [exact small_engine_is_constructed_on_gpu|].
  exact (proj2 (destructor_leaks_dot_kernel 64 stale_double 4 0 w w' small_engine
                  small_engine_is_constructed_on_gpu)).
Defined.

Lemma max_unsigned_is_unsigned : Mach.is_unsigned (2 ^ 32 - 1).
Proof. split; vm_compute; congruence. Defined.

Lemma buffer_sizes_do_not_wrap_witness :
  float_or_double (T := IEEE.double) /\ 0 < 64 /\ Mach.is_unsigned (2 ^ 32 - 1) /\
  Mach.size_t_mul (Mach.size_t_mul 3 (sizeof (T := IEEE.double))) (2 ^ 32 - 1) =
    3 * 8 * (2 ^ 32 - 1).
Proof.
  split; [exact double_is_float_or_double|]. split; [reflexivity|].
  split; [exact max_unsigned_is_unsigned|].
  exact (proj1 (proj2 (buffer_sizes_do_not_wrap (T := IEEE.double) 64 (2 ^ 32 - 1)
                         double_is_float_or_double eq_refl max_unsigned_is_unsigned))).
Defined.

Lemma descending_order_of_four : [3; 2; 1; 0]%nat ≡ₚ seq 0 (Z.to_nat 4).
Proof. exact (Permutation_sym (Permutation_rev (seq 0 4))). Defined.

Lemma array_operations_any_schedule_witness :
  [3; 2; 1; 0]%nat ≡ₚ seq 0 (Z.to_nat (array_size small_engine)) /\
  d_c (snd (copy small_engine)) =
    fold_left (fun c i => copy_kernel i (d_a small_engine) c) [3; 2; 1; 0]%nat
      (d_c small_engine).
Proof.
  split; [exact descending_order_of_four|].
  exact (proj1 (array_operations_any_schedule small_engine [3; 2; 1; 0]%nat
                  descending_order_of_four)).
Defined.

Lemma descending_order_of_two : [1; 0]%nat ≡ₚ seq 0 (Z.to_nat (8 / 4)).
Proof. exact (Permutation_sym (Permutation_rev (seq 0 2))). Defined.

Lemma dot_any_schedule_witness :
  array_size exact_engine mod 4 = 0 /\
  [1; 0]%nat ≡ₚ seq 0 (Z.to_nat (array_size exact_engine / 4)) /\
  [3; 2; 1; 0]%nat ≡ₚ seq 0 (Z.to_nat 4) /\
  d_sum (snd (dot 4 stale_Z exact_engine)) =
    fold_left
      (fun s g => stream_dot_group 4 stale_Z 4 (d_a exact_engine) (d_b exact_engine) g s)
      [1; 0]%nat (d_sum exact_engine).
Proof.
  split; [reflexivity|]. split; [exact descending_order_of_two|].
  split; [exact descending_order_of_four|].
  exact (proj1 (dot_any_schedule 4 stale_Z exact_engine [1; 0]%nat [3; 2; 1; 0]%nat
                  eq_refl descending_order_of_two descending_order_of_four)).
Defined.

Lemma six_engine_constructed :
  constructed 6 stale_Z
    (mkOCLStream 6 gpu (repeat 0 6) (repeat 0 6) (repeat 0 6) [0] [0]).
Proof.
  apply (constructed_new 6 stale_Z 6 0 (fresh_world [[gpu]]) _
           (snd (OCLStream_new 6 stale_Z 6 0 (fresh_world [[gpu]])))).
  - right. reflexivity.
  - reflexivity.
  - split; vm_compute; congruence.
  - vm_compute. reflexivity.
Defined.

Lemma lane_two_apart (i : nat) :
  (i mod Z.to_nat 6)%nat <> (2 * 1)%nat ->
  [1; 1; 1; 1; 1; 1] !! i = [1; 1; 7; 1; 1; 1] !! i.
Proof.
  intros Hi. destruct i as [|[|[|i]]]; try reflexivity.
  exfalso. apply Hi. reflexivity.
Defined.

Lemma dot_drops_a_lane_witness :
  let e := mkOCLStream 6 gpu (repeat 0 6) (repeat 0 6) (repeat 0 6) [0] [0] in
  let A := [1; 1; 1; 1; 1; 1] in
  let A' := [1; 1; 7; 1; 1; 1] in
  6 = 2 * (2 * Z.of_nat 1 + 1) /\ (1 <= 1)%nat /\ 6 < 2 ^ 31 /\
  constructed 6 stale_Z e /\ array_size e mod 6 = 0 /\
  (forall i : nat, (i mod Z.to_nat 6)%nat <> (2 * 1)%nat -> A !! i = A' !! i) /\
  exists v e1 e2,
    (write_arrays A A A;; dot 6 stale_Z) e = (Ok v, e1) /\
    (write_arrays A' A A;; dot 6 stale_Z) e = (Ok v, e2).
Proof.
  intros e A A'.
  split; [reflexivity|]. split; [exact (le_n 1)|]. split; [reflexivity|].
  split; [exact six_engine_constructed|]. split; [reflexivity|].
  split; [exact lane_two_apart|].
  destruct (dot_drops_a_lane 6 stale_Z 1 e A A' A A
              eq_refl (le_n 1) eq_refl six_engine_constructed eq_refl
              eq_refl eq_refl eq_refl eq_refl lane_two_apart)
    as (v & e1 & e2 & H1 & H2 & _).
  exists v, e1, e2. split; [exact H1 | exact H2].
Defined.

Lemma broken_compiler_resolves :
  resolves (fresh_world [[gpu_broken_compiler]]) 0 gpu_broken_compiler.
Proof. repeat split; vm_compute; congruence. Defined.

Lemma float_build_failure_is_silent_witness :
  let w := fresh_world [[gpu_broken_compiler]] in
  sizeof (T := IEEE.float) = sizeof_float /\
  resolves w 0 gpu_broken_compiler /\
  clBuildProgram gpu_broken_compiler opt_float <> CL_SUCCESS /\
  fst (OCLStream_new 64 stale_float 1024 0 w) =
    Throw (cl_BuildError (clBuildProgram gpu_broken_compiler opt_float)
             (CL_PROGRAM_BUILD_LOG gpu_broken_compiler opt_float)).
Proof.
  intros w.
  assert (E4 : sizeof (T := IEEE.float) = sizeof_float) by reflexivity.
  assert (Hb : clBuildProgram gpu_broken_compiler opt_float <> CL_SUCCESS)
    by discriminate.
  split; [exact E4|]. split; [exact broken_compiler_resolves|]. split; [exact Hb|].
  exact (proj1 (float_build_failure_is_silent (T := IEEE.float) 64 stale_float 1024 0
                  w gpu_broken_compiler E4 broken_compiler_resolves Hb)).
Defined.

Lemma double_build_failure_prints_log_witness :
  let w := fresh_world [[gpu_broken_compiler]] in
  sizeof (T := IEEE.double) = sizeof_double /\
  resolves w 0 gpu_broken_compiler /\
  CL_DEVICE_DOUBLE_FP_CONFIG gpu_broken_compiler <> 0 /\
  clBuildProgram gpu_broken_compiler opt_double = CL_BUILD_PROGRAM_FAILURE /\
  fst (OCLStream_new 64 stale_double 1024 0 w) =
    Throw (cl_Error CL_BUILD_PROGRAM_FAILURE).
Proof.
  intros w.
  assert (E8 : sizeof (T := IEEE.double) = sizeof_double) by reflexivity.
  assert (Hcfg : CL_DEVICE_DOUBLE_FP_CONFIG gpu_broken_compiler <> 0) by discriminate.
  assert (Hb : clBuildProgram gpu_broken_compiler opt_double = CL_BUILD_PROGRAM_FAILURE)
    by reflexivity.
  split; [exact E8|]. split; [exact broken_compiler_resolves|].
  split; [exact Hcfg|]. split; [exact Hb|].
  exact (proj1 (double_build_failure_prints_log (T := IEEE.double) 64 stale_double
                  1024 0 w gpu_broken_compiler E8 broken_compiler_resolves Hcfg Hb)).
Defined.
